(** * PhysiGen AI: dynamic component compiler and runtime host

    A shallow embedding of
    - the compilation pipeline [compileComponent] of [utils/compiler]
      (sanitizer, transpiler adapter, scope binder), in its current form
      and, for the export wrapper, in its earliest form;
    - the scene host [DynamicScene] of [components/DynamicScene] (frame
      gate [customUseFrame], compile step, [ErrorBoundary]);
    - the generation service of [services/gemini]
      ([validateSimulationCode], [generateSimulation], [modifySimulation],
      [explainPhysics]);
    - the session handlers of [App] ([handleSimulationRequest],
      [performGeneration], [performModification], [performExplanation],
      [handlePresetClick], [handleReset], [handleFileImport],
      [handleRuntimeError]) with the controls that call them
      ([InputBar], [ExplanationPanel], the library and reset buttons).

    Modelling choices.
    - A JavaScript string is a list of code units restricted to the Latin-1
      range ([text]).
    - A regular-expression literal is a syntax tree run by a backtracking
      matcher in the ECMAScript priority order (leftmost start, greedy and
      lazy quantifiers, alternatives left to right, empty iterations
      rejected). No capture group of the modelled patterns sits under a
      quantifier, so captures are never reset.
    - Code that logs, calls the outside world or throws is written in a
      small monad [M] that records the observable events in order and ends
      in a result or a thrown error.
    - The transpiler, the [Function] constructor, the language model and
      [JSON.parse] are parameters; so are the simulation libraries.
    - A read [t[key]] of a table finds the own value or, under the name of
      a member of [Object.prototype], that inherited member.
    - The rendering library is not part of the sources; of its [useFrame]
      the model keeps that the subscribers are invoked once per frame, in
      the order of their priorities.
    - An asynchronous handler is split at its [await]; a session is the
      state of [App] together with the handlers suspended there, and any
      suspended handler may be resumed next.

    The first part gives the definitions, the second the proofs. *)

From Stdlib Require Import List Ascii String Bool Arith Lia.
From stdpp Require Import base option list relations strings pretty.
Import ListNotations.

Set Default Proof Using "Type".
Local Open Scope list_scope.

(** ** Text *)

Abbreviation text := (list ascii).

Definition str (s : string) : text := list_ascii_of_string s.

Definition code_of (c : ascii) : nat := nat_of_ascii c.

(** [\s]: WhiteSpace and LineTerminator code units below 256. *)
Definition is_space (c : ascii) : bool :=
  let n := code_of c in
  (n =? 9) || (n =? 10) || (n =? 11) || (n =? 12) || (n =? 13) || (n =? 32) || (n =? 160).

(** LineTerminator code units below 256: LF and CR. *)
Definition is_line_terminator (c : ascii) : bool :=
  let n := code_of c in (n =? 10) || (n =? 13).

(** [.] without the [s] flag. *)
Definition is_dot (c : ascii) : bool := negb (is_line_terminator c).

(** [[\s\S]] *)
Definition is_any (c : ascii) : bool := true.

(** [[a-zA-Z0-9_]], also [\w]. *)
Definition is_word (c : ascii) : bool :=
  let n := code_of c in
  ((97 <=? n) && (n <=? 122)) || ((65 <=? n) && (n <=? 90))
  || ((48 <=? n) && (n <=? 57)) || (n =? 95).

(** [[^\)]] *)
Definition is_not_rparen (c : ascii) : bool := negb (code_of c =? 41).

(** [String.prototype.toLowerCase] on one Latin-1 code unit. *)
Definition lower_char (c : ascii) : ascii :=
  let n := code_of c in
  if ((65 <=? n) && (n <=? 90))
     || ((192 <=? n) && (n <=? 222) && negb (n =? 215))
  then ascii_of_nat (n + 32) else c.

(** The regular-expression [Canonicalize] operation (non-unicode mode) on one
    Latin-1 code unit: the upper-case mapping when it stays a single code
    unit of the same range. *)
Definition canon_char (c : ascii) : ascii :=
  let n := code_of c in
  if ((97 <=? n) && (n <=? 122))
     || ((224 <=? n) && (n <=? 254) && negb (n =? 247))
  then ascii_of_nat (n - 32) else c.

Definition toLowerCase (s : text) : text := map lower_char s.

Fixpoint trimStart (s : text) : text :=
  match s with
  | c :: t => if is_space c then trimStart t else s
  | [] => []
  end.

Definition trimEnd (s : text) : text := rev (trimStart (rev s)).

Definition trim (s : text) : text := trimEnd (trimStart s).

Fixpoint startsWith (s p : text) {struct p} : bool :=
  match p, s with
  | [], _ => true
  | a :: p', b :: s' => if decide (a = b) then startsWith s' p' else false
  | _ :: _, [] => false
  end.

(** [String.prototype.includes]. *)
Fixpoint includes (s p : text) : bool :=
  startsWith s p ||
  match s with
  | [] => false
  | _ :: s' => includes s' p
  end.

(** ** Regular expressions *)

Inductive regex : Type :=
| Eps
| Chr (c : ascii)
| Cls (p : ascii -> bool)
| Seq (r1 r2 : regex)
| Alt (r1 r2 : regex)
| Star (greedy : bool) (r : regex)
| Bol
| Eol
| Group (r : regex).

Record flags := Flags { ignoreCase : bool; multiline : bool }.

Definition no_flags := Flags false false.
Definition flag_i := Flags true false.
Definition flag_m := Flags false true.

Fixpoint lit (s : text) : regex :=
  match s with
  | [] => Eps
  | [c] => Chr c
  | c :: t => Seq (Chr c) (lit t)
  end.

Definition Plus (greedy : bool) (r : regex) : regex := Seq r (Star greedy r).
Definition Opt (r : regex) : regex := Alt r Eps.

(** The matcher state: the code units already passed (most recent first),
    the code units ahead, and the captures completed so far (most recent
    first). *)
Record mstate := MState { seen : list ascii; ahead : list ascii; groups : list text }.

Definition cont := mstate -> option mstate.

Definition advance (s : mstate) (c : ascii) (t : list ascii) : mstate :=
  MState (c :: seen s) t (groups s).

Definition chr_matches (fl : flags) (c x : ascii) : bool :=
  if ignoreCase fl
  then (if decide (canon_char c = canon_char x) then true else false)
  else (if decide (c = x) then true else false).

(** Under the [i] flag a class matches a code unit when some member has the
    same canonical form; within Latin-1 the candidates are the code unit and
    its two case variants. *)
Definition cls_matches (fl : flags) (p : ascii -> bool) (x : ascii) : bool :=
  if ignoreCase fl
  then p x || p (lower_char x) || p (canon_char x)
  else p x.

Definition at_bol (fl : flags) (s : mstate) : bool :=
  match seen s with
  | [] => true
  | c :: _ => multiline fl && is_line_terminator c
  end.

Definition at_eol (fl : flags) (s : mstate) : bool :=
  match ahead s with
  | [] => true
  | c :: _ => multiline fl && is_line_terminator c
  end.

(** What a capture group records: the code units passed between [s] and [e]. *)
Definition captured (s e : mstate) : text :=
  rev (firstn (length (seen e) - length (seen s)) (seen e)).

Definition close_group (s e : mstate) : mstate :=
  MState (seen e) (ahead e) (captured s e :: groups e).

(** One quantifier [r*] / [r*?]: an iteration that passes no code unit is
    rejected, as in ECMAScript, so the fuel [S (length (ahead s))] is never
    exhausted. *)
Fixpoint iter (greedy : bool) (body : cont -> cont) (fuel : nat) (k : cont) (s : mstate)
  : option mstate :=
  match fuel with
  | 0 => k s
  | S f =>
      let again :=
        body (fun s' => if length (ahead s') <? length (ahead s)
                        then iter greedy body f k s' else None) s in
      if greedy
      then match again with Some e => Some e | None => k s end
      else match k s with Some e => Some e | None => again end
  end.

Fixpoint run (fl : flags) (r : regex) (k : cont) (s : mstate) {struct r} : option mstate :=
  match r with
  | Eps => k s
  | Chr c =>
      match ahead s with
      | x :: t => if chr_matches fl c x then k (advance s x t) else None
      | [] => None
      end
  | Cls p =>
      match ahead s with
      | x :: t => if cls_matches fl p x then k (advance s x t) else None
      | [] => None
      end
  | Seq r1 r2 => run fl r1 (run fl r2 k) s
  | Alt r1 r2 =>
      match run fl r1 k s with
      | Some e => Some e
      | None => run fl r2 k s
      end
  | Star g r1 => iter g (run fl r1) (S (length (ahead s))) k s
  | Bol => if at_bol fl s then k s else None
  | Eol => if at_eol fl s then k s else None
  | Group r1 => run fl r1 (fun e => k (close_group s e)) s
  end.

(** Leftmost match at or after the current position: the start and end
    states. *)
Fixpoint scan (fl : flags) (r : regex) (sn : list ascii) (ah : list ascii)
  : option (mstate * mstate) :=
  match run fl r Some (MState sn ah []) with
  | Some e => Some (MState sn ah [], e)
  | None =>
      match ah with
      | [] => None
      | c :: t => scan fl r (c :: sn) t
      end
  end.

(** [RegExp.prototype.test] *)
Definition test (fl : flags) (r : regex) (s : text) : bool :=
  match scan fl r [] s with Some _ => true | None => false end.

(** [String.prototype.match] without the [g] flag: the captures, first to
    last. *)
Definition match_groups (fl : flags) (r : regex) (s : text) : option (list text) :=
  match scan fl r [] s with
  | Some (_, e) => Some (rev (groups e))
  | None => None
  end.

(** [String.prototype.replace] without the [g] flag, for a replacement text
    without [$] patterns. *)
Definition replace (fl : flags) (r : regex) (rep : text) (s : text) : text :=
  match scan fl r [] s with
  | Some (b, e) => rev (seen b) ++ rep ++ ahead e
  | None => s
  end.

(** [String.prototype.replace] with the [g] flag: after a match the search
    resumes where it ended; after an empty match it resumes one code unit
    further. *)
Fixpoint replace_from (fl : flags) (r : regex) (rep : text) (fuel : nat)
  (sn : list ascii) (ah : list ascii) : text :=
  match fuel with
  | 0 => ah
  | S f =>
      match scan fl r sn ah with
      | None => ah
      | Some (b, e) =>
          let skipped := firstn (length (seen b) - length sn) ah in
          if length (ahead e) <? length (ahead b)
          then skipped ++ rep ++ replace_from fl r rep f (seen e) (ahead e)
          else match ahead e with
               | [] => skipped ++ rep
               | c :: t => skipped ++ rep ++ c :: replace_from fl r rep f (c :: seen e) t
               end
      end
  end.

Definition replace_all (fl : flags) (r : regex) (rep : text) (s : text) : text :=
  replace_from fl r rep (S (length s)) [] s.

Fixpoint seqs (rs : list regex) : regex :=
  match rs with
  | [] => Eps
  | [r] => r
  | r :: rs' => Seq r (seqs rs')
  end.

(** ** The source sanitizer of [compileComponent] *)

Module Sanitizer.

Definition ws : regex := Cls is_space.
Definition ident_chars : regex := Plus true (Cls is_word).

(** [/^\s*import\s+[\s\S]*?;\s*$/gm] *)
Definition re_import_statement : regex :=
  seqs [Bol; Star true ws; lit (str "import"); Plus true ws;
        Star false (Cls is_any); Chr ";"; Star true ws; Eol].

(** [/^\s*import\s+.*$/gm] *)
Definition re_import_line : regex :=
  seqs [Bol; Star true ws; lit (str "import"); Plus true ws;
        Star true (Cls is_dot); Eol].

(** [/export\s+default\s+/] *)
Definition re_export_default : regex :=
  seqs [lit (str "export"); Plus true ws; lit (str "default"); Plus true ws].

(** [/export\s+default\s+function\s+([a-zA-Z0-9_]+)/] *)
Definition re_export_default_function_name : regex :=
  seqs [lit (str "export"); Plus true ws; lit (str "default"); Plus true ws;
        lit (str "function"); Plus true ws; Group ident_chars].

(** [/export\s+default\s+([a-zA-Z0-9_]+)/] *)
Definition re_export_default_name : regex :=
  seqs [lit (str "export"); Plus true ws; lit (str "default"); Plus true ws;
        Group ident_chars].

(** [/export\s+default\s+function/] *)
Definition re_export_default_function : regex :=
  seqs [lit (str "export"); Plus true ws; lit (str "default"); Plus true ws;
        lit (str "function")].

(** [/export\s+default\s+[a-zA-Z0-9_]+;?/] *)
Definition re_export_default_statement : regex :=
  seqs [lit (str "export"); Plus true ws; lit (str "default"); Plus true ws;
        ident_chars; Opt (Chr ";")].

Definition LF : text := [ascii_of_nat 10].

(** Step 1 of [compileComponent]: the two import-removal passes. *)
Definition removeImports (cleanBody : text) : text :=
  let cleanBody := replace_all flag_m re_import_statement [] cleanBody in
  replace_all flag_m re_import_line [] cleanBody.

(** The first capture of a match result, [m[1]]. *)
Definition capture1 (m : list text) : text := hd [] m.

(** Strategy B: the body wrapped in the [DynamicComponent] arrow function. *)
Definition wrapBody (cleanBody : text) : text :=
  LF ++ str "        const DynamicComponent = (props) => {" ++ LF
     ++ str "          " ++ cleanBody ++ LF
     ++ str "        };" ++ LF
     ++ str "      ".

(** Step 2 of [compileComponent]: the compilation strategy, from the text
    left by step 1 to the pair [(sourceCode, returnStatement)]. *)
Definition chooseStrategy (cleanBody : text) : text * text :=
  let hasExportDefault := test no_flags re_export_default cleanBody in
  if hasExportDefault then
    let funcMatch := match_groups no_flags re_export_default_function_name cleanBody in
    let varMatch := match_groups no_flags re_export_default_name cleanBody in
    match funcMatch with
    | Some fm =>
        (replace no_flags re_export_default_function (str "function") cleanBody,
         str "return " ++ capture1 fm ++ str ";")
    | None =>
        match varMatch with
        | Some vm =>
            (replace no_flags re_export_default_statement [] cleanBody,
             str "return " ++ capture1 vm ++ str ";")
        | None =>
            (replace no_flags re_export_default (str "const DynamicComponent = ") cleanBody,
             str "return DynamicComponent;")
        end
    end
  else (wrapBody cleanBody, str "return DynamicComponent;").

(** Steps 1 and 2 together: what [compileComponent] hands to the transpiler
    and the return statement it appends after transpilation. *)
Definition sanitize (codeBody : text) : text * text :=
  chooseStrategy (removeImports (trim codeBody)).

End Sanitizer.

(** The sanitizer of the earliest [compileComponent]: the export wrapper is
    removed by deleting its header and then the last closing brace of the
    text. *)
Module LegacySanitizer.

Import Sanitizer.

(** [/export\s+default\s+function\s+[\w]+\s*\([^\)]*\)\s*\{/] *)
Definition re_export_header : regex :=
  seqs [lit (str "export"); Plus true ws; lit (str "default"); Plus true ws;
        lit (str "function"); Plus true ws; Plus true (Cls is_word); Star true ws;
        Chr "("; Star true (Cls is_not_rparen); Chr ")"; Star true ws; Chr "{"].

(** [/\}\s*$/] *)
Definition re_last_brace : regex := seqs [Chr "}"; Star true ws; Eol].

(** [/^import\s+.*$/gm] *)
Definition re_import_line : regex :=
  seqs [Bol; lit (str "import"); Plus true ws; Star true (Cls is_dot); Eol].

Definition stripWrapper (cleanBody : text) : text :=
  if includes cleanBody (str "export default function") then
    let cleanBody := replace no_flags re_export_header [] cleanBody in
    replace no_flags re_last_brace [] cleanBody
  else cleanBody.

Definition wrapBody (cleanBody : text) : text :=
  LF ++ str "      const DynamicComponent = (props) => {" ++ LF
     ++ str "        " ++ cleanBody ++ LF
     ++ str "      };" ++ LF
     ++ str "    ".

Definition sanitize (codeBody : text) : text :=
  let cleanBody := stripWrapper (trim codeBody) in
  let cleanBody := replace_all flag_m re_import_line [] cleanBody in
  wrapBody cleanBody.

End LegacySanitizer.

(** ** The matches of a regular expression

    The declarative reading of a regular expression, without the priority
    order of the backtracking matcher: which end states can be reached from
    a start state. *)

Definition progress (s e : mstate) : Prop := length (ahead e) < length (ahead s).

Fixpoint matches (fl : flags) (r : regex) (s e : mstate) : Prop :=
  match r with
  | Eps => e = s
  | Chr c => exists x t, ahead s = x :: t /\ chr_matches fl c x = true /\ e = advance s x t
  | Cls p => exists x t, ahead s = x :: t /\ cls_matches fl p x = true /\ e = advance s x t
  | Seq r1 r2 => exists m, matches fl r1 s m /\ matches fl r2 m e
  | Alt r1 r2 => matches fl r1 s e \/ matches fl r2 s e
  | Star _ r1 => rtc (fun a b => matches fl r1 a b /\ progress a b) s e
  | Bol => at_bol fl s = true /\ e = s
  | Eol => at_eol fl s = true /\ e = s
  | Group r1 => exists m, matches fl r1 s m /\ e = close_group s m
  end.

(** [passes s w e]: going from [s] to [e] passes exactly the code units [w]. *)
Definition passes (s : mstate) (w : text) (e : mstate) : Prop :=
  seen e = rev w ++ seen s /\ ahead s = w ++ ahead e.

(** ** The transpiler adapter and the scope binder of [compileComponent] *)

(** A thrown JavaScript error object. *)
Record JsError := mkJsError { err_name : text; err_message : text }.

(** [new Error(message)] *)
Definition Error (message : text) : JsError := mkJsError (str "Error") message.

Inductive logged : Type :=
| LText (t : text)
| LError (e : JsError).

(** The observable actions of the modelled code, in program order. *)
Inductive event : Type :=
| ConsoleError (label : text) (payload : logged)
| BabelTransform (sourceCode : text)
| CallFunction (body : text)
| OnError (message : text).

(** Computations that log events and either return or throw. *)
Definition M (A : Type) : Type := list event * (JsError + A).

Definition ret {A} (a : A) : M A := ([], inr a).
Definition throw {A} (e : JsError) : M A := ([], inl e).
Definition emit (ev : event) : M unit := ([ev], inr tt).

Definition bind {A B} (m : M A) (f : A -> M B) : M B :=
  match m with
  | (t, inl e) => (t, inl e)
  | (t, inr a) => let '(t', r) := f a in (t ++ t', r)
  end.

(** [try { m } catch (err) { handler err }] *)
Definition try_catch {A} (m : M A) (handler : JsError -> M A) : M A :=
  match m with
  | (t, inl e) => let '(t', r) := handler e in (t ++ t', r)
  | (t, inr a) => (t, inr a)
  end.

(** A call of an external function that returns or throws. *)
Definition lift {A} (r : JsError + A) : M A := ([], r).

Declare Scope js_scope.
Delimit Scope js_scope with js.
Notation "x <- m ;; k" := (bind m (fun x => k))
  (at level 100, m at next level, right associativity) : js_scope.
Notation "m ;; k" := (bind m (fun _ => k))
  (at level 100, right associativity) : js_scope.

Definition trace {A} (m : M A) : list event := fst m.
Definition outcome {A} (m : M A) : JsError + A := snd m.

(** [a || b] on strings: the empty string is falsy. *)
Definition or_text (a b : text) : text :=
  match a with [] => b | _ => a end.

Module Compiler.

Import Sanitizer.
Local Open Scope js_scope.

(** The options object passed to [Babel.transform]. *)
Record BabelOptions := { presets : list text; filename : text; compact : bool }.

Definition babelOptions : BabelOptions :=
  {| presets := [str "react"; str "env"; str "typescript"];
     filename := str "dynamic.tsx";
     compact := false |}.

(** The names of the formal parameters of the synthesized function. *)
Definition capabilityNames : list text :=
  [str "React"; str "THREE"; str "three"; str "useFrame"; str "useThree";
   str "useLoader"; str "drei"; str "drive"; str "leva"; str "ReactThreeFiber";
   str "Matter"].

(** The body of the synthesized function: the destructuring preamble, the
    transpiled code and the return statement. *)
Definition functionBody (transformed returnStatement : text) : text :=
  str "
      // Inject React Hooks into Top-Level Scope
      const { useState, useEffect, useRef, useMemo, useCallback, useLayoutEffect, useReducer } = React;
      
      // Inject Leva Hooks into Top-Level Scope
      const { useControls, button, folder, monitor } = leva;

      // Inject Common Drei Components into Top-Level Scope
      const { 
        Html, Text, Text3D, Float, Center, 
        OrbitControls, Environment, ContactShadows, 
        PerspectiveCamera, OrthographicCamera, Grid 
      } = drei;
      
      " ++ transformed ++ str "
      
      " ++ returnStatement ++ str "
      ".

Section CompileComponent.

(** The values the capabilities are bound to, and the compiled component. *)
Variables (Library UseFrame Component : Type).

(** The modules imported by the compiler ([safeMatter] is
    [Matter.default || Matter]). *)
Record Imports := {
  React : Library;
  THREE : Library;
  Fiber : Library;
  Fiber_useFrame : UseFrame;
  Fiber_useThree : Library;
  Fiber_useLoader : Library;
  Drei : Library;
  Leva : Library;
  safeMatter : Library
}.

Inductive capability : Type :=
| CapLibrary (l : Library)
| CapUseFrame (f : UseFrame).

(** [window]: the transpiler is present or not, and the [Function]
    constructor together with the call of the constructed function. *)
Record Window := {
  Babel : option (text -> BabelOptions -> JsError + text);
  Function_call : list text -> text -> list capability -> JsError + Component
}.

Record Overrides := { useFrame : option UseFrame }.

Definition noOverrides : Overrides := {| useFrame := None |}.

Variable imports : Imports.

Definition capabilityValues (overrides : Overrides) : list capability :=
  [CapLibrary (React imports); CapLibrary (THREE imports); CapLibrary (THREE imports);
   CapUseFrame (default (Fiber_useFrame imports) (useFrame overrides));
   CapLibrary (Fiber_useThree imports); CapLibrary (Fiber_useLoader imports);
   CapLibrary (Drei imports); CapLibrary (Drei imports); CapLibrary (Leva imports);
   CapLibrary (Fiber imports); CapLibrary (safeMatter imports)].

Definition compileComponent (window : Window) (codeBody : text) (overrides : Overrides)
  : M Component :=
  try_catch
    (let '(sourceCode, returnStatement) := sanitize codeBody in
     match Babel window with
     | None =>
         throw (Error (str "Babel not loaded. Please ensure Babel is included in index.html"))
     | Some transform =>
         transformed <-
           try_catch
             (emit (BabelTransform sourceCode) ;;
              lift (transform sourceCode babelOptions))
             (fun babelErr =>
                emit (ConsoleError (str "Babel Transform Failed on:") (LText sourceCode)) ;;
                throw babelErr) ;;
         let body := functionBody transformed returnStatement in
         emit (CallFunction body) ;;
         lift (Function_call window capabilityNames body (capabilityValues overrides))
     end)
    (fun err =>
       emit (ConsoleError (str "Compilation Error:") (LError err)) ;;
       throw err).

End CompileComponent.

Arguments React {Library UseFrame} _.
Arguments THREE {Library UseFrame} _.
Arguments Fiber {Library UseFrame} _.
Arguments Fiber_useFrame {Library UseFrame} _.
Arguments Fiber_useThree {Library UseFrame} _.
Arguments Fiber_useLoader {Library UseFrame} _.
Arguments Drei {Library UseFrame} _.
Arguments Leva {Library UseFrame} _.
Arguments safeMatter {Library UseFrame} _.
Arguments Babel {Library UseFrame Component} _.
Arguments Function_call {Library UseFrame Component} _ _ _ _.
Arguments Build_Window {Library UseFrame Component} _ _.
Arguments useFrame {UseFrame} _.
Arguments Build_Overrides {UseFrame} _.
Arguments noOverrides {UseFrame}.
Arguments CapLibrary {Library UseFrame} _.
Arguments CapUseFrame {Library UseFrame} _.
Arguments capabilityValues {Library UseFrame} _ _.
Arguments compileComponent {Library UseFrame Component} _ _ _ _.

End Compiler.

(** [l.push(x); l.sort((a, b) => key(a) - key(b))] on a list that is sorted:
    the sort is stable, so [x] goes behind the entries whose key is not
    greater and before the others. *)
Fixpoint insert_by {A} (key : A -> nat) (x : A) (l : list A) : list A :=
  match l with
  | [] => [x]
  | y :: l' => if key y <=? key x then y :: insert_by key x l' else x :: l
  end.

(** ** The scene host: frame gate, compile step and error boundary of
    [DynamicScene] *)

Module Host.

Import Compiler.
Local Open Scope js_scope.

Section FrameGate.

(** The per-frame state and elapsed time handed to frame callbacks, and the
    callbacks of compiled code. *)
Variables (RootState Delta Callback : Type).

(** [simSettings.current] *)
Record SimSettings := { paused : bool }.

(** An invocation of a callback of compiled code. *)
Inductive call : Type :=
| Call (callback : Callback) (state : RootState) (delta : Delta).

(** What a function subscribed to the frame loop does when the loop invokes
    it: it reads the shared [simSettings.current] at that moment. *)
Definition Subscriber : Type := SimSettings -> RootState -> Delta -> list call.

Record Subscription := { sub_callback : Subscriber; sub_priority : option nat }.

(** The priority the rendering library sorts by: [renderPriority = 0] when
    none is given. *)
Definition renderPriority (priority : option nat) : nat := default 0 priority.

(** [useFrame(callback, priority)] of the rendering library, which is not
    part of the sources: it subscribes the callback with
    [subscribers.push(...)] followed by a sort by priority, and its loop
    invokes the subscribers in that order. *)
Definition Fiber_useFrame (callback : Subscriber) (priority : option nat)
  (subscribers : list Subscription) : list Subscription :=
  insert_by (fun sub => renderPriority (sub_priority sub))
    {| sub_callback := callback; sub_priority := priority |} subscribers.

(** The gatekeeper handed to compiled code in place of [useFrame]. *)
Definition customUseFrame (callback : Callback) (priority : option nat)
  : list Subscription -> list Subscription :=
  Fiber_useFrame
    (fun simSettings_current state delta =>
       if paused simSettings_current then []
       else [Call callback state delta])
    priority.

(** One frame of the loop: every subscriber is invoked once. *)
Definition frame (simSettings_current : SimSettings) (subscribers : list Subscription)
  (state : RootState) (delta : Delta) : list call :=
  flat_map (fun sub => sub_callback sub simSettings_current state delta) subscribers.

(** Compiled code registering the callbacks [callbacks], first to last. *)
Definition registerAll (callbacks : list (Callback * option nat))
  (subscribers : list Subscription) : list Subscription :=
  fold_left (fun subs cb => customUseFrame (fst cb) (snd cb) subs) callbacks subscribers.

(** A frame as the loop sees it: the value of [simSettings.current] when it
    runs (the flag may be toggled between frames), the state and the elapsed
    time. *)
Record tick := { tick_settings : SimSettings; tick_state : RootState; tick_delta : Delta }.

(** Several frames in a row. *)
Definition frames (subscribers : list Subscription) (ticks : list tick) : list call :=
  flat_map (fun t => frame (tick_settings t) subscribers (tick_state t) (tick_delta t)) ticks.

End FrameGate.

Arguments paused : clear implicits.
Arguments Call {RootState Delta Callback} _ _ _.
Arguments sub_callback {RootState Delta Callback} _.
Arguments sub_priority {RootState Delta Callback} _.
Arguments Fiber_useFrame {RootState Delta Callback} _ _ _.
Arguments renderPriority : clear implicits.
Arguments customUseFrame {RootState Delta Callback} _ _ _.
Arguments frame {RootState Delta Callback} _ _ _ _.
Arguments frames {RootState Delta Callback} _ _.
Arguments Build_tick {RootState Delta} _ _ _.
Arguments tick_settings {RootState Delta} _.
Arguments tick_state {RootState Delta} _.
Arguments tick_delta {RootState Delta} _.
Arguments registerAll {RootState Delta Callback} _ _.

Section Scene.

Variables (Library UseFrame Rendered : Type).

(** A compiled component: what its [n]-th render returns or throws (render
    0 is the construction, the later ones are the updates driven by its
    frame callbacks). *)
Definition Component : Type := nat -> JsError + Rendered.

Variable imports : Imports Library UseFrame.
Variable customUseFrame_hook : UseFrame.

(** The [useMemo] compile step of [DynamicScene]. *)
Definition compileScene (window : Window Library UseFrame Component) (code : text)
  : M (option Component) :=
  try_catch
    (c <- compileComponent imports window code {| useFrame := Some customUseFrame_hook |} ;;
     ret (Some c))
    (fun err =>
       emit (OnError (or_text (err_message err) (str "Failed to compile code"))) ;;
       ret None).

Record ErrorBoundaryState := { hasError : bool; error : text }.

Definition initialBoundaryState : ErrorBoundaryState :=
  {| hasError := false; error := [] |}.

Definition getDerivedStateFromError (err : JsError) : ErrorBoundaryState :=
  {| hasError := true; error := err_message err |}.

Definition componentDidCatch (err : JsError) : M unit :=
  emit (ConsoleError (str "Runtime Error in Dynamic Component:") (LError err)).

(** What the boundary shows. *)
Inductive Element : Type :=
| ErrorFallback (error : text)
| Children (r : Rendered).

(** One render of [<ErrorBoundary><SceneContent Component={Component} /></ErrorBoundary>].
    [ErrorBoundary.render] shows the fallback once [hasError] is set;
    otherwise the child is rendered, and when it throws the boundary takes
    the state derived from the error, [componentDidCatch] runs and the
    boundary renders again. *)
Definition renderBoundary (st : ErrorBoundaryState) (Component_ : Component) (n : nat)
  : M (ErrorBoundaryState * Element) :=
  if hasError st then ret (st, ErrorFallback (error st))
  else
    match Component_ n with
    | inr r => ret (st, Children r)
    | inl err =>
        let st' := getDerivedStateFromError err in
        componentDidCatch err ;;
        ret (st', ErrorFallback (error st'))
    end.

(** A mounted [DynamicScene]: the compiled component, the boundary state and
    the number of renders of the component so far. *)
Record Scene := {
  compiled : option Component;
  boundary : ErrorBoundaryState;
  renders : nat;
  shown : option Element
}.

(** Mounting [<DynamicScene code={code} onError={onError} />]: compile, then
    render nothing when there is no component, or the guarded component. *)
Definition mountScene (window : Window Library UseFrame Component) (code : text) : M Scene :=
  c <- compileScene window code ;;
  match c with
  | None =>
      ret {| compiled := None; boundary := initialBoundaryState; renders := 0; shown := None |}
  | Some Component_ =>
      r <- renderBoundary initialBoundaryState Component_ 0 ;;
      ret {| compiled := Some Component_; boundary := fst r; renders := 1;
             shown := Some (snd r) |}
  end.

(** A re-render of the mounted component caused by a frame update. *)
Definition updateScene (sc : Scene) : M Scene :=
  match compiled sc with
  | None => ret sc
  | Some Component_ =>
      r <- renderBoundary (boundary sc) Component_ (renders sc) ;;
      ret {| compiled := Some Component_; boundary := fst r;
             renders := S (renders sc); shown := Some (snd r) |}
  end.

End Scene.

Arguments compileScene {Library UseFrame Rendered} _ _ _ _.
Arguments hasError : clear implicits.
Arguments error : clear implicits.
Arguments ErrorFallback {Rendered} _.
Arguments Children {Rendered} _.
Arguments renderBoundary {Rendered} _ _ _.
Arguments compiled {Rendered} _.
Arguments boundary {Rendered} _.
Arguments renders {Rendered} _.
Arguments shown {Rendered} _.
Arguments mountScene {Library UseFrame Rendered} _ _ _ _.
Arguments updateScene {Rendered} _.

(** The invocations of the [onError] prop in a trace. *)
Definition onErrorCalls (t : list event) : list text :=
  omap (fun ev => match ev with OnError m => Some m | _ => None end) t.

End Host.

(** ** Simulation records and lookup tables *)

Record Source := { source_title : text; source_uri : text }.

(** [SimulationResponse]; [sources] is optional. *)
Record SimulationResponse := {
  componentCode : text;
  explanation : text;
  title : text;
  sources : option (list Source)
}.

(** A [Record<string, SimulationResponse>] written as an object literal: the
    own keys in insertion order with their values. *)
Abbreviation table := (list (text * SimulationResponse)).

(** The own property of [t] under [key], as [Object.keys] and
    [Object.hasOwn] see the table. *)
Fixpoint lookup_key (t : table) (key : text) : option SimulationResponse :=
  match t with
  | [] => None
  | (k, v) :: t' => if decide (k = key) then Some v else lookup_key t' key
  end.

(** [t[key] = v]: an existing key keeps its place. *)
Fixpoint assign_key (t : table) (key : text) (v : SimulationResponse) : table :=
  match t with
  | [] => [(key, v)]
  | (k, v0) :: t' => if decide (k = key) then (k, v) :: t' else (k, v0) :: assign_key t' key v
  end.

(** The names of the members an object literal inherits from
    [Object.prototype]. *)
Definition objectPrototypeKeys : list text :=
  [str "constructor"; str "__defineGetter__"; str "__defineSetter__";
   str "hasOwnProperty"; str "__lookupGetter__"; str "__lookupSetter__";
   str "isPrototypeOf"; str "propertyIsEnumerable"; str "toString"; str "valueOf";
   str "__proto__"; str "toLocaleString"].

(** What the read [t[key]] gives: the own value; or, under the name of an
    inherited member, that member (a function, or the prototype itself for
    [__proto__]), which is truthy and has none of the fields of a
    simulation; or [undefined]. *)
Inductive property : Type :=
| Own (v : SimulationResponse)
| Inherited (name : text)
| Undefined.

(** [t[key]] *)
Definition read_key (t : table) (key : text) : property :=
  match lookup_key t key with
  | Some v => Own v
  | None => if decide (key ∈ objectPrototypeKeys) then Inherited key else Undefined
  end.

(** An optional string used as a condition: absent and empty are falsy. *)
Definition truthy_text (k : option text) : option text :=
  match k with
  | Some [] => None
  | other => other
  end.

(** [Object.keys(t).find(key => p(key, t[key]))] used as a condition and then
    as an index: the first entry that satisfies [p], unless its key is the
    empty string. The keys of a table are distinct, so [t[key]] is the value
    of that entry. *)
Definition find_entry (p : text -> SimulationResponse -> bool) (t : table)
  : option (text * SimulationResponse) :=
  match find (fun e => p (fst e) (snd e)) t with
  | Some ([], _) => None
  | other => other
  end.

(** ** The generation service: [validateSimulationCode] and
    [generateSimulation] *)

Module Gemini.

Local Open Scope js_scope.

Definition dq : text := [ascii_of_nat 34].

(** [/<(mesh|points|line|instancedMesh|drei\.)/i] *)
Definition re_scene_primitive : regex :=
  seqs [Chr "<";
        Group (Alt (lit (str "mesh"))
              (Alt (lit (str "points"))
              (Alt (lit (str "line"))
              (Alt (lit (str "instancedMesh"))
                   (lit (str "drei."))))))].

(** [/return\s*\(/i] *)
Definition re_return_paren : regex :=
  seqs [lit (str "return"); Star true (Cls is_space); Chr "("].

(** [/<group/i] *)
Definition re_group_tag : regex := lit (str "<group").

Definition validateSimulationCode (code : text) : bool :=
  let hasMesh := test flag_i re_scene_primitive code in
  let hasReturn := test flag_i re_return_paren code in
  let hasGroup := test flag_i re_group_tag code in
  hasMesh && hasReturn && hasGroup.

(** The [config] of a [generateContent] request: absent for the research
    request; for the code request it is the fixed object with the system
    instruction, the JSON response type and schema and temperature 0.1. *)
Inductive requestConfig : Type :=
| NoConfig
| CodeConfig.

Record request := { model : text; contents : text; config : requestConfig }.

Definition researchContents (userPrompt : text) : text :=
  str "Topic: " ++ dq ++ userPrompt ++ dq
  ++ str ". Provide 3 key physics parameters (ranges) and the core mathematical formula needed for a javascript simulation. Keep it brief.".

Definition augmentedPrompt (userPrompt researchText : text) : text :=
  str "
    USER REQUEST: " ++ dq ++ userPrompt ++ dq ++ str "
    PHYSICS DATA: " ++ researchText ++ str "
    
    TASK: Write the React Three Fiber component body.
    REQUIREMENT: Spawn visible objects immediately. Do not wait for interaction.
    ".

Definition researchRequest (userPrompt : text) : request :=
  {| model := str "gemini-2.5-flash"; contents := researchContents userPrompt;
     config := NoConfig |}.

Definition codeRequest (userPrompt : text) (research : option text) : request :=
  {| model := str "gemini-2.5-flash";
     contents := augmentedPrompt userPrompt (or_text (default [] research) []);
     config := CodeConfig |}.

(** The auto-fix applied to the parsed response before validation. *)
Definition autoFix (json : SimulationResponse) : SimulationResponse :=
  if negb (includes (componentCode json) (str "return ("))
  then {| componentCode := str "return (<group>" ++ componentCode json ++ str "</group>);";
          explanation := explanation json;
          title := title json;
          sources := sources json |}
  else json.

Definition withSources (sim : SimulationResponse) (srcs : list Source) : SimulationResponse :=
  {| componentCode := componentCode sim;
     explanation := explanation sim;
     title := title sim;
     sources := Some srcs |}.

(** What the promise of [generateSimulation] is fulfilled with: a
    response, or the member inherited from [Object.prototype] that the read
    of the cache found. *)
Inductive fulfilled : Type :=
| Response (r : SimulationResponse)
| Member (name : text).

Section GenerateSimulation.

Variables (PERFECT_SIMULATIONS INVISIBLE_SIMULATIONS : table).

(** [ai.models.generateContent]: the [text] of the response (possibly
    absent), or a rejection. *)
Variable generateContent : request -> JsError + option text.

(** [JSON.parse(text) as SimulationResponse] *)
Variable JSON_parse : text -> JsError + SimulationResponse.

Definition visibleMatch (lowerPrompt : text) : option (text * SimulationResponse) :=
  find_entry (fun key _ => includes lowerPrompt key) PERFECT_SIMULATIONS.

Definition shadowKey (lowerPrompt : text) : option (text * SimulationResponse) :=
  find_entry
    (fun key sim =>
       let keyMatch := includes lowerPrompt key in
       let titleMatch :=
         includes (toLowerCase (title sim)) lowerPrompt
         || includes lowerPrompt (toLowerCase (title sim)) in
       keyMatch || titleMatch)
    INVISIBLE_SIMULATIONS.

(** Step 3 of [generateSimulation]: research, code request, parse, auto-fix
    and validation; the result comes with the cache to continue with. *)
Definition generateWithModel (GENERATION_CACHE : table) (userPrompt lowerPrompt : text)
  : M (fulfilled * table) :=
  try_catch
    (researchResponse <-
       lift (generateContent (researchRequest userPrompt)) ;;
     codeResponse <-
       lift (generateContent (codeRequest userPrompt researchResponse)) ;;
     match truthy_text codeResponse with
     | None => throw (Error (str "No response from Gemini"))
     | Some text_ =>
         parsed <- lift (JSON_parse text_) ;;
         let json := autoFix parsed in
         if negb (validateSimulationCode (componentCode json))
         then throw (Error (str "Generated code missing 3D elements."))
         else
           let finalResult := withSources json [] in
           ret (Response finalResult, assign_key GENERATION_CACHE lowerPrompt finalResult)
     end)
    (fun error_ =>
       emit (ConsoleError (str "Gemini API Error:") (LError error_)) ;;
       throw error_).

Definition generateSimulation (GENERATION_CACHE : table) (userPrompt : text)
  : M (fulfilled * table) :=
  let lowerPrompt := trim (toLowerCase userPrompt) in
  match visibleMatch lowerPrompt with
  | Some (_, sim) =>
      ret (Response
             (withSources sim
                [{| source_title := str "PhysiGen Library"; source_uri := str "#" |}]),
           GENERATION_CACHE)
  | None =>
      match shadowKey lowerPrompt with
      | Some (_, sim) =>
          ret (Response
                 (withSources sim
                    [{| source_title := str "PhysiGen Engine (Optimized)";
                        source_uri := str "#" |}]),
               GENERATION_CACHE)
      | None =>
          match read_key GENERATION_CACHE lowerPrompt with
          | Own cached => ret (Response cached, GENERATION_CACHE)
          | Inherited member => ret (Member member, GENERATION_CACHE)
          | Undefined => generateWithModel GENERATION_CACHE userPrompt lowerPrompt
          end
      end
  end.

End GenerateSimulation.

End Gemini.

(** ** The session state of [App] and its handlers *)

Module App.

Inductive SimulationStatus : Type :=
| IDLE | GENERATING | MODIFYING | EXPLAINING | COMPILING | READY | ERROR.

(** The [data] state: the current simulation. *)
Record SimData := {
  code : text;
  data_explanation : text;
  data_title : text;
  data_sources : option (list Source)
}.

Record AppState := {
  status : SimulationStatus;
  currentPrompt : text;
  refreshKey : nat;
  data : SimData;
  error : option text;
  customSims : table
}.

Definition setStatus (v : SimulationStatus) (st : AppState) : AppState :=
  {| status := v; currentPrompt := currentPrompt st; refreshKey := refreshKey st;
     data := data st; error := error st; customSims := customSims st |}.

Definition setCurrentPrompt (v : text) (st : AppState) : AppState :=
  {| status := status st; currentPrompt := v; refreshKey := refreshKey st;
     data := data st; error := error st; customSims := customSims st |}.

Definition setRefreshKey (f : nat -> nat) (st : AppState) : AppState :=
  {| status := status st; currentPrompt := currentPrompt st; refreshKey := f (refreshKey st);
     data := data st; error := error st; customSims := customSims st |}.

Definition setData (v : SimData) (st : AppState) : AppState :=
  {| status := status st; currentPrompt := currentPrompt st; refreshKey := refreshKey st;
     data := v; error := error st; customSims := customSims st |}.

Definition setError (v : option text) (st : AppState) : AppState :=
  {| status := status st; currentPrompt := currentPrompt st; refreshKey := refreshKey st;
     data := data st; error := v; customSims := customSims st |}.

(** An asynchronous handler suspended at its [await]. *)
Inductive pending : Type :=
| AwaitGeneration (prompt : text)
| AwaitTimer (sim : SimulationResponse) (delay : nat).

Section Handlers.

Variable PERFECT_SIMULATIONS : table.

(** [performGeneration] up to [await generateSimulation(prompt)]. *)
Definition performGeneration_start (prompt : text) (st : AppState) : AppState * pending :=
  (setStatus GENERATING st, AwaitGeneration prompt).

(** [performGeneration] after the [await]: the promise was fulfilled with a
    result or rejected with an error. *)
Definition performGeneration_resume (settled : JsError + SimulationResponse) (st : AppState)
  : list event * AppState :=
  match settled with
  | inr result =>
      let st := setData {| code := componentCode result;
                           data_explanation := explanation result;
                           data_title := title result;
                           data_sources := sources result |} st in
      let st := setRefreshKey (fun prev => prev + 1) st in
      ([], setStatus READY st)
  | inl err =>
      let st := setError (Some (or_text (err_message err) (str "Failed to generate simulation."))) st in
      ([ConsoleError [] (LError err)], setStatus ERROR st)
  end.

(** [customSims[key] || PERFECT_SIMULATIONS[key]] *)
Definition findSimulation (st : AppState) (key : text) : property :=
  match read_key (customSims st) key with
  | Undefined => read_key PERFECT_SIMULATIONS key
  | found => found
  end.

(** How far [handlePresetClick] gets before it gives up control: to its
    early return, to its [await] of the loading delay, or, when [sim] is a
    member inherited from [Object.prototype], past the test [if (!sim)].
    The handler goes on with that member ([sim.title] and the other fields
    read from it are [undefined]); the string-typed state cannot hold what
    it installs, so [PastGuard] carries the state at the test and the
    model stops there. *)
Inductive presetClick : Type :=
| Returned (st : AppState)
| Suspended (st : AppState) (p : pending)
| PastGuard (st : AppState) (member : text).

(** [handlePresetClick] up to its [await] of the loading delay, or to its
    early return. *)
Definition handlePresetClick_start (key : text) (st : AppState) : presetClick :=
  let st := setStatus GENERATING st in
  let st := setError None st in
  match findSimulation st key with
  | Undefined => Returned (setStatus ERROR st)
  | Inherited member => PastGuard st member
  | Own sim =>
      let st := setCurrentPrompt (title sim) st in
      let delay := if read_key (customSims st) key is Undefined then 1500 else 200 in
      Suspended st (AwaitTimer sim delay)
  end.

(** [handlePresetClick] after the delay. *)
Definition handlePresetClick_resume (sim : SimulationResponse) (st : AppState) : AppState :=
  let st := setData {| code := componentCode sim;
                       data_explanation := explanation sim;
                       data_title := title sim;
                       data_sources := Some (default [] (sources sim)) |} st in
  let st := setRefreshKey (fun prev => prev + 1) st in
  setStatus READY st.

(** [Object.keys(t).find(key => t[key].title === title)] *)
Definition findByTitle (t : table) (title_ : text) : option (text * SimulationResponse) :=
  find_entry (fun _ sim => if decide (title sim = title_) then true else false) t.

Definition handleReset (st : AppState) : AppState :=
  let customKey := findByTitle (customSims st) (data_title (data st)) in
  let libraryKey := findByTitle PERFECT_SIMULATIONS (data_title (data st)) in
  let sim :=
    match customKey with
    | Some (_, sim) => Some sim
    | None =>
        match libraryKey with
        | Some (_, sim) => Some sim
        | None => None
        end
    end in
  let st :=
    match sim with
    | Some sim =>
        setData {| code := componentCode sim;
                   data_explanation := explanation sim;
                   data_title := title sim;
                   data_sources := Some [] |} st
    | None => st
    end in
  setRefreshKey (fun prev => prev + 1) st.

Definition handleRuntimeError (msg : text) (st : AppState) : AppState :=
  setError (Some (str "Runtime Error: " ++ msg)) st.

End Handlers.

End App.

(** ** The modification and explanation engines of the generation service *)

Module GeminiEngines.

Import Gemini.
Local Open Scope js_scope.

(** The [config] of a request: the fixed object of [modifySimulation] (system
    instruction, JSON response type and schema, temperature 0.2), or none. *)
Inductive engineConfig : Type :=
| ModificationConfig
| WithoutConfig.

Record engineRequest := {
  engine_model : text;
  engine_contents : text;
  engine_config : engineConfig
}.

Definition modificationPrompt (currentCode userRequest : text) : text :=
  str "
    EXISTING CODE:
    "
  ++ currentCode
  ++ str "

    USER CHANGE REQUEST: "
  ++ dq
  ++ userRequest
  ++ dq
  ++ str "

    TASK:
    1. Parse the existing code.
    2. Modify parameters/logic/colors based on the request.
    3. Ensure NO syntax errors are introduced.
    4. Keep the initialization (useState) robust - do not make it empty.
    
    RETURN JSON schema.
    ".

Definition explanationPrompt (currentCode userQuestion : text) : text :=
  str "
    CODE CONTEXT:
    "
  ++ currentCode
  ++ str "

    QUESTION: "
  ++ dq
  ++ userQuestion
  ++ dq
  ++ str "

    Answer as Richard Feynman (Simple, Analogy-heavy, Enthusiastic). 
    Reference specific math from the code context if possible.
    ".

Section Engines.

(** [ai.models.generateContent]: the [text] of the response (possibly
    absent), or a rejection. *)
Variable generateContent : engineRequest -> JsError + option text.

(** [JSON.parse(text) as SimulationResponse] *)
Variable JSON_parse : text -> JsError + SimulationResponse.

Definition modifySimulation (currentCode userRequest : text) : M SimulationResponse :=
  try_catch
    (let prompt := modificationPrompt currentCode userRequest in
     result <-
       lift (generateContent {| engine_model := str "gemini-2.5-flash";
                                engine_contents := prompt;
                                engine_config := ModificationConfig |}) ;;
     match truthy_text result with
     | None => throw (Error (str "No modification generated"))
     | Some text_ => lift (JSON_parse text_)
     end)
    (fun error_ =>
       emit (ConsoleError (str "Modification Error:") (LError error_)) ;;
       throw error_).

Definition explainPhysics (currentCode userQuestion : text) : M text :=
  try_catch
    (let prompt := explanationPrompt currentCode userQuestion in
     result <-
       lift (generateContent {| engine_model := str "gemini-2.5-flash";
                                engine_contents := prompt;
                                engine_config := WithoutConfig |}) ;;
     ret (or_text (default [] result) (str "I couldn't analyze the physics at this moment.")))
    (fun _ => ret (str "Sorry, I had trouble analyzing the physics for you.")).

End Engines.

End GeminiEngines.

(** ** The rest of [App]: router, modification, explanation, file import, and
    the controls that call the handlers *)

Module Interface.

Import App.

(** [String.prototype.endsWith] *)
Definition endsWith (s p : text) : bool := startsWith (rev s) (rev p).

(** A string used as a condition. *)
Definition nonempty (s : text) : bool := if s is [] then false else true.

Definition is_ready_or_idle (v : SimulationStatus) : bool :=
  match v with READY | IDLE => true | _ => false end.

(** An entry of the question history. *)
Record QAEntry := {
  qa_question : text;
  qa_answer : text;
  qa_timestamp : N;
  simulationTitle : text
}.

(** The session state of [App] with the question history. *)
Record UIState := { core : AppState; qaHistory : list QAEntry }.

(** An asynchronous handler suspended at its [await], with the values its
    closure holds. *)
Inductive suspended : Type :=
| Core (p : pending)
| AwaitModification (currentCode prompt : text) (sourcesAtCall : option (list Source))
| AwaitExplanation (currentCode question : text) (originalStatus : SimulationStatus)
    (titleAtCall : text)
| AwaitFileRead (fileName : text).

(** [/\.(tsx|ts)$/i] *)
Definition re_extension : regex :=
  seqs [Chr "."; Group (Alt (lit (str "tsx")) (lit (str "ts"))); Eol].

(** [file.name.replace(/\.(tsx|ts)$/i, "")] *)
Definition importedTitle (fileName : text) : text := replace flag_i re_extension [] fileName.

Definition LF : text := [ascii_of_nat 10].

(** The simulation built by the [onload] handler of [handleFileImport]. *)
Definition importedSimulation (fileName contents : text) : SimulationResponse :=
  let title_ := importedTitle fileName in
  {| componentCode := contents;
     explanation := str "# " ++ title_ ++ LF ++ LF ++ str "*Imported from local file*" ++ LF ++ LF
                    ++ str "This simulation was loaded directly from **" ++ fileName ++ str "**.";
     title := title_;
     sources := Some [] |}.

(** [`custom-${Date.now()}`] *)
Definition importKey (now : N) : text := str "custom-" ++ str (pretty now).

Section Handlers.

Variable PERFECT_SIMULATIONS : table.

(** [performModification] up to [await modifySimulation(data.code, prompt)]. *)
Definition performModification_start (prompt : text) (st : AppState) : AppState * suspended :=
  (setStatus MODIFYING st,
   AwaitModification (code (data st)) prompt (data_sources (data st))).

(** [performModification] after the [await]. *)
Definition performModification_resume (sourcesAtCall : option (list Source))
  (settled : JsError + SimulationResponse) (st : AppState) : list event * AppState :=
  match settled with
  | inr result =>
      let st := setData {| code := componentCode result;
                           data_explanation := explanation result;
                           data_title := title result;
                           data_sources := sourcesAtCall |} st in
      let st := setRefreshKey (fun prev => prev + 1) st in
      ([], setStatus READY st)
  | inl err =>
      let st := setError (Some (str "Failed to modify simulation. Try a simpler request.")) st in
      ([ConsoleError [] (LError err)], setStatus READY st)
  end.

(** [performExplanation] up to [await explainPhysics(data.code, question)]. *)
Definition performExplanation_start (question : text) (st : AppState) : AppState * suspended :=
  (setStatus EXPLAINING st,
   AwaitExplanation (code (data st)) question (status st) (data_title (data st))).

(** [performExplanation] after the [await]; [now] is [Date.now()]. *)
Definition performExplanation_resume (question : text) (originalStatus : SimulationStatus)
  (titleAtCall : text) (settled : JsError + text) (now : N) (u : UIState) : UIState :=
  match settled with
  | inr answer =>
      let entry := {| qa_question := question; qa_answer := answer; qa_timestamp := now;
                      simulationTitle := titleAtCall |} in
      let st := core u in
      let prev := data st in
      let st := setData {| code := code prev;
                           data_explanation :=
                             str "# Question: " ++ question ++ LF ++ LF ++ answer ++ LF ++ LF
                             ++ str "---" ++ LF ++ LF ++ data_explanation prev;
                           data_title := data_title prev;
                           data_sources := data_sources prev |} st in
      let st := setStatus (match originalStatus with IDLE => READY | other => other end) st in
      {| core := st; qaHistory := entry :: qaHistory u |}
  | inl _ =>
      let st := setError (Some (str "Failed to generate explanation.")) (core u) in
      {| core := setStatus originalStatus st; qaHistory := qaHistory u |}
  end.

(** [handleSimulationRequest]: the router, up to the [await] of the handler
    it chooses. *)
Definition handleSimulationRequest (prompt : text) (st : AppState) : AppState * suspended :=
  let st' := setCurrentPrompt prompt (setError None st) in
  let lowerPrompt := trim (toLowerCase prompt) in
  let isQuestion :=
    startsWith lowerPrompt (str "why") || startsWith lowerPrompt (str "how")
    || startsWith lowerPrompt (str "explain") || endsWith lowerPrompt (str "?") in
  let isModification :=
    is_ready_or_idle (status st)
    && (startsWith lowerPrompt (str "make") || startsWith lowerPrompt (str "change")
        || startsWith lowerPrompt (str "add") || startsWith lowerPrompt (str "set")
        || startsWith lowerPrompt (str "turn")) in
  if isQuestion && nonempty (code (data st)) then performExplanation_start prompt st'
  else if isModification && nonempty (code (data st)) then performModification_start prompt st'
  else let '(st'', p) := performGeneration_start prompt st' in (st'', Core p).

(** The [onload] handler of [handleFileImport]: the file is added to the
    custom simulations under a key made from the clock. *)
Definition fileLoaded (fileName contents : text) (now : N) (st : AppState) : AppState :=
  {| status := status st; currentPrompt := currentPrompt st; refreshKey := refreshKey st;
     data := data st; error := error st;
     customSims := assign_key (customSims st) (importKey now)
                     (importedSimulation fileName contents) |}.

(** The session: the state and the suspended handlers. *)
Record UISession := { ui : UIState; suspendedHandlers : list suspended }.

(** How a suspended handler is resumed. A generation settles with an error
    or a response; the promise fulfilled with an inherited member of the
    cache (see [Gemini.fulfilled]) makes [performGeneration] install
    undefined fields, which the string-typed state cannot hold, and is
    left out. *)
Inductive settlement : Type :=
| TimerFired
| GenerationSettled (settled : JsError + SimulationResponse)
| ModificationSettled (settled : JsError + SimulationResponse)
| ExplanationSettled (settled : JsError + text) (now : N)
| FileRead (contents : text) (now : N).

(** What can happen next. The controls fire only when they are enabled:
    the input bar while [isLoading] is false (status [READY] or [IDLE]) and
    its value is not blank; the form of the explanation panel while the
    status is not [EXPLAINING] and the question is not blank; a library
    button, present for the keys of the two tables, while the status is
    [READY] or [IDLE]; the reset button, the file input and the button that
    dismisses the error always. The scene reports an error through its
    [onError] prop, which is [handleRuntimeError]. *)
Inductive uiAction : Type :=
| InputSubmit (value : text)
| PanelAsk (question : text)
| PresetButton (key : text)
| ResetButton
| FileChosen (fileName : option text)
| DismissError
| SceneError (msg : text)
| Resume (i : nat) (how : settlement).

Definition withCore (u : UIState) (st : AppState) : UIState :=
  {| core := st; qaHistory := qaHistory u |}.

Definition start (s : UISession) (r : AppState * suspended) : UISession :=
  {| ui := withCore (ui s) (fst r); suspendedHandlers := suspendedHandlers s ++ [snd r] |}.

Definition resumed (s : UISession) (i : nat) (u : UIState) : UISession :=
  {| ui := u; suspendedHandlers := delete i (suspendedHandlers s) |}.

(** A library button is rendered for [key]: [Object.keys(customSims)] or
    [Object.keys(PERFECT_SIMULATIONS)] lists it. *)
Definition hasButton (st : AppState) (key : text) : bool :=
  bool_decide (is_Some (lookup_key (customSims st) key))
  || bool_decide (is_Some (lookup_key PERFECT_SIMULATIONS key)).

Definition uiStep (a : uiAction) (s : UISession) : UISession :=
  let st := core (ui s) in
  match a with
  | InputSubmit value =>
      (* [InputBar.handleSubmit]: [if (value.trim() && !isLoading) onSubmit(value)] *)
      let isLoading := negb (is_ready_or_idle (status st)) in
      if nonempty (trim value) && negb isLoading
      then start s (handleSimulationRequest value st)
      else s
  | PanelAsk question =>
      (* [ExplanationPanel.handleAsk], its controls disabled while answering *)
      let isAnswering := if status st is EXPLAINING then true else false in
      if nonempty (trim question) && negb isAnswering
      then start s (performExplanation_start question st)
      else s
  | PresetButton key =>
      if is_ready_or_idle (status st) && hasButton st key
      then match handlePresetClick_start PERFECT_SIMULATIONS key st with
           | Suspended st' p => start s (st', Core p)
           | Returned st' | PastGuard st' _ =>
               (* [Returned] is not reached, the key of a button being an own
                  key; [PastGuard] is reached only when that own key of the
                  library is also the name of an inherited member, which
                  [customSims[key]] finds first *)
               {| ui := withCore (ui s) st'; suspendedHandlers := suspendedHandlers s |}
           end
      else s
  | ResetButton =>
      {| ui := withCore (ui s) (handleReset PERFECT_SIMULATIONS st);
         suspendedHandlers := suspendedHandlers s |}
  | FileChosen fileName =>
      match fileName with
      | Some name =>
          {| ui := ui s; suspendedHandlers := suspendedHandlers s ++ [AwaitFileRead name] |}
      | None => s
      end
  | DismissError => {| ui := withCore (ui s) (setError None st);
                        suspendedHandlers := suspendedHandlers s |}
  | SceneError msg => {| ui := withCore (ui s) (handleRuntimeError msg st);
                         suspendedHandlers := suspendedHandlers s |}
  | Resume i how =>
      match suspendedHandlers s !! i, how with
      | Some (Core (AwaitTimer sim _)), TimerFired =>
          resumed s i (withCore (ui s) (handlePresetClick_resume sim st))
      | Some (Core (AwaitGeneration _)), GenerationSettled settled =>
          resumed s i (withCore (ui s) (snd (performGeneration_resume settled st)))
      | Some (AwaitModification _ _ sourcesAtCall), ModificationSettled settled =>
          resumed s i (withCore (ui s) (snd (performModification_resume sourcesAtCall settled st)))
      | Some (AwaitExplanation _ question originalStatus titleAtCall),
        ExplanationSettled settled now =>
          resumed s i (performExplanation_resume question originalStatus titleAtCall settled now
                         (ui s))
      | Some (AwaitFileRead name), FileRead contents now =>
          resumed s i (withCore (ui s) (fileLoaded name contents now st))
      | _, _ => s
      end
  end.

Definition uiSteps (l : list uiAction) (s : UISession) : UISession :=
  fold_left (fun s a => uiStep a s) l s.

End Handlers.

End Interface.

(** ** Vocabulary of the statements and sample data *)

Module SanitizerSpec.

Import Sanitizer.

Definition spaces (w : text) : Prop := Forall (fun x => is_space x = true) w.

Definition word_chars (w : text) : Prop := Forall (fun x => is_word x = true) w.

(** The keyword phrase [export default function] with its separating
    white space. *)
Definition export_phrase (w1 w2 : text) : text :=
  str "export" ++ w1 ++ str "default" ++ w2 ++ str "function".

Definition helper_module : text :=
  str "export default function Foo() { return <a/>; }
function helper() { return 1; }".

End SanitizerSpec.

Module CompilerSpec.

Import Compiler.

Definition babelNotLoaded : JsError :=
  Error (str "Babel not loaded. Please ensure Babel is included in index.html").

(** A runtime without libraries, for concrete runs. *)
Definition stubImports : Imports unit unit :=
  {| React := tt; THREE := tt; Fiber := tt; Fiber_useFrame := tt; Fiber_useThree := tt;
     Fiber_useLoader := tt; Drei := tt; Leva := tt; safeMatter := tt |}.

Definition windowWithoutBabel : Window unit unit unit :=
  {| Babel := None; Function_call := fun _ _ _ => inr tt |}.

Definition unexpectedToken : JsError :=
  mkJsError (str "SyntaxError") (str "unknown: Unexpected token (2:18)").

Definition windowRejecting : Window unit unit unit :=
  {| Babel := Some (fun _ _ => inl unexpectedToken); Function_call := fun _ _ _ => inr tt |}.

End CompilerSpec.

Module HostSpec.

Import Compiler Host CompilerSpec.

Definition boom : JsError := Error (str "boom").

(** The subscriber the frame gate hands to the library for a callback. *)
Definition gated {RootState Delta Callback : Type} (cb : Callback * option nat)
  : Subscription RootState Delta Callback :=
  {| sub_callback := fun simSettings_current state delta =>
       if paused simSettings_current then [] else [Call (fst cb) state delta];
     sub_priority := snd cb |}.

(** The callbacks of compiled code in the order in which the loop of the
    rendering library reaches them: by ascending priority, a missing
    priority counting as 0, equal priorities in the order of registration. *)
Definition in_priority_order {Callback : Type} (callbacks : list (Callback * option nat))
  : list (Callback * option nat) :=
  fold_left (fun sorted cb => insert_by (fun c => renderPriority (snd c)) cb sorted)
    callbacks [].

(** A component that renders once and throws on its first update, and one
    that throws when it is constructed. *)
Definition throwsOnFirstUpdate : Component unit :=
  fun n => match n with 0 => inr tt | _ => inl boom end.

Definition throwsOnConstruction : Component unit := fun _ => inl boom.

(** A window whose transpiler returns its input and whose function
    constructor yields the given component. *)
Definition windowYielding (c : Component unit) : Window unit unit (Component unit) :=
  {| Babel := Some (fun code _ => inr code); Function_call := fun _ _ _ => inr c |}.

Definition mountYielding (c : Component unit) : M (Scene unit) :=
  mountScene stubImports tt (windowYielding c) (str "return <mesh />;").

End HostSpec.

Module AppSpec.

Import App.

(** What a settled generation and a fired preset timer install. *)
Definition generatedData (result : SimulationResponse) : SimData :=
  {| code := componentCode result;
     data_explanation := explanation result;
     data_title := title result;
     data_sources := sources result |}.

Definition presetData (sim : SimulationResponse) : SimData :=
  {| code := componentCode sim;
     data_explanation := explanation sim;
     data_title := title sim;
     data_sources := Some (default [] (sources sim)) |}.

(** A library with one entry, a generated result, and the state showing
    the initial simulation. *)
Definition pendulum : SimulationResponse :=
  {| componentCode := str "return <group><mesh /></group>;";
     explanation := str "# Double Pendulum";
     title := str "Double Pendulum";
     sources := None |}.

Definition rocket : SimulationResponse :=
  {| componentCode := str "return (<group><points /></group>);";
     explanation := str "# Rocket";
     title := str "Rocket";
     sources := Some [] |}.

Definition library : table := [(str "double pendulum", pendulum)].

Definition initialState : AppState :=
  {| status := IDLE;
     currentPrompt := [];
     refreshKey := 0;
     data := {| code := str "return <group />;";
                data_explanation := str "# Welcome to PhysiGen AI";
                data_title := str "PhysiGen AI";
                data_sources := Some [] |};
     error := None;
     customSims := [] |}.

End AppSpec.

Module GeminiSpec.

Import Gemini.

(** The element names accepted by [/<(mesh|points|line|instancedMesh|drei\.)/i]. *)
Definition primitive_names : list text :=
  [str "mesh"; str "points"; str "line"; str "instancedMesh"; str "drei."].

(** [w] spells one of the names, up to case. *)
Definition primitive_word (w : text) : Prop :=
  exists w0, In w0 primitive_names /\
             Forall2 (fun c x => chr_matches flag_i c x = true) w0 w.

(** The text starts with the opening of a scene primitive. *)
Definition primitive_at (t : text) : Prop :=
  exists w rest, t = "<"%char :: w ++ rest /\ primitive_word w.

(** Some position of the text starts a scene primitive. *)
Definition has_primitive (code : text) : Prop :=
  exists sk t, code = sk ++ t /\ primitive_at t.

Definition missingElements : JsError := Error (str "Generated code missing 3D elements.").

Definition all_valid (t : table) : Prop :=
  Forall (fun e => validateSimulationCode (componentCode (snd e)) = true) t.

(** A model that answers with a scene made of a bare geometry: a group and
    a parenthesised return, but no primitive. *)
Definition bareGeometry : SimulationResponse :=
  {| componentCode := str "return (<group><boxGeometry /></group>);";
     explanation := str "A box.";
     title := str "Box";
     sources := None |}.

(** A model that answers with a bare primitive: no group and no
    parenthesised return. *)
Definition bareMesh : SimulationResponse :=
  {| componentCode := str "<mesh />"; explanation := str "A mesh."; title := str "Mesh";
     sources := None |}.

Definition answering (r : SimulationResponse) : (request -> JsError + option text)
                                               * (text -> JsError + SimulationResponse) :=
  (fun _ => inr (Some (str "{...}")), fun _ => inr r).

End GeminiSpec.

Module InterfaceSpec.
Import App Interface.

(** A suspended handler that installs a simulation when it is resumed: a
    generation, a library load or a modification. *)
Definition replaces_scene (h : suspended) : bool :=
  match h with
  | Core _ | AwaitModification _ _ _ => true
  | _ => false
  end.

(** A handler started while the input bar was enabled. *)
Definition exclusive (h : suspended) : bool :=
  match h with
  | Core _ | AwaitModification _ _ _ => true
  | AwaitExplanation _ _ originalStatus _ => is_ready_or_idle originalStatus
  | AwaitFileRead _ => false
  end.

(** A handler that can be suspended while the controls are locked in the
    status [v]. *)
Definition restores (v : SimulationStatus) (h : suspended) : Prop :=
  match h with
  | AwaitExplanation _ _ originalStatus _ => originalStatus = v
  | AwaitFileRead _ => True
  | _ => False
  end.

Definition count (f : suspended -> bool) (l : list suspended) : nat :=
  length (List.filter f l).

(** At most one exclusive handler is suspended, and none while the input
    bar is enabled. *)
Definition exclusive_invariant (s : UISession) : Prop :=
  count exclusive (suspendedHandlers s) <= 1 /\
  (is_ready_or_idle (status (core (ui s))) = true -> count exclusive (suspendedHandlers s) = 0).

(** The controls are locked in the status [v]: the status is [v] or
    [EXPLAINING] and every suspended handler puts [v] back. *)
Definition locked_in (v : SimulationStatus) (s : UISession) : Prop :=
  (status (core (ui s)) = v \/ status (core (ui s)) = EXPLAINING) /\
  Forall (restores v) (suspendedHandlers s).

(** The name ends with the extension [.tsx] or [.ts], in any case. *)
Definition is_extension (ext : text) : Prop :=
  toLowerCase ext = str ".tsx" \/ toLowerCase ext = str ".ts".

(** [name.toLowerCase()] ends with [.tsx] or with [.ts]. *)
Definition endsWithExtension (name : text) : bool :=
  endsWith (toLowerCase name) (str ".tsx") || endsWith (toLowerCase name) (str ".ts").

(** The calls of [onError] made by a scene, delivered to [App] in order. *)
Definition report (PERFECT_SIMULATIONS : table) (messages : list text) (s : UISession)
  : UISession :=
  fold_left (fun s msg => uiStep PERFECT_SIMULATIONS (SceneError msg) s) messages s.

(** A session showing the initial simulation, with nothing suspended. *)
Definition initialUISession : UISession :=
  {| ui := {| core := AppSpec.initialState; qaHistory := [] |};
     suspendedHandlers := [] |}.

Definition networkError : JsError := mkJsError (str "TypeError") (str "Failed to fetch").

(** The session showing the pendulum of the library, loaded through its
    button. *)
Definition pendulumSession : UISession :=
  uiSteps AppSpec.library [PresetButton (str "double pendulum"); Resume 0 TimerFired]
    initialUISession.

(** The initial session after the request [a rocket] was submitted. *)
Definition generatingSession : UISession :=
  uiStep AppSpec.library (InputSubmit (str "a rocket")) initialUISession.

End InterfaceSpec.

Module EnginesSpec.
Import Gemini GeminiEngines.

Definition modificationRequest (currentCode userRequest : text) : engineRequest :=
  {| engine_model := str "gemini-2.5-flash";
     engine_contents := modificationPrompt currentCode userRequest;
     engine_config := ModificationConfig |}.

(** The names of members of [Object.prototype] that a lower-cased prompt can
    spell: a read of the cache under one of them finds the inherited
    member. *)
Definition inheritedKeys : list text := [str "constructor"; str "__proto__"].

(** One call of [generateSimulation]: the prompt with what the model and
    the parser answer during that call. *)
Record call := {
  call_prompt : text;
  call_generateContent : request -> JsError + option text;
  call_JSON_parse : text -> JsError + SimulationResponse
}.

(** The cache of the module after a series of calls, starting empty: a
    call that fails leaves it as it was. *)
Definition cacheAfter (PERFECT_SIMULATIONS INVISIBLE_SIMULATIONS : table) (calls : list call)
  : table :=
  fold_left
    (fun cache c =>
       match outcome (generateSimulation PERFECT_SIMULATIONS INVISIBLE_SIMULATIONS
                        (call_generateContent c) (call_JSON_parse c) cache (call_prompt c)) with
       | inr (_, cache') => cache'
       | inl _ => cache
       end)
    calls [].

End EnginesSpec.

Module ValidationSpec.

(** A regular expression without [^] and [$]. *)
Fixpoint anchor_free (r : regex) : bool :=
  match r with
  | Eps | Chr _ | Cls _ => true
  | Seq r1 r2 | Alt r1 r2 => anchor_free r1 && anchor_free r2
  | Star _ r1 | Group r1 => anchor_free r1
  | Bol | Eol => false
  end.

(** The state of the matcher at the same place of the text [a ++ s ++ b]. *)
Definition embed (a b : text) (s : mstate) : mstate :=
  MState (seen s ++ rev a) (ahead s ++ b) (groups s).

(** A response with a bare geometry and nothing else. *)
Definition boxOnly : SimulationResponse :=
  {| componentCode := str "<boxGeometry />"; explanation := []; title := []; sources := None |}.

End ValidationSpec.

Module SceneSpec.

Import Compiler Host.
Local Open Scope js_scope.

(** [n] frame updates of a mounted scene, one after the other. *)
Fixpoint updates {Rendered} (n : nat) (sc : Scene Rendered) : M (Scene Rendered) :=
  match n with
  | 0 => ret sc
  | S n' => sc' <- updateScene sc ;; updates n' sc'
  end.

(** A window without transpiler for scenes of components. *)
Definition windowWithoutTranspiler : Window unit unit (Component unit) :=
  {| Babel := None; Function_call := fun _ _ _ => inr HostSpec.throwsOnConstruction |}.

(** The scene after the boundary caught the error of a component that
    throws when it is constructed. *)
Definition caughtScene : Scene unit :=
  {| compiled := Some HostSpec.throwsOnConstruction;
     boundary := {| hasError := true; error := str "boom" |};
     renders := 1;
     shown := Some (ErrorFallback (str "boom")) |}.

End SceneSpec.

(** * Verification

    ** Metatheory of the matcher *)

Section Matcher.

Variable fl : flags.

Local Abbreviation matches := (matches fl).

Lemma passes_refl s : passes s [] s.
Proof. split; reflexivity. Qed.

Lemma passes_trans s m e w1 w2 :
  passes s w1 m -> passes m w2 e -> passes s (w1 ++ w2) e.
Proof.
  intros [H1 H2] [H3 H4]. split.
  - rewrite H3, H1, rev_app_distr, app_assoc. reflexivity.
  - rewrite H2, H4, app_assoc. reflexivity.
Qed.

Lemma passes_advance s x t : ahead s = x :: t -> passes s [x] (advance s x t).
Proof. intros H. split; simpl; auto. Qed.

Lemma passes_length s w e :
  passes s w e -> length (ahead s) = length w + length (ahead e).
Proof. intros [_ H]. rewrite H, length_app. reflexivity. Qed.

Lemma passes_close_group s0 s w e : passes s w e -> passes s w (close_group s0 e).
Proof. intros [H1 H2]. split; simpl; auto. Qed.

Lemma matches_passes r : forall s e, matches r s e -> exists w, passes s w e.
Proof.
  induction r as [|c|p|r1 IH1 r2 IH2|r1 IH1 r2 IH2|g r1 IH1| | |r1 IH1]; simpl; intros s e H.
  - subst. exists []. apply passes_refl.
  - destruct H as (x & t & Ha & _ & ->). exists [x]. by apply passes_advance.
  - destruct H as (x & t & Ha & _ & ->). exists [x]. by apply passes_advance.
  - destruct H as (m & H1 & H2).
    destruct (IH1 _ _ H1) as [w1 P1]. destruct (IH2 _ _ H2) as [w2 P2].
    exists (w1 ++ w2). eapply passes_trans; eauto.
  - destruct H as [H|H]; eauto.
  - induction H as [s|s m e [Hm _] _ [w2 P2]].
    + exists []. apply passes_refl.
    + destruct (IH1 _ _ Hm) as [w1 P1]. exists (w1 ++ w2). eapply passes_trans; eauto.
  - destruct H as [_ ->]. exists []. apply passes_refl.
  - destruct H as [_ ->]. exists []. apply passes_refl.
  - destruct H as (m & Hm & ->). destruct (IH1 _ _ Hm) as [w P].
    exists w. by apply passes_close_group.
Qed.

(** The matcher only returns what its continuation returned at the end of
    a match. *)
Lemma iter_sound g (body : cont -> cont) (R : mstate -> mstate -> Prop) :
  (forall k s x, body k s = Some x -> exists e, R s e /\ k e = Some x) ->
  forall fuel k s x, iter g body fuel k s = Some x ->
    exists e, rtc (fun a b => R a b /\ progress a b) s e /\ k e = Some x.
Proof.
  intros Hbody. induction fuel as [|f IH]; simpl; intros k s x H.
  - exists s. split; [apply rtc_refl | done].
  - set (k' := fun s' => if length (ahead s') <? length (ahead s)
                         then iter g body f k s' else None) in H.
    assert (Hagain : forall y, body k' s = Some y ->
      exists e, rtc (fun a b => R a b /\ progress a b) s e /\ k e = Some y).
    { intros y Hy. apply Hbody in Hy as (m & HR & Hk). unfold k' in Hk.
      destruct (Nat.ltb_spec (length (ahead m)) (length (ahead s))) as [Hlt|]; [|done].
      apply IH in Hk as (e & Hrtc & Hke). exists e. split; [|done].
      eapply rtc_l; [split; [exact HR | exact Hlt] | exact Hrtc]. }
    destruct g.
    + destruct (body k' s) as [y|] eqn:E.
      * inversion H; subst. by apply Hagain.
      * exists s. split; [apply rtc_refl | done].
    + destruct (k s) as [y|] eqn:E.
      * inversion H; subst. exists s. split; [apply rtc_refl | done].
      * by apply Hagain.
Qed.

Lemma run_sound r : forall k s x,
  run fl r k s = Some x -> exists e, matches r s e /\ k e = Some x.
Proof.
  induction r as [|c|p|r1 IH1 r2 IH2|r1 IH1 r2 IH2|g r1 IH1| | |r1 IH1]; cbn [run matches]; intros k s x H.
  - eauto.
  - destruct (ahead s) as [|y t] eqn:E; [done|].
    destruct (chr_matches fl c y) eqn:M; [|done]. eauto 10.
  - destruct (ahead s) as [|y t] eqn:E; [done|].
    destruct (cls_matches fl p y) eqn:M; [|done]. eauto 10.
  - apply IH1 in H as (m & H1 & H). apply IH2 in H as (e & H2 & H). eauto.
  - destruct (run fl r1 k s) eqn:E.
    + inversion H; subst. apply IH1 in E as (e & ? & ?). eauto.
    + apply IH2 in H as (e & ? & ?). eauto.
  - eapply iter_sound in H; [exact H | exact IH1].
  - destruct (at_bol fl s) eqn:E; [eauto | done].
  - destruct (at_eol fl s) eqn:E; [eauto | done].
  - apply IH1 in H as (m & H1 & H). eauto.
Qed.

(** Whenever some match lets the continuation succeed, the matcher
    succeeds (possibly through a match of higher priority). *)
Lemma iter_complete g (body : cont -> cont) (R : mstate -> mstate -> Prop) :
  (forall k s e, R s e -> is_Some (k e) -> is_Some (body k s)) ->
  forall s e, rtc (fun a b => R a b /\ progress a b) s e ->
  forall fuel k, length (ahead s) < fuel -> is_Some (k e) ->
    is_Some (iter g body fuel k s).
Proof.
  intros Hbody s e Hrtc.
  induction Hrtc as [s|s m e [HR Hp] _ IH]; intros fuel k Hf Hk.
  - destruct fuel as [|f]; [lia|]. simpl.
    destruct g.
    + destruct (body _ s); [eauto | done].
    + destruct (k s); [eauto | by destruct Hk].
  - destruct fuel as [|f]; [lia|]. simpl.
    set (k' := fun s' => if length (ahead s') <? length (ahead s)
                         then iter g body f k s' else None).
    assert (Hagain : is_Some (body k' s)).
    { apply (Hbody k' s m HR). unfold k'. unfold progress in Hp.
      destruct (Nat.ltb_spec (length (ahead m)) (length (ahead s))); [|lia].
      apply IH; [lia | done]. }
    destruct g.
    + destruct Hagain as [y ->]. eauto.
    + destruct (k s); [eauto | done].
Qed.

Lemma run_complete r : forall k s e,
  matches r s e -> is_Some (k e) -> is_Some (run fl r k s).
Proof.
  induction r as [|c|p|r1 IH1 r2 IH2|r1 IH1 r2 IH2|g r1 IH1| | |r1 IH1]; cbn [run matches]; intros k s e H Hk.
  - by subst.
  - destruct H as (x & t & -> & -> & ->). done.
  - destruct H as (x & t & -> & -> & ->). done.
  - destruct H as (m & H1 & H2). eapply IH1; [exact H1|]. eapply IH2; eauto.
  - destruct H as [H|H].
    + destruct (IH1 k s e H Hk) as [y ->]. eauto.
    + destruct (run fl r1 k s); [eauto|]. eapply IH2; eauto.
  - eapply iter_complete; [exact IH1 | exact H | lia | done].
  - destruct H as [-> ->]. done.
  - destruct H as [-> ->]. done.
  - destruct H as (m & H1 & ->). eapply IH1; eauto.
Qed.

(** The leftmost-match search. *)
Lemma scan_sound r : forall ah sn b e,
  scan fl r sn ah = Some (b, e) ->
  exists skipped,
    ah = skipped ++ ahead b /\ b = MState (rev skipped ++ sn) (ahead b) [] /\
    matches r b e.
Proof.
  induction ah as [|c t IH]; simpl; intros sn b e H.
  - destruct (run fl r Some _) eqn:E; [|done]. inversion H; subst.
    apply run_sound in E as (e' & Hm & [= ->]). exists []. eauto.
  - destruct (run fl r Some _) eqn:E.
    + inversion H; subst.
      apply run_sound in E as (e' & Hm & [= ->]). exists []. eauto.
    + apply IH in H as (sk & Ha & Hb & Hm). exists (c :: sk). simpl.
      rewrite <- app_assoc. simpl. rewrite <- Ha. eauto.
Qed.

Lemma scan_complete r : forall skipped sn rest e,
  matches r (MState (rev skipped ++ sn) rest []) e ->
  is_Some (scan fl r sn (skipped ++ rest)).
Proof.
  induction skipped as [|c sk IH]; intros sn rest e H; simpl in *.
  - assert (Hr : is_Some (run fl r Some (MState sn rest []))).
    { eapply run_complete; eauto. }
    destruct Hr as [y Hy].
    destruct rest; simpl; rewrite Hy; eauto.
  - destruct (run fl r Some _); [eauto|].
    apply (IH (c :: sn) rest e). by rewrite <- app_assoc in H.
Qed.

End Matcher.

(** *** The fuel of the quantifier and of the global replacement is enough *)

Lemma iter_ext g (body : cont -> cont) :
  (forall k1 k2, (forall s, k1 s = k2 s) -> forall s, body k1 s = body k2 s) ->
  forall fuel k1 k2, (forall s, k1 s = k2 s) -> forall s, iter g body fuel k1 s = iter g body fuel k2 s.
Proof.
  intros Hbody. induction fuel as [|f IH]; intros k1 k2 Hk s; simpl; [done|].
  rewrite (Hk s).
  rewrite (Hbody _ (fun s' => if length (ahead s') <? length (ahead s)
                              then iter g body f k2 s' else None)); [done|].
  intros s'. destruct (_ <? _); [by apply IH | done].
Qed.

Lemma run_ext fl r : forall k1 k2,
  (forall s, k1 s = k2 s) -> forall s, run fl r k1 s = run fl r k2 s.
Proof.
  induction r as [|c|p|r1 IH1 r2 IH2|r1 IH1 r2 IH2|g r1 IH1| | |r1 IH1];
    cbn [run]; intros k1 k2 Hk s.
  - done.
  - destruct (ahead s); [done|]. by destruct (chr_matches _ _ _).
  - destruct (ahead s); [done|]. by destruct (cls_matches _ _ _).
  - apply IH1. intros s'. by apply IH2.
  - by rewrite (IH1 k1 k2 Hk), (IH2 k1 k2 Hk).
  - by apply iter_ext.
  - by destruct (at_bol _ _).
  - by destruct (at_eol _ _).
  - apply IH1. intros e. apply Hk.
Qed.

(** More fuel than code units ahead changes nothing: a quantifier never
    stops for lack of fuel. *)
Lemma iter_fuel fl g r k : forall fuel s,
  length (ahead s) < fuel ->
  iter g (run fl r) (S fuel) k s = iter g (run fl r) fuel k s.
Proof.
  induction fuel as [|f IH]; intros s Hf; [lia|].
  change (iter g (run fl r) (S (S f)) k s) with
    (let again := run fl r (fun s' => if length (ahead s') <? length (ahead s)
                                      then iter g (run fl r) (S f) k s' else None) s in
     if g then match again with Some e => Some e | None => k s end
     else match k s with Some e => Some e | None => again end).
  change (iter g (run fl r) (S f) k s) with
    (let again := run fl r (fun s' => if length (ahead s') <? length (ahead s)
                                      then iter g (run fl r) f k s' else None) s in
     if g then match again with Some e => Some e | None => k s end
     else match k s with Some e => Some e | None => again end).
  cbv zeta.
  rewrite (run_ext fl r _ (fun s' => if length (ahead s') <? length (ahead s)
                                     then iter g (run fl r) f k s' else None)); [done|].
  intros s'. destruct (Nat.ltb_spec (length (ahead s')) (length (ahead s))); [|done].
  apply IH. lia.
Qed.

Lemma scan_ahead fl r : forall ah sn b e,
  scan fl r sn ah = Some (b, e) ->
  length (ahead e) <= length (ahead b) /\ length (ahead b) <= length ah.
Proof.
  intros ah sn b e H. apply scan_sound in H as (sk & Ha & _ & Hm).
  apply matches_passes in Hm as [w Hp]. apply passes_length in Hp.
  rewrite Ha, length_app. lia.
Qed.

(** The global replacement never stops for lack of fuel either. *)
Lemma replace_from_fuel fl r rep : forall fuel sn ah,
  length ah < fuel ->
  replace_from fl r rep (S fuel) sn ah = replace_from fl r rep fuel sn ah.
Proof.
  induction fuel as [|f IH]; intros sn ah Hf; [lia|].
  change (replace_from fl r rep (S (S f)) sn ah) with
    (match scan fl r sn ah with
     | None => ah
     | Some (b, e) =>
         let skipped := firstn (length (seen b) - length sn) ah in
         if length (ahead e) <? length (ahead b)
         then skipped ++ rep ++ replace_from fl r rep (S f) (seen e) (ahead e)
         else match ahead e with
              | [] => skipped ++ rep
              | c :: t => skipped ++ rep ++ c :: replace_from fl r rep (S f) (c :: seen e) t
              end
     end).
  change (replace_from fl r rep (S f) sn ah) with
    (match scan fl r sn ah with
     | None => ah
     | Some (b, e) =>
         let skipped := firstn (length (seen b) - length sn) ah in
         if length (ahead e) <? length (ahead b)
         then skipped ++ rep ++ replace_from fl r rep f (seen e) (ahead e)
         else match ahead e with
              | [] => skipped ++ rep
              | c :: t => skipped ++ rep ++ c :: replace_from fl r rep f (c :: seen e) t
              end
     end).
  destruct (scan fl r sn ah) as [[b e]|] eqn:E; [|done].
  apply scan_ahead in E as [H1 H2]. cbv zeta.
  destruct (Nat.ltb_spec (length (ahead e)) (length (ahead b))).
  - rewrite IH by lia. done.
  - destruct (ahead e) as [|c t] eqn:Ee; [done|]. simpl in H1.
    rewrite IH by lia. done.
Qed.

(** *** Literals and runs of a character class *)

Lemma chr_matches_exact c x : chr_matches no_flags c x = true <-> c = x.
Proof. unfold chr_matches. simpl. destruct (decide (c = x)); split; congruence. Qed.

Lemma cls_matches_exact p x : cls_matches no_flags p x = p x.
Proof. reflexivity. Qed.

Lemma matches_chr fl c s e :
  matches fl (Chr c) s e <->
  exists x, chr_matches fl c x = true /\ passes s [x] e /\ groups e = groups s.
Proof.
  simpl. split.
  - intros (x & t & Ha & Hc & ->). exists x. split; [done|]. split; [|done].
    by apply passes_advance.
  - intros (x & Hc & [Hs Ha] & Hg). exists x, (ahead e). split; [done|]. split; [done|].
    destruct e as [se ae ge]. unfold advance. simpl in *. by subst.
Qed.

Lemma matches_lit fl w0 : forall s e,
  matches fl (lit w0) s e <->
  exists w, Forall2 (fun c x => chr_matches fl c x = true) w0 w /\
            passes s w e /\ groups e = groups s.
Proof.
  induction w0 as [|c [|c' t] IH]; intros s e.
  - simpl. split.
    + intros ->. exists []. split; [constructor|]. split; [apply passes_refl | done].
    + intros (w & Hw & [Hs Ha] & Hg). inversion Hw; subst.
      destruct e, s; simpl in *; by subst.
  - change (lit [c]) with (Chr c). rewrite matches_chr. split.
    + intros (x & Hc & Hp & Hg). exists [x].
      split; [constructor; [done | constructor] | by split].
    + intros (w & Hw & Hp & Hg). inversion Hw as [|? y ? l' Hc Hl']; subst.
      inversion Hl'; subst. eauto.
  - change (lit (c :: c' :: t)) with (Seq (Chr c) (lit (c' :: t))).
    cbn [matches]. split.
    + intros (m & H1 & H2). apply (matches_chr fl c s m) in H1 as (x & Hc & Hp & Hg).
      apply IH in H2 as (w & Hw & Hp2 & Hg2). exists (x :: w).
      split; [by constructor|]. split; [|congruence].
      change (x :: w) with ([x] ++ w). eapply passes_trans; eauto.
    + intros (w & Hw & [Hs Ha] & Hg). inversion Hw as [|? x ? w' Hc Hw']; subst.
      exists (advance s x (w' ++ ahead e)). split.
      * exists x, (w' ++ ahead e). done.
      * apply IH. exists w'. split; [done|]. split; [|done].
        split; simpl; [|done]. rewrite Hs. simpl. by rewrite <- app_assoc.
Qed.

Lemma Forall2_chr_exact w0 w :
  Forall2 (fun c x => chr_matches no_flags c x = true) w0 w <-> w = w0.
Proof.
  split.
  - induction 1 as [|c x w0 w Hc _ IH]; [done|].
    apply chr_matches_exact in Hc. by subst.
  - intros ->. induction w0; constructor; [by apply chr_matches_exact | done].
Qed.

Lemma matches_lit_exact w0 s e :
  matches no_flags (lit w0) s e <-> passes s w0 e /\ groups e = groups s.
Proof.
  rewrite matches_lit. split.
  - intros (w & Hw & Hp & Hg). apply Forall2_chr_exact in Hw. by subst.
  - intros [Hp Hg]. exists w0. split; [by apply Forall2_chr_exact | done].
Qed.

Lemma matches_star_cls fl g p s e :
  matches fl (Star g (Cls p)) s e ->
  exists w, Forall (fun x => cls_matches fl p x = true) w /\
            passes s w e /\ groups e = groups s.
Proof.
  cbn [matches]. induction 1 as [s|s m e [Hm _] _ (w & Hw & Hp & Hg)].
  - exists []. split; [constructor|]. split; [apply passes_refl | done].
  - destruct Hm as (x & t & Ha & Hc & ->). exists (x :: w).
    split; [by constructor|]. split; [|done].
    change (x :: w) with ([x] ++ w). eapply passes_trans; [|exact Hp].
    by apply passes_advance.
Qed.

Lemma matches_plus_cls fl g p s e :
  matches fl (Plus g (Cls p)) s e ->
  exists w, w <> [] /\ Forall (fun x => cls_matches fl p x = true) w /\
            passes s w e /\ groups e = groups s.
Proof.
  unfold Plus. cbn [matches]. intros (m & (x & t & Ha & Hc & ->) & H2).
  apply (matches_star_cls fl g p) in H2 as (w & Hw & Hp & Hg).
  exists (x :: w). split; [done|]. split; [by constructor|]. split; [|done].
  change (x :: w) with ([x] ++ w). eapply passes_trans; [|exact Hp].
  by apply passes_advance.
Qed.

(** What a search result says about the searched text. *)
Lemma scan_text fl r s b e :
  scan fl r [] s = Some (b, e) ->
  exists w, matches fl r b e /\ passes b w e /\ s = rev (seen b) ++ w ++ ahead e.
Proof.
  intros H. apply scan_sound in H as (sk & Hs & Hb & Hm).
  destruct (matches_passes _ _ _ _ Hm) as [w Hp].
  exists w. split; [done|]. split; [done|].
  rewrite Hb. simpl. rewrite app_nil_r, rev_involutive.
  destruct Hp as [_ Ha]. by rewrite Hs, Ha.
Qed.

Lemma test_true_iff fl r s :
  test fl r s = true <-> exists sk rest e, s = sk ++ rest /\ matches fl r (MState (rev sk) rest []) e.
Proof.
  unfold test. split.
  - destruct (scan fl r [] s) as [[b e]|] eqn:E; [|done]. intros _.
    apply scan_sound in E as (sk & Hs & Hb & Hm).
    exists sk, (ahead b), e. split; [done|]. rewrite app_nil_r in Hb. by rewrite <- Hb.
  - intros (sk & rest & e & -> & Hm).
    destruct (scan_complete fl r sk [] rest e) as [[b' e'] ->]; [|done].
    by rewrite app_nil_r.
Qed.

(** Right-nest appends and expose literal prefixes. *)
Ltac app_norm := repeat (progress (rewrite <- ?app_assoc; simpl)).
Tactic Notation "app_norm" "in" hyp(H) :=
  repeat (progress (rewrite <- ?app_assoc in H; simpl in H)).

Lemma passes_nil_eq s e : passes s [] e -> groups e = groups s -> e = s.
Proof. intros [Hs Ha] Hg. destruct e, s; simpl in *. by subst. Qed.

Lemma passes_cons_inv s x w e :
  passes s (x :: w) e -> passes (advance s x (w ++ ahead e)) w e.
Proof.
  intros [Hs Ha]. split; simpl; [|done]. rewrite Hs. simpl. by rewrite <- app_assoc.
Qed.

Lemma star_cls_matches fl g p w : forall s e,
  Forall (fun x => cls_matches fl p x = true) w -> passes s w e -> groups e = groups s ->
  matches fl (Star g (Cls p)) s e.
Proof.
  cbn [matches]. induction w as [|x w IH]; intros s e Hw Hp Hg.
  - rewrite (passes_nil_eq _ _ Hp Hg). apply rtc_refl.
  - inversion Hw; subst. pose proof Hp as [_ Ha].
    eapply rtc_l.
    + split.
      * exists x, (w ++ ahead e). split; [done|]. split; [done|]. reflexivity.
      * unfold progress. simpl. rewrite Ha. simpl. lia.
    + apply IH; [done | by apply passes_cons_inv | done].
Qed.

Lemma plus_cls_matches fl g p w s e :
  w <> [] -> Forall (fun x => cls_matches fl p x = true) w ->
  passes s w e -> groups e = groups s ->
  matches fl (Plus g (Cls p)) s e.
Proof.
  intros Hne Hw Hp Hg. destruct w as [|x w]; [done|]. inversion Hw; subst.
  unfold Plus. cbn [matches]. pose proof Hp as [_ Ha].
  exists (advance s x (w ++ ahead e)). split.
  - exists x, (w ++ ahead e). done.
  - apply (star_cls_matches fl g p w); [done | by apply passes_cons_inv | done].
Qed.

Lemma scan_state fl r s b e :
  scan fl r [] s = Some (b, e) ->
  matches fl r b e /\ s = rev (seen b) ++ ahead b /\ groups b = [].
Proof.
  intros H. apply scan_sound in H as (sk & Hs & Hb & Hm).
  split; [done|]. rewrite Hb. simpl. by rewrite app_nil_r, rev_involutive.
Qed.

(** The search stops at the first position where the matcher succeeds. *)
Lemma scan_first fl r : forall skipped sn rest b e,
  scan fl r sn (skipped ++ rest) = Some (b, e) ->
  is_Some (run fl r Some (MState (rev skipped ++ sn) rest [])) ->
  length (seen b) <= length skipped + length sn.
Proof.
  induction skipped as [|c sk IH]; intros sn rest b e H Hrun; simpl in *.
  - destruct Hrun as [y Hy].
    destruct rest; simpl in H; rewrite Hy in H; inversion H; subst; simpl; lia.
  - destruct (run fl r Some (MState sn (c :: sk ++ rest) [])).
    + inversion H; subst. simpl. lia.
    + rewrite <- app_assoc in Hrun. simpl in Hrun.
      specialize (IH (c :: sn) rest b e H Hrun). simpl in IH. lia.
Qed.

(** ** The sanitizer *)

Module SanitizerFacts.

Import Sanitizer SanitizerSpec.

(** A match of [/export\s+default\s+function/] passes a keyword phrase. *)
Lemma export_function_shape b e :
  matches no_flags re_export_default_function b e ->
  exists w1 w2, w1 <> [] /\ spaces w1 /\ w2 <> [] /\ spaces w2 /\
                passes b (export_phrase w1 w2) e.
Proof.
  unfold re_export_default_function. cbn [seqs matches].
  intros (m1 & H1 & m2 & H2 & m3 & H3 & m4 & H4 & H5).
  apply matches_lit_exact in H1 as [P1 _].
  apply matches_plus_cls in H2 as (w1 & N1 & F1 & P2 & _).
  apply matches_lit_exact in H3 as [P3 _].
  apply matches_plus_cls in H4 as (w2 & N2 & F2 & P4 & _).
  apply matches_lit_exact in H5 as [P5 _].
  exists w1, w2. repeat (split; [done|]).
  unfold export_phrase.
  eapply passes_trans; [exact P1|]. eapply passes_trans; [exact P2|].
  eapply passes_trans; [exact P3|]. eapply passes_trans; [exact P4|]. exact P5.
Qed.

(** Conversely a keyword phrase at the current position is matched. *)
Lemma export_function_matches sn w1 w2 rest :
  w1 <> [] -> spaces w1 -> w2 <> [] -> spaces w2 ->
  exists e, matches no_flags re_export_default_function
              (MState sn (export_phrase w1 w2 ++ rest) []) e /\
            ahead e = rest.
Proof.
  intros N1 F1 N2 F2.
  set (s0 := MState sn (export_phrase w1 w2 ++ rest) []).
  set (s1 := MState (rev (str "export") ++ sn)
                    (w1 ++ str "default" ++ w2 ++ str "function" ++ rest) []).
  set (s2 := MState (rev w1 ++ seen s1) (str "default" ++ w2 ++ str "function" ++ rest) []).
  set (s3 := MState (rev (str "default") ++ seen s2) (w2 ++ str "function" ++ rest) []).
  set (s4 := MState (rev w2 ++ seen s3) (str "function" ++ rest) []).
  set (s5 := MState (rev (str "function") ++ seen s4) rest []).
  exists s5. split; [|reflexivity].
  unfold re_export_default_function. cbn [seqs matches].
  exists s1. split.
  { apply matches_lit_exact. split; [|reflexivity]. split; [reflexivity|].
    unfold s0, s1, export_phrase. app_norm. reflexivity. }
  exists s2. split.
  { by apply (plus_cls_matches no_flags true is_space w1). }
  exists s3. split.
  { apply matches_lit_exact. split; [|reflexivity]. split; reflexivity. }
  exists s4. split.
  { by apply (plus_cls_matches no_flags true is_space w2). }
  apply matches_lit_exact. split; [|reflexivity]. split; reflexivity.
Qed.


Lemma export_default_of_function_name b e :
  matches no_flags re_export_default_function_name b e ->
  (exists e1, matches no_flags re_export_default b e1) /\
  (exists e2, matches no_flags re_export_default_function b e2).
Proof.
  unfold re_export_default_function_name, re_export_default, re_export_default_function.
  cbn [seqs matches].
  intros (m1 & H1 & m2 & H2 & m3 & H3 & m4 & H4 & m5 & H5 & _).
  split; [exists m4 | exists m5]; eauto 10.
Qed.

(** A named default-exported function at the current position is matched by
    [/export\s+default\s+function\s+([a-zA-Z0-9_]+)/]. *)
Lemma function_name_matches sn w1 w2 w3 name rest :
  w1 <> [] -> spaces w1 -> w2 <> [] -> spaces w2 -> w3 <> [] -> spaces w3 ->
  name <> [] -> word_chars name ->
  exists e, matches no_flags re_export_default_function_name
              (MState sn (export_phrase w1 w2 ++ w3 ++ name ++ rest) []) e.
Proof.
  intros N1 F1 N2 F2 N3 F3 N4 F4.
  destruct (export_function_matches sn w1 w2 (w3 ++ name ++ rest) N1 F1 N2 F2)
    as (e5 & H5 & A5).
  revert H5. unfold re_export_default_function_name, re_export_default_function.
  cbn [seqs matches]. intros (m1 & H1 & m2 & H2 & m3 & H3 & m4 & H4 & H5).
  set (s6 := MState (rev w3 ++ seen e5) (name ++ rest) (groups e5)).
  set (s7 := MState (rev name ++ seen s6) rest (groups e5)).
  exists (close_group s6 s7).
  exists m1. split; [done|]. exists m2. split; [done|]. exists m3. split; [done|].
  exists m4. split; [done|]. exists e5. split; [done|]. exists s6. split.
  { apply (plus_cls_matches no_flags true is_space w3); try done. }
  exists s7. split; [|done].
  by apply (plus_cls_matches no_flags true is_word name).
Qed.

(** Runs of a class followed by a code unit outside the class are
    determined by the text. *)
Lemma span_unique (p : ascii -> bool) : forall (w w' : text) c c' x x',
  Forall (fun a => p a = true) w -> Forall (fun a => p a = true) w' ->
  p c = false -> p c' = false ->
  w ++ c :: x = w' ++ c' :: x' -> w = w' /\ x = x'.
Proof.
  induction w as [|a w IH]; intros [|a' w'] c c' x x' Hw Hw' Hc Hc' E; simpl in E.
  - by inversion E.
  - inversion E; subst. inversion Hw'; subst. congruence.
  - inversion E; subst. inversion Hw; subst. congruence.
  - inversion E; subst. inversion Hw; inversion Hw'; subst.
    destruct (IH w' c c' x x') as [-> ->]; done.
Qed.

Lemma export_phrase_unique w1 w2 w1' w2' t t' :
  spaces w1 -> spaces w2 -> spaces w1' -> spaces w2' ->
  export_phrase w1 w2 ++ t = export_phrase w1' w2' ++ t' ->
  w1 = w1' /\ w2 = w2' /\ t = t'.
Proof.
  intros F1 F2 F1' F2' E. unfold export_phrase in E. app_norm in E.
  injection E as E.
  apply (span_unique is_space) in E as [-> E]; try done.
  injection E as E.
  apply (span_unique is_space) in E as [-> E]; try done.
  injection E as E. done.
Qed.

(** In a keyword phrase, the only [e] after the first code unit is the one
    of [default], followed by [f]. *)
Lemma export_phrase_e w1 w2 d :
  spaces w1 -> spaces w2 -> 1 <= d ->
  export_phrase w1 w2 !! d = Some "e"%char ->
  export_phrase w1 w2 !! S d = Some "f"%char.
Proof.
  intros F1 F2 Hd. unfold export_phrase. simpl.
  do 6 (destruct d as [|d]; [simpl; first [lia | congruence]|]). simpl.
  intros H. apply lookup_app_Some in H as [H|[Hl H]].
  { apply list_elem_of_lookup_2 in H. unfold spaces in F1.
    rewrite Forall_forall in F1. apply F1 in H. done. }
  rewrite lookup_app_r by lia.
  replace (S d - length w1) with (S (d - length w1)) by lia.
  remember (d - length w1) as j eqn:Ej. clear Ej Hl.
  do 7 (destruct j as [|j]; [simpl in *; congruence|]). simpl in *.
  apply lookup_app_Some in H as [H|[Hl H]].
  { apply list_elem_of_lookup_2 in H. unfold spaces in F2.
    rewrite Forall_forall in F2. apply F2 in H. done. }
  remember (j - length w2) as i eqn:Ei. clear Ei Hl.
  do 8 (destruct i as [|i]; [simpl in *; congruence|]). simpl in H. done.
Qed.

Lemma app_suffix_of_length {A} (a b p t : list A) :
  a ++ p = b ++ t -> length a <= length b -> exists u, p = u ++ t.
Proof.
  intros E Hl. apply app_eq_app in E as [l [[-> ->]|[-> ->]]].
  - rewrite length_app in Hl. destruct l; [|simpl in Hl; lia].
    exists []. reflexivity.
  - exists l. reflexivity.
Qed.

(** The first keyword phrase of a text ends no later than any given one:
    what follows a keyword phrase in the text also follows the first one. *)
Lemma first_export_function_before pre0 w1 w2 tail b e :
  w1 <> [] -> spaces w1 -> w2 <> [] -> spaces w2 ->
  scan no_flags re_export_default_function [] (pre0 ++ export_phrase w1 w2 ++ tail)
    = Some (b, e) ->
  exists u, ahead e = u ++ tail.
Proof.
  intros N1 F1 N2 F2 H.
  assert (Hfirst : length (seen b) <= length pre0).
  { pose proof (scan_first no_flags _ pre0 [] _ b e H) as Hf.
    rewrite Nat.add_0_r in Hf. apply Hf.
    destruct (export_function_matches (rev pre0 ++ []) w1 w2 tail N1 F1 N2 F2)
      as (e' & Hm & _).
    eapply run_complete; [exact Hm | done]. }
  apply scan_state in H as (Hm & HT & _).
  apply export_function_shape in Hm as (w1' & w2' & N1' & F1' & N2' & F2' & [_ Ha]).
  rewrite Ha in HT. set (sk := rev (seen b)) in *.
  assert (Hsk : length sk <= length pre0) by (unfold sk; by rewrite length_rev).
  clear Hfirst Ha.
  destruct (decide (length sk = length pre0)) as [Heq|Hne].
  - (* the first phrase is the given one *)
    apply app_inj_1 in HT as [_ HT]; [|done].
    apply export_phrase_unique in HT as (_ & _ & ->); try done.
    exists []. reflexivity.
  - (* the first phrase starts earlier: it ends before the given one starts *)
    assert (Hend : length sk + length (export_phrase w1' w2') <= length pre0).
    { destruct (Nat.le_gt_cases (length sk + length (export_phrase w1' w2')) (length pre0))
        as [|Hgt]; [done|exfalso].
      set (d := length pre0 - length sk).
      assert (He : export_phrase w1' w2' !! d = Some "e"%char).
      { assert (E0 : (pre0 ++ export_phrase w1 w2 ++ tail) !! (length pre0) = Some "e"%char).
        { rewrite lookup_app_r by lia. by rewrite Nat.sub_diag. }
        rewrite HT in E0. rewrite lookup_app_r in E0 by lia.
        rewrite lookup_app_l in E0 by (unfold d; lia). exact E0. }
      apply export_phrase_e in He; [|done|done|unfold d; lia].
      assert (E1 : (pre0 ++ export_phrase w1 w2 ++ tail) !! (S (length pre0)) = Some "x"%char).
      { rewrite lookup_app_r by lia.
        by replace (S (length pre0) - length pre0) with 1 by lia. }
      rewrite HT in E1. rewrite lookup_app_r in E1 by lia.
      replace (S (length pre0) - length sk) with (S d) in E1 by (unfold d; lia).
      apply (lookup_app_l_Some _ (ahead e)) in He. congruence. }
    rewrite !app_assoc in HT. symmetry in HT.
    apply app_suffix_of_length in HT; [done|].
    rewrite !length_app. lia.
Qed.


(** The export strip is structural. Where the text left by the import
    removal has a default-exported named function
    ([export default function name]) followed by a body and by further
    top-level declarations, the sanitizer keeps everything after the keyword
    phrase verbatim: its output is the text with the first
    [export default function] phrase replaced by [function], and it ends
    with the name, the body and the trailing declarations exactly as
    written (no closing brace is removed). *)
Lemma sanitize_preserves_trailing_declarations
  (codeBody pre0 w1 w2 w3 name body trailing : text) :
  removeImports (trim codeBody)
    = pre0 ++ export_phrase w1 w2 ++ w3 ++ name ++ body ++ trailing ->
  w1 <> [] -> spaces w1 -> w2 <> [] -> spaces w2 -> w3 <> [] -> spaces w3 ->
  name <> [] -> word_chars name ->
  exists pre k1 k2 u target,
    removeImports (trim codeBody)
      = pre ++ export_phrase k1 k2 ++ u ++ w3 ++ name ++ body ++ trailing /\
    spaces k1 /\ spaces k2 /\
    sanitize codeBody
      = (pre ++ str "function" ++ u ++ w3 ++ name ++ body ++ trailing,
         str "return " ++ target ++ str ";").
Proof.
  intros HT N1 F1 N2 F2 N3 F3 N4 F4. unfold sanitize. rewrite HT.
  set (tail := w3 ++ name ++ body ++ trailing).
  set (T := pre0 ++ export_phrase w1 w2 ++ tail).
  (* the three searches of the strategy step succeed *)
  destruct (function_name_matches (rev pre0 ++ []) w1 w2 w3 name (body ++ trailing))
    as (en & Hn); try done.
  destruct (export_default_of_function_name _ _ Hn) as [[e1 H1] [e2 H2]].
  assert (Htest : test no_flags re_export_default T = true).
  { unfold test, T, tail.
    destruct (scan_complete no_flags _ pre0 [] _ e1 H1) as [[? ?] ->]. done. }
  assert (Hname : is_Some (scan no_flags re_export_default_function_name [] T)).
  { unfold T, tail. eapply scan_complete. exact Hn. }
  assert (Hfun : is_Some (scan no_flags re_export_default_function [] T)).
  { unfold T, tail. eapply scan_complete. exact H2. }
  destruct Hname as [[bn en'] Hname]. destruct Hfun as [[b e] Hfun].
  (* the first keyword phrase ends before the name, so the rest is kept *)
  destruct (first_export_function_before pre0 w1 w2 tail b e N1 F1 N2 F2 Hfun) as [u Hu].
  pose proof (scan_state _ _ _ _ _ Hfun) as (Hm & Htext & _).
  apply export_function_shape in Hm as (k1 & k2 & _ & K1 & _ & K2 & [_ Ha]).
  exists (rev (seen b)), k1, k2, u, (capture1 (rev (groups en'))).
  split; [|split; [done|split; [done|]]].
  - fold T. rewrite Htext, Ha, Hu. reflexivity.
  - unfold chooseStrategy. rewrite Htest. unfold match_groups, replace.
    rewrite Hname, Hfun, Hu. reflexivity.
Qed.

(** *** Texts without imports *)

Lemma startsWith_app p t : startsWith (p ++ t) p = true.
Proof. induction p as [|c p IH]; simpl; [done|]. by destruct (decide (c = c)). Qed.

Lemma includes_unfold s p :
  includes s p = startsWith s p || match s with [] => false | _ :: s' => includes s' p end.
Proof. by destruct s. Qed.

Lemma includes_app a p t : includes (a ++ p ++ t) p = true.
Proof.
  induction a as [|c a IH]; rewrite includes_unfold.
  - simpl. by rewrite startsWith_app.
  - simpl. rewrite IH. apply orb_true_r.
Qed.

(** Both import patterns can only match where the word [import] occurs. *)
Lemma import_match_includes r s b e :
  scan flag_m (seqs (Bol :: Star true ws :: lit (str "import") :: r)) [] s = Some (b, e) ->
  includes s (str "import") = true.
Proof.
  intros H. apply scan_state in H as (Hm & Hs & _).
  assert (Hshape : exists w rest, ahead b = w ++ str "import" ++ rest).
  { destruct r as [|r0 r]; revert Hm; cbn [seqs matches].
    - intros (m1 & [_ ->] & m2 & H2 & H3).
      apply (matches_star_cls flag_m true is_space) in H2 as (w & _ & [_ Ha] & _).
      apply matches_lit in H3 as (w' & Hw' & [_ Ha'] & _).
      apply Forall2_chr_exact in Hw' as ->. exists w, (ahead e). by rewrite Ha, Ha'.
    - intros (m1 & [_ ->] & m2 & H2 & m3 & H3 & _).
      apply (matches_star_cls flag_m true is_space) in H2 as (w & _ & [_ Ha] & _).
      apply matches_lit in H3 as (w' & Hw' & [_ Ha'] & _).
      apply Forall2_chr_exact in Hw' as ->. exists w, (ahead m3). by rewrite Ha, Ha'. }
  destruct Hshape as (w & rest & Ha). rewrite Hs, Ha, app_assoc. apply includes_app.
Qed.

Lemma replace_all_no_match fl r rep s :
  scan fl r [] s = None -> replace_all fl r rep s = s.
Proof. intros H. unfold replace_all. simpl. by rewrite H. Qed.

(** A text in which the word [import] does not occur passes the import
    removal unchanged. *)
Lemma removeImports_import_free s :
  includes s (str "import") = false -> removeImports s = s.
Proof.
  intros H. unfold removeImports.
  assert (H1 : replace_all flag_m re_import_statement [] s = s).
  { apply replace_all_no_match.
    destruct (scan flag_m re_import_statement [] s) as [[b e]|] eqn:E; [|done].
    apply import_match_includes in E. congruence. }
  rewrite H1. apply replace_all_no_match.
  destruct (scan flag_m re_import_line [] s) as [[b e]|] eqn:E; [|done].
  apply import_match_includes in E. congruence.
Qed.

(** C2. The trailing declaration is lost when the module starts with an
    import that has no semicolon: the first import pattern runs from
    [import] to the semicolon that ends the last line, so the import
    removal deletes the exported function and the declaration after it, and
    the sanitizer wraps an empty body. With the semicolon after the import
    the same module keeps its trailing declaration. *)
Theorem import_removal_drops_trailing_declaration :
  let module_ :=
    str "export default function Foo() { return <a/>; }" ++ LF ++ str "const helper = 1;" in
  let codeBody := str "import React from 'react'" ++ LF ++ module_ in
  removeImports (trim codeBody) = [] /\
  sanitize codeBody = (wrapBody [], str "return DynamicComponent;") /\
  includes (fst (sanitize codeBody)) (str "const helper = 1;") = false /\
  sanitize (str "import React from 'react';" ++ LF ++ module_)
  = (LF ++ str "function Foo() { return <a/>; }" ++ LF ++ str "const helper = 1;",
     str "return Foo;").
Proof. vm_compute. repeat split. Qed.

(** On that module the current sanitizer yields the two declarations
    untouched, while the earliest one loses the closing brace of the
    helper. *)
Example sanitize_helper_module :
  sanitize helper_module
  = (str "function Foo() { return <a/>; }
function helper() { return 1; }", str "return Foo;").
Proof. vm_compute. reflexivity. Qed.

Example legacy_strip_loses_helper_brace :
  LegacySanitizer.stripWrapper (trim helper_module)
  = str " return <a/>; }
function helper() { return 1; ".
Proof. vm_compute. reflexivity. Qed.

(** C4. The four literal shapes: a bare body is wrapped as the body of the
    arrow function bound to [DynamicComponent], which is returned; a
    default-exported named function [Foo] and a default-exported identifier
    [Foo] make [Foo] the call target; a default-exported anonymous expression
    is bound to [DynamicComponent], which is returned. *)
Theorem shape_classification_table :
  sanitize (str "return <a/>;")
    = (LF ++ str "        const DynamicComponent = (props) => {" ++ LF
          ++ str "          return <a/>;" ++ LF
          ++ str "        };" ++ LF
          ++ str "      ",
       str "return DynamicComponent;") /\
  sanitize (str "export default function Foo(){...}")
    = (str "function Foo(){...}", str "return Foo;") /\
  sanitize (str "export default Foo;")
    = ([], str "return Foo;") /\
  sanitize (str "const Foo = () => <a/>;" ++ LF ++ str "export default Foo;")
    = (str "const Foo = () => <a/>;" ++ LF, str "return Foo;") /\
  sanitize (str "export default () => <a/>;")
    = (str "const DynamicComponent = () => <a/>;", str "return DynamicComponent;").
Proof. repeat split; vm_compute; reflexivity. Qed.

(** Without a default export the text is always the wrapped body. *)
Lemma strategy_body_only cleanBody :
  test no_flags re_export_default cleanBody = false ->
  chooseStrategy cleanBody = (wrapBody cleanBody, str "return DynamicComponent;").
Proof. intros H. unfold chooseStrategy. by rewrite H. Qed.

(** C6, at the failing input: an import without a semicolon followed by a
    statement that ends in one. The first pass takes the import together
    with the statement, so the line [const x = 1;] is lost. *)
Theorem removeImports_takes_following_statement :
  removeImports (str "import a from 'b'" ++ LF ++ str "const x = 1;") = [] /\
  replace_all flag_m re_import_statement []
    (str "import a from 'b'" ++ LF ++ str "const x = 1;") = [] /\
  removeImports (str "import a from 'b';" ++ LF ++ str "const x = 1;")
    = LF ++ str "const x = 1;".
Proof. repeat split; vm_compute; reflexivity. Qed.

End SanitizerFacts.


(** ** The compiler *)

Module CompilerFacts.

Import Sanitizer Compiler CompilerSpec.

Section Facts.

Context {Library UseFrame Component : Type}.
Variable imports : Imports Library UseFrame.

Implicit Types (window : Window Library UseFrame Component) (overrides : Overrides UseFrame).

Lemma compile_without_babel window codeBody overrides :
  Babel window = None ->
  compileComponent imports window codeBody overrides
  = ([ConsoleError (str "Compilation Error:") (LError babelNotLoaded)], inl babelNotLoaded).
Proof.
  intros H. unfold compileComponent. destruct (sanitize codeBody) as [src rs].
  rewrite H. reflexivity.
Qed.

Lemma compile_transform_throws window codeBody overrides transform e :
  Babel window = Some transform ->
  transform (fst (sanitize codeBody)) babelOptions = inl e ->
  compileComponent imports window codeBody overrides
  = ([BabelTransform (fst (sanitize codeBody));
      ConsoleError (str "Babel Transform Failed on:") (LText (fst (sanitize codeBody)));
      ConsoleError (str "Compilation Error:") (LError e)],
     inl e).
Proof.
  intros H Ht. unfold compileComponent. destruct (sanitize codeBody) as [src rs].
  simpl in Ht. rewrite H. unfold try_catch, bind, emit, lift, throw. simpl.
  rewrite Ht. reflexivity.
Qed.

Lemma compile_function_throws window codeBody overrides transform transformed e :
  Babel window = Some transform ->
  transform (fst (sanitize codeBody)) babelOptions = inr transformed ->
  Function_call window capabilityNames
    (functionBody transformed (snd (sanitize codeBody)))
    (capabilityValues imports overrides) = inl e ->
  compileComponent imports window codeBody overrides
  = ([BabelTransform (fst (sanitize codeBody));
      CallFunction (functionBody transformed (snd (sanitize codeBody)));
      ConsoleError (str "Compilation Error:") (LError e)],
     inl e).
Proof.
  intros H Ht Hf. unfold compileComponent. destruct (sanitize codeBody) as [src rs].
  simpl in Ht, Hf. rewrite H. unfold try_catch, bind, emit, lift, throw. simpl.
  rewrite Ht. simpl. rewrite Hf. reflexivity.
Qed.

Lemma compile_returns window codeBody overrides c :
  outcome (compileComponent imports window codeBody overrides) = inr c ->
  exists transform transformed,
    Babel window = Some transform /\
    transform (fst (sanitize codeBody)) babelOptions = inr transformed /\
    Function_call window capabilityNames
      (functionBody transformed (snd (sanitize codeBody)))
      (capabilityValues imports overrides) = inr c.
Proof.
  unfold compileComponent. destruct (sanitize codeBody) as [src rs]. simpl.
  destruct (Babel window) as [transform|]; [|done].
  unfold try_catch, bind, emit, lift, throw, outcome. simpl.
  destruct (transform src babelOptions) as [e|transformed] eqn:Et; simpl; [done|].
  destruct (Function_call window _ _ _) as [e|c'] eqn:Ef; simpl; [done|].
  intros [= ->]. eauto.
Qed.

(** The parameter [useFrame] of the synthesized function is bound to the
    override when there is one, to the library's hook otherwise. *)
Lemma useFrame_capability overrides :
  nth_error capabilityNames 3 = Some (str "useFrame") /\
  nth_error (capabilityValues imports overrides) 3
  = Some (CapUseFrame (default (Fiber_useFrame imports) (useFrame overrides))) /\
  length (capabilityValues imports overrides) = length capabilityNames.
Proof. repeat split. Qed.

(** C7. When the transpiler is not loaded, [compileComponent] throws the
    dedicated error "Babel not loaded..." for every input, having called
    neither the transpiler nor the function constructor; a syntax error of
    the transpiler always leaves a different trace, and reaches the caller
    as a different error whenever the diagnostic does not carry that very
    message. *)
Theorem transpiler_unavailable_fails_fast window codeBody overrides :
  Babel window = None ->
  let r := compileComponent imports window codeBody overrides in
  outcome r = inl babelNotLoaded /\
  trace r = [ConsoleError (str "Compilation Error:") (LError babelNotLoaded)] /\
  (forall src, ~ In (BabelTransform src) (trace r)) /\
  (forall body, ~ In (CallFunction body) (trace r)) /\
  (forall window' codeBody' overrides' transform e,
     Babel window' = Some transform ->
     transform (fst (sanitize codeBody')) babelOptions = inl e ->
     let r' := compileComponent imports window' codeBody' overrides' in
     trace r' <> trace r /\
     (err_message e <> err_message babelNotLoaded -> outcome r' <> outcome r)).
Proof.
  intros H r. unfold r. rewrite (compile_without_babel _ _ _ H).
  cbn [trace outcome fst snd].
  split; [done|]. split; [done|]. split; [|split].
  - intros src [?|[]]. done.
  - intros body [?|[]]. done.
  - intros window' codeBody' overrides' transform e H' Ht. cbv zeta.
    rewrite (compile_transform_throws _ _ _ _ _ H' Ht).
    cbn [trace outcome fst snd]. split; [done|].
    intros Hne [= ->]. done.
Qed.

(** C8. The error thrown by the transpiler is the error thrown by
    [compileComponent], after the text handed to the transpiler has been
    logged; an error of the function constructor or of the constructed
    function is rethrown as well, and a component is returned only when
    both stages returned. *)
Theorem compile_failures_propagate window codeBody overrides :
  let sourceCode := fst (sanitize codeBody) in
  let returnStatement := snd (sanitize codeBody) in
  let r := compileComponent imports window codeBody overrides in
  (forall transform e,
     Babel window = Some transform ->
     transform sourceCode babelOptions = inl e ->
     outcome r = inl e /\
     trace r = [BabelTransform sourceCode;
                ConsoleError (str "Babel Transform Failed on:") (LText sourceCode);
                ConsoleError (str "Compilation Error:") (LError e)]) /\
  (forall transform transformed e,
     Babel window = Some transform ->
     transform sourceCode babelOptions = inr transformed ->
     Function_call window capabilityNames (functionBody transformed returnStatement)
       (capabilityValues imports overrides) = inl e ->
     outcome r = inl e) /\
  (forall c,
     outcome r = inr c ->
     exists transform transformed,
       Babel window = Some transform /\
       transform sourceCode babelOptions = inr transformed /\
       Function_call window capabilityNames (functionBody transformed returnStatement)
         (capabilityValues imports overrides) = inr c).
Proof.
  intros sourceCode returnStatement r. split; [|split].
  - intros transform e H Ht. unfold r.
    by rewrite (compile_transform_throws _ _ _ _ _ H Ht).
  - intros transform transformed e H Ht Hf. unfold r.
    by rewrite (compile_function_throws _ _ _ _ _ _ H Ht Hf).
  - intros c Hc. by apply compile_returns.
Qed.

End Facts.

Lemma transpiler_unavailable_fails_fast_witness :
  outcome (compileComponent stubImports windowWithoutBabel (str "return <a/>;") noOverrides)
  = inl babelNotLoaded.
Proof.
  apply (transpiler_unavailable_fails_fast stubImports windowWithoutBabel
           (str "return <a/>;") noOverrides).
  reflexivity.
Defined.

Lemma compile_failures_propagate_witness :
  outcome (compileComponent stubImports windowRejecting (str "return <a/>") noOverrides)
  = inl unexpectedToken.
Proof.
  apply (compile_failures_propagate stubImports windowRejecting (str "return <a/>") noOverrides)
    with (transform := fun _ _ => inl unexpectedToken); reflexivity.
Defined.

End CompilerFacts.


(** ** The scene host *)

Module HostFacts.

Import Compiler Host CompilerSpec HostSpec.

Section FrameGateFacts.

Context {RootState Delta Callback : Type}.

Implicit Types (subscribers : list (Subscription RootState Delta Callback))
  (callbacks : list (Callback * option nat)).

Lemma map_insert_by {A B} (f : A -> B) (key : A -> nat) (key' : B -> nat) x :
  (forall a, key' (f a) = key a) ->
  forall l, map f (insert_by key x l) = insert_by key' (f x) (map f l).
Proof.
  intros Hkey. induction l as [|y l IH]; simpl; [done|].
  rewrite !Hkey. destruct (key y <=? key x); simpl; [by rewrite IH | done].
Qed.

Lemma registerAll_sorted callbacks : forall sorted,
  registerAll callbacks (map (@gated RootState Delta Callback) sorted)
  = map gated
      (fold_left (fun sorted cb => insert_by (fun c => renderPriority (snd c)) cb sorted)
         callbacks sorted).
Proof.
  induction callbacks as [|cb callbacks IH]; intros sorted; simpl; [done|].
  rewrite <- IH. f_equal. unfold customUseFrame, Fiber_useFrame.
  symmetry. apply (map_insert_by gated (fun c => renderPriority (snd c))). done.
Qed.

Lemma frame_gated simSettings_current callbacks (state : RootState) (delta : Delta) :
  frame simSettings_current (map gated callbacks) state delta
  = if paused simSettings_current then []
    else map (fun cb => Call (fst cb) state delta) callbacks.
Proof.
  unfold frame. induction callbacks as [|cb callbacks IH]; simpl.
  - by destruct (paused _).
  - rewrite IH. by destruct (paused simSettings_current).
Qed.


End FrameGateFacts.

(** Three callbacks: ten paused frames invoke none of them; one frame after
    the flag is cleared invokes each of them once. *)
Example three_callbacks_ten_paused_frames :
  let subscribers := registerAll [(1, Some 2); (2, None); (3, Some 1)] [] in
  let paused_frames := map (fun n => Build_tick {| paused := true |} n 16) (seq 0 10) in
  frames subscribers paused_frames = [] /\
  frames subscribers (paused_frames ++ [Build_tick {| paused := false |} 10 16])
    = [Call 2 10 16; Call 3 10 16; Call 1 10 16].
Proof. split; reflexivity. Qed.

Section SceneFacts.

Context {Library UseFrame Rendered : Type}.
Variable imports : Imports Library UseFrame.
Variable customUseFrame_hook : UseFrame.

Implicit Types (window : Window Library UseFrame (Component Rendered))
  (st : ErrorBoundaryState).

Lemma compile_trace_without_onError window codeBody overrides :
  onErrorCalls (trace (compileComponent imports window codeBody overrides)) = [].
Proof.
  unfold compileComponent. destruct (Sanitizer.sanitize codeBody) as [src rs].
  destruct (Babel window) as [transform|]; [|reflexivity].
  unfold try_catch, bind, emit, lift, throw. simpl.
  destruct (transform src babelOptions); simpl; [reflexivity|].
  destruct (Function_call window _ _ _); reflexivity.
Qed.

Lemma onErrorCalls_app t1 t2 : onErrorCalls (t1 ++ t2) = onErrorCalls t1 ++ onErrorCalls t2.
Proof. unfold onErrorCalls. apply omap_app. Qed.

Lemma or_text_nonempty a b : b <> [] -> or_text a b <> [].
Proof. destruct a; simpl; [done|discriminate]. Qed.

(** The compile step reports a failure of [compileComponent] through
    [onError], once. *)
Lemma compileScene_reports window code err :
  outcome (compileComponent imports window code {| useFrame := Some customUseFrame_hook |})
    = inl err ->
  outcome (compileScene imports customUseFrame_hook window code) = inr None /\
  onErrorCalls (trace (compileScene imports customUseFrame_hook window code))
    = [or_text (err_message err) (str "Failed to compile code")].
Proof.
  intros H. unfold compileScene.
  pose proof (compile_trace_without_onError window code
                {| useFrame := Some customUseFrame_hook |}) as Ht.
  destruct (compileComponent imports window code _) as [t [e|c]]; simpl in *; [|done].
  injection H as ->. unfold try_catch, bind, emit, ret, outcome, trace. simpl.
  split; [done|]. rewrite onErrorCalls_app, Ht. reflexivity.
Qed.

Lemma compileScene_silent window code c :
  outcome (compileComponent imports window code {| useFrame := Some customUseFrame_hook |})
    = inr c ->
  outcome (compileScene imports customUseFrame_hook window code) = inr (Some c) /\
  onErrorCalls (trace (compileScene imports customUseFrame_hook window code)) = [].
Proof.
  intros H. unfold compileScene.
  pose proof (compile_trace_without_onError window code
                {| useFrame := Some customUseFrame_hook |}) as Ht.
  destruct (compileComponent imports window code _) as [t [e|c']]; simpl in *; [done|].
  injection H as ->. unfold try_catch, bind, emit, ret, outcome, trace. simpl.
  split; [done|]. by rewrite app_nil_r.
Qed.

(** C1, as the code has it. When the boundary catches an error thrown by a
    render of the mounted component (the construction or a later update), it
    takes the state [hasError = true] with the message of the error, logs the
    error to the console and shows the fallback with that message; [onError]
    is not invoked. [onError] is invoked, exactly once and with a non-empty
    message, when [compileComponent] throws in the compile step. *)
Theorem boundary_catch_shows_fallback st (Component_ : Component Rendered) n err window code cerr :
  hasError st = false ->
  Component_ n = inl err ->
  outcome (compileComponent imports window code {| useFrame := Some customUseFrame_hook |})
    = inl cerr ->
  renderBoundary st Component_ n
    = ([ConsoleError (str "Runtime Error in Dynamic Component:") (LError err)],
       inr ({| hasError := true; error := err_message err |},
            ErrorFallback (err_message err))) /\
  onErrorCalls (trace (renderBoundary st Component_ n)) = [] /\
  (exists message,
     onErrorCalls (trace (compileScene imports customUseFrame_hook window code)) = [message] /\
     message <> [] /\
     message = or_text (err_message cerr) (str "Failed to compile code")).
Proof.
  intros Hst Hc Hcompile.
  assert (Hr : renderBoundary st Component_ n
    = ([ConsoleError (str "Runtime Error in Dynamic Component:") (LError err)],
       inr ({| hasError := true; error := err_message err |},
            ErrorFallback (err_message err)))).
  { unfold renderBoundary. rewrite Hst, Hc. reflexivity. }
  split; [exact Hr|]. split; [by rewrite Hr|].
  destruct (compileScene_reports window code cerr Hcompile) as [_ Hcalls].
  eexists. split; [exact Hcalls|]. split; [|done].
  by apply or_text_nonempty.
Qed.

(** Once the boundary has caught an error it keeps showing the fallback and
    the component is not rendered again. *)
Lemma boundary_stays_in_fallback st (Component_ : Component Rendered) n :
  hasError st = true ->
  renderBoundary st Component_ n = ([], inr (st, ErrorFallback (error st))).
Proof. intros H. unfold renderBoundary. by rewrite H. Qed.

End SceneFacts.

(** C1 as stated fails: a component that throws when it is constructed is
    caught by the boundary, and [onError] has not been invoked. *)
Lemma boundary_catch_without_onError :
  exists sc,
    outcome (mountYielding throwsOnConstruction) = inr sc /\
    hasError (boundary sc) = true /\
    shown sc = Some (ErrorFallback (str "boom")) /\
    onErrorCalls (trace (mountYielding throwsOnConstruction)) = [] /\
    length (onErrorCalls (trace (mountYielding throwsOnConstruction))) <> 1.
Proof. eexists. vm_compute. repeat split. discriminate. Qed.

(** The same for a component that throws during its first update. *)
Lemma first_update_catch_without_onError :
  exists sc sc',
    outcome (mountYielding throwsOnFirstUpdate) = inr sc /\
    hasError (boundary sc) = false /\
    outcome (updateScene sc) = inr sc' /\
    hasError (boundary sc') = true /\
    shown sc' = Some (ErrorFallback (str "boom")) /\
    onErrorCalls (trace (mountYielding throwsOnFirstUpdate) ++ trace (updateScene sc)) = [].
Proof. do 2 eexists. vm_compute. repeat split. Qed.

Lemma boundary_catch_shows_fallback_witness :
  renderBoundary initialBoundaryState throwsOnConstruction 0
  = ([ConsoleError (str "Runtime Error in Dynamic Component:") (LError boom)],
     inr ({| hasError := true; error := str "boom" |}, ErrorFallback (str "boom"))).
Proof.
  apply (boundary_catch_shows_fallback stubImports tt
           initialBoundaryState throwsOnConstruction 0 boom
           {| Babel := None; Function_call := fun _ _ _ => inr throwsOnConstruction |}
           (str "return <mesh />;") babelNotLoaded);
    reflexivity.
Defined.

End HostFacts.


(** ** Lookup tables *)

Module TableFacts.

Lemma lookup_assign_same : forall (t : table) key v,
  lookup_key (assign_key t key v) key = Some v.
Proof.
  induction t as [|[k v0] t IH]; intros key v; simpl.
  - destruct (decide (key = key)); congruence.
  - destruct (decide (k = key)) as [->|Hne]; simpl.
    + destruct (decide (key = key)); congruence.
    + destruct (decide (k = key)); [contradiction | apply IH].
Qed.

Lemma lookup_assign_other : forall (t : table) key key' v,
  key <> key' -> lookup_key (assign_key t key v) key' = lookup_key t key'.
Proof.
  induction t as [|[k v0] t IH]; intros key key' v Hne; simpl.
  - destruct (decide (key = key')); [contradiction | reflexivity].
  - destruct (decide (k = key)) as [->|Hk]; simpl.
    + destruct (decide (key = key')); [contradiction | reflexivity].
    + destruct (decide (k = key')); [reflexivity | apply IH, Hne].
Qed.

Lemma assign_assign_same : forall (t : table) key v v',
  assign_key (assign_key t key v) key v' = assign_key t key v'.
Proof.
  induction t as [|[k v0] t IH]; intros key v v'; simpl.
  - destruct (decide (key = key)); congruence.
  - destruct (decide (k = key)) as [->|Hne]; simpl.
    + destruct (decide (key = key)); congruence.
    + destruct (decide (k = key)); [contradiction | rewrite IH; reflexivity].
Qed.

Lemma read_key_undefined t key :
  lookup_key t key = None -> ~ In key objectPrototypeKeys -> read_key t key = Undefined.
Proof.
  intros Hown Hproto. unfold read_key. rewrite Hown.
  destruct (decide (key ∈ objectPrototypeKeys)) as [Hin|]; [|done].
  by apply list_elem_of_In in Hin.
Qed.

Lemma read_key_own t key v : read_key t key = Own v <-> lookup_key t key = Some v.
Proof.
  unfold read_key. destruct (lookup_key t key) as [v'|].
  - split; intros [= ->]; done.
  - destruct (decide (key ∈ objectPrototypeKeys)); split; done.
Qed.

Lemma read_assign_same t key v : read_key (assign_key t key v) key = Own v.
Proof. apply read_key_own, lookup_assign_same. Qed.

End TableFacts.

(** ** The session handlers *)

Module AppFacts.

Import App AppSpec TableFacts.

Section Facts.

Variable PERFECT_SIMULATIONS : table.

Lemma findSimulation_state st st' key :
  customSims st' = customSims st ->
  findSimulation PERFECT_SIMULATIONS st' key = findSimulation PERFECT_SIMULATIONS st key.
Proof. intros H. unfold findSimulation. by rewrite H. Qed.


(** Resuming a suspended handler installs its result whatever the state
    has become in the meantime. *)
Lemma generation_resume_installs result st :
  snd (performGeneration_resume (inr result) st)
  = setStatus READY (setRefreshKey (fun prev => prev + 1) (setData (generatedData result) st)).
Proof. reflexivity. Qed.

Lemma preset_resume_installs sim st :
  handlePresetClick_resume sim st
  = setStatus READY (setRefreshKey (fun prev => prev + 1) (setData (presetData sim) st)).
Proof. reflexivity. Qed.

End Facts.



End AppFacts.


(** ** The generation service *)

Module GeminiFacts.

Import Gemini GeminiSpec.

Lemma canon_lt x : chr_matches flag_i "<" x = true -> x = "<"%char.
Proof.
  unfold chr_matches. simpl. destruct (decide _) as [E|]; [|done]. intros _.
  revert E. destruct x as [[] [] [] [] [] [] [] []]; vm_compute; congruence.
Qed.

Lemma scene_primitive_shape s e :
  matches flag_i re_scene_primitive s e -> primitive_at (ahead s).
Proof.
  unfold re_scene_primitive. cbn [seqs matches].
  intros (m & (x & t & Ha & Hx & ->) & m2 & Halt & _).
  apply canon_lt in Hx as ->.
  assert (Hw : exists w, primitive_word w /\ passes (advance s "<" t) w m2).
  { unfold primitive_word, primitive_names.
    destruct Halt as [H|[H|[H|[H|H]]]];
      apply matches_lit in H as (w & Hw & Hp & _); exists w; (split; [|done]);
      eexists; (split; [|exact Hw]); simpl; auto 10. }
  destruct Hw as (w & Hw & [_ Hp]). simpl in Hp.
  exists w, (ahead m2). split; [|done]. by rewrite Ha, Hp.
Qed.

Lemma scene_primitive_matches sn t :
  primitive_at t -> exists e, matches flag_i re_scene_primitive (MState sn t []) e.
Proof.
  intros (w & rest & -> & (w0 & Hin & Hw)).
  set (s1 := MState ("<"%char :: sn) (w ++ rest) []).
  set (s2 := MState (rev w ++ seen s1) rest []).
  exists (close_group s1 s2).
  unfold re_scene_primitive. cbn [seqs matches].
  exists s1. split.
  { exists "<"%char, (w ++ rest). done. }
  exists s2. split; [|done].
  assert (Hlit : matches flag_i (lit w0) s1 s2).
  { apply matches_lit. exists w. split; [done|]. split; [|done]. split; reflexivity. }
  unfold primitive_names in Hin. simpl in Hin.
  destruct Hin as [<-|[<-|[<-|[<-|[<-|[]]]]]]; auto 10.
Qed.

Lemma hasMesh_iff code :
  test flag_i re_scene_primitive code = true <-> has_primitive code.
Proof.
  unfold has_primitive. rewrite test_true_iff. split.
  - intros (sk & rest & e & -> & Hm). apply scene_primitive_shape in Hm. eauto.
  - intros (sk & t & -> & Hp).
    destruct (scene_primitive_matches (rev sk) t Hp) as [e He]. eauto.
Qed.

(** No name contains [<], and none starts with [g] or [/]. *)
Lemma primitive_word_no_lt w : primitive_word w -> Forall (fun x => x <> "<"%char) w.
Proof.
  intros (w0 & Hin & Hw).
  assert (H0 : Forall (fun c => chr_matches flag_i c "<" = false) w0).
  { unfold primitive_names in Hin. simpl in Hin.
    destruct Hin as [<-|[<-|[<-|[<-|[<-|[]]]]]]; repeat constructor. }
  clear Hin. induction Hw as [|c x w0 w Hc _ IH]; [constructor|].
  inversion H0; subst. constructor; [|by apply IH]. intros ->. congruence.
Qed.

Lemma primitive_word_head w :
  primitive_word w ->
  exists h t, w = h :: t /\ h <> "g"%char /\ h <> "/"%char.
Proof.
  intros (w0 & Hin & Hw).
  assert (H0 : exists c0 t0, w0 = c0 :: t0 /\
                 chr_matches flag_i c0 "g" = false /\ chr_matches flag_i c0 "/" = false).
  { unfold primitive_names in Hin. simpl in Hin.
    destruct Hin as [<-|[<-|[<-|[<-|[<-|[]]]]]]; do 2 eexists; (split; [reflexivity|]);
      split; reflexivity. }
  destruct H0 as (c0 & t0 & -> & Hg & Hs).
  inversion Hw as [|? h ? t Hc _]; subst. exists h, t. split; [done|].
  split; intros ->; congruence.
Qed.

Lemma primitive_at_lt c t : primitive_at (c :: t) -> c = "<"%char.
Proof. intros (w & rest & E & _). by injection E. Qed.

Lemma primitive_at_next c t :
  primitive_at ("<"%char :: c :: t) -> c <> "g"%char /\ c <> "/"%char.
Proof.
  intros (w & rest & E & Hw). destruct (primitive_word_head w Hw) as (h & tw & -> & Hg & Hs).
  injection E as ->. done.
Qed.

Lemma not_primitive_at_nil : ~ primitive_at [].
Proof. intros (w & rest & E & _). discriminate. Qed.

(** A code unit that cannot start a scene primitive can be dropped. *)
Lemma has_primitive_skip c t :
  ~ primitive_at (c :: t) -> has_primitive (c :: t) -> has_primitive t.
Proof.
  intros Hn (sk & u & E & Hu). destruct sk as [|c' sk]; simpl in E.
  - subst u. done.
  - injection E as _ ->. exists sk, u. done.
Qed.

Lemma has_primitive_cons c t : has_primitive t -> has_primitive (c :: t).
Proof. intros (sk & u & -> & Hu). exists (c :: sk), u. done. Qed.

Ltac skip_unit H :=
  apply has_primitive_skip in H;
  [ | let N := fresh in
      intros N;
      first [ apply primitive_at_lt in N; discriminate
            | apply primitive_at_next in N; destruct N; congruence ] ].

Lemma closing_tag_has_no_primitive : ~ has_primitive (str "</group>);").
Proof.
  intros H. simpl in H. do 10 (skip_unit H).
  destruct H as (sk & t & E & Ht). destruct sk; [|discriminate]. simpl in E. subst t.
  by apply not_primitive_at_nil in Ht.
Qed.

(** A name that starts in the code does not run into the closing tag. *)
Lemma name_before_tag (code w rest tag : text) :
  Forall (fun x => x <> "<"%char) w ->
  code ++ "<"%char :: tag = w ++ rest -> exists r, code = w ++ r.
Proof.
  intros Hw E. apply app_eq_app in E as [l [[-> _]|[-> E]]]; [eauto|].
  destruct l as [|c l]; [exists []; by rewrite !app_nil_r|].
  injection E as <- _. apply Forall_app in Hw as [_ Hw]. inversion Hw; subst. done.
Qed.

Lemma closing_tag_completes_no_primitive code :
  has_primitive (code ++ str "</group>);") -> has_primitive code.
Proof.
  induction code as [|c code IH]; intros H.
  - by apply closing_tag_has_no_primitive in H.
  - destruct H as (sk & t & E & Ht). destruct sk as [|c' sk]; simpl in E.
    + subst t. pose proof Ht as (w & rest & E & Hw). injection E as -> E.
      apply name_before_tag in E as [r ->]; [|by apply primitive_word_no_lt].
      exists [], ("<"%char :: w ++ r). split; [done|]. exists w, r. done.
    + injection E as _ E. apply has_primitive_cons, IH. exists sk, t. done.
Qed.

(** The wrapper of the auto-fix neither adds nor completes a scene
    primitive. *)
Lemma wrapper_adds_no_primitive code :
  test flag_i re_scene_primitive (str "return (<group>" ++ code ++ str "</group>);") = true ->
  test flag_i re_scene_primitive code = true.
Proof.
  rewrite !hasMesh_iff. intros H. apply closing_tag_completes_no_primitive.
  simpl in H. do 15 (skip_unit H). exact H.
Qed.

Lemma validate_needs_primitive code :
  test flag_i re_scene_primitive code = false -> validateSimulationCode code = false.
Proof. intros H. unfold validateSimulationCode. by rewrite H. Qed.

(** Code without a scene primitive fails validation, auto-fixed or not. *)
Lemma autoFix_keeps_invalid json :
  test flag_i re_scene_primitive (componentCode json) = false ->
  validateSimulationCode (componentCode (autoFix json)) = false.
Proof.
  intros H. apply validate_needs_primitive. unfold autoFix.
  destruct (negb (includes (componentCode json) (str "return ("))); [|done].
  cbn [componentCode].
  destruct (test flag_i re_scene_primitive (str "return (<group>" ++ _ ++ _)) eqn:E; [|done].
  apply wrapper_adds_no_primitive in E. congruence.
Qed.

Lemma lookup_key_valid t key sim :
  all_valid t -> lookup_key t key = Some sim ->
  validateSimulationCode (componentCode sim) = true.
Proof.
  induction 1 as [|[k v] t Hv _ IH]; simpl; [done|].
  destruct (decide (k = key)); [by intros [= <-] | done].
Qed.

Lemma assign_key_valid t key sim :
  all_valid t -> validateSimulationCode (componentCode sim) = true ->
  all_valid (assign_key t key sim).
Proof.
  intros Ht Hs. induction Ht as [|[k v] t Hv Ht IH]; simpl.
  - by repeat constructor.
  - destruct (decide (k = key)); constructor; done.
Qed.

Section Facts.

Variables (PERFECT_SIMULATIONS INVISIBLE_SIMULATIONS : table).
Variable generateContent : request -> JsError + option text.
Variable JSON_parse : text -> JsError + SimulationResponse.

Local Abbreviation generateWithModel :=
  (generateWithModel generateContent JSON_parse).
Local Abbreviation generateSimulation :=
  (generateSimulation PERFECT_SIMULATIONS INVISIBLE_SIMULATIONS generateContent JSON_parse).

(** The model path throws when the auto-fixed code fails validation. *)
Lemma model_rejects_invalid cache userPrompt lowerPrompt research text_ parsed :
  generateContent (researchRequest userPrompt) = inr research ->
  generateContent (codeRequest userPrompt research) = inr (Some text_) ->
  text_ <> [] ->
  JSON_parse text_ = inr parsed ->
  validateSimulationCode (componentCode (autoFix parsed)) = false ->
  generateWithModel cache userPrompt lowerPrompt
  = ([ConsoleError (str "Gemini API Error:") (LError missingElements)], inl missingElements).
Proof.
  intros Hr Hc Hne Hp Hv. unfold Gemini.generateWithModel.
  rewrite Hr. cbn [bind lift]. rewrite Hc. cbn [bind lift].
  destruct text_ as [|c text_]; [done|]. cbn [truthy_text].
  rewrite Hp. cbn [bind lift]. rewrite Hv. reflexivity.
Qed.

(** What the model path returns has passed validation, and so has what it
    stores in the cache. *)
Lemma model_returns_valid cache userPrompt lowerPrompt answer cache' :
  outcome (generateWithModel cache userPrompt lowerPrompt) = inr (answer, cache') ->
  exists result,
    answer = Response result /\
    validateSimulationCode (componentCode result) = true /\
    cache' = assign_key cache lowerPrompt result /\
    (all_valid cache -> all_valid cache').
Proof.
  unfold Gemini.generateWithModel, try_catch, bind, lift, emit, throw, ret, outcome. simpl.
  destruct (generateContent _) as [e|research]; simpl; [done|].
  destruct (generateContent _) as [e|codeResponse]; simpl; [done|].
  destruct (truthy_text codeResponse) as [text_|]; simpl; [|done].
  destruct (JSON_parse text_) as [e|parsed]; simpl; [done|].
  destruct (validateSimulationCode (componentCode (autoFix parsed))) eqn:Hv; simpl; [|done].
  intros [= <- <-]. eexists. split; [done|]. split; [done|]. split; [done|].
  intros Hc. by apply assign_key_valid.
Qed.

(** C9. When the model is consulted (no library entry matches the prompt
    and the read of the cache under the lower-cased prompt is undefined) and
    the code it generates fails validation after the auto-fix, in
    particular when the generated code contains no scene primitive,
    [generateSimulation] throws "Generated code missing 3D elements." and
    returns no result; [performGeneration] then leaves the current
    simulation and the mount generation [refreshKey] untouched, so nothing
    is mounted. *)
Theorem generation_rejects_invalid_code cache userPrompt research text_ parsed
  (st : App.AppState) :
  let lowerPrompt := trim (toLowerCase userPrompt) in
  visibleMatch PERFECT_SIMULATIONS lowerPrompt = None ->
  shadowKey INVISIBLE_SIMULATIONS lowerPrompt = None ->
  read_key cache lowerPrompt = Undefined ->
  generateContent (researchRequest userPrompt) = inr research ->
  generateContent (codeRequest userPrompt research) = inr (Some text_) ->
  text_ <> [] ->
  JSON_parse text_ = inr parsed ->
  validateSimulationCode (componentCode (autoFix parsed)) = false \/
  test flag_i re_scene_primitive (componentCode parsed) = false ->
  generateSimulation cache userPrompt
  = ([ConsoleError (str "Gemini API Error:") (LError missingElements)], inl missingElements) /\
  let st' := snd (App.performGeneration_resume (inl missingElements) st) in
  App.data st' = App.data st /\
  App.refreshKey st' = App.refreshKey st /\
  App.status st' = App.ERROR /\
  App.error st' = Some (str "Generated code missing 3D elements.").
Proof.
  intros lowerPrompt Hv Hs Hc Hr Hcode Hne Hp Hinvalid. split; [|done].
  unfold Gemini.generateSimulation. fold lowerPrompt. rewrite Hv, Hs, Hc.
  eapply model_rejects_invalid; eauto.
  destruct Hinvalid as [H|H]; [done | by apply autoFix_keeps_invalid].
Qed.

(** With a cache of validated results, every response that does not come
    from the two libraries has passed validation. *)
Lemma generated_result_valid cache userPrompt result cache' :
  visibleMatch PERFECT_SIMULATIONS (trim (toLowerCase userPrompt)) = None ->
  shadowKey INVISIBLE_SIMULATIONS (trim (toLowerCase userPrompt)) = None ->
  all_valid cache ->
  outcome (generateSimulation cache userPrompt) = inr (Response result, cache') ->
  validateSimulationCode (componentCode result) = true /\ all_valid cache'.
Proof.
  intros Hv Hs Hvalid. unfold Gemini.generateSimulation. rewrite Hv, Hs.
  destruct (read_key cache _) as [cached|member|] eqn:Hc.
  - intros [= <- <-]. split; [|done]. apply TableFacts.read_key_own in Hc.
    eapply lookup_key_valid; eauto.
  - intros [=].
  - intros H. apply model_returns_valid in H as (r & [= <-] & H1 & _ & H2). auto.
Qed.

End Facts.

(** Validation sees the code after the auto-fix: a bare primitive fails it
    as generated and passes once wrapped. *)
Example autoFix_can_repair :
  let generated := {| componentCode := str "<mesh />"; explanation := []; title := [];
                      sources := None |} in
  validateSimulationCode (componentCode generated) = false /\
  componentCode (autoFix generated) = str "return (<group><mesh /></group>);" /\
  validateSimulationCode (componentCode (autoFix generated)) = true.
Proof. vm_compute. repeat split. Qed.

(** C9 as stated fails: a bare primitive fails validation as generated,
    and [generateSimulation] returns it as a successful result once the
    auto-fix has wrapped it. *)
Lemma repaired_code_is_returned :
  validateSimulationCode (componentCode bareMesh) = false /\
  generateSimulation [] [] (fst (answering bareMesh)) (snd (answering bareMesh))
    [] (str "A spinning box")
  = ([], inr (Response (withSources (autoFix bareMesh) []),
              [(str "a spinning box", withSources (autoFix bareMesh) [])])) /\
  componentCode (autoFix bareMesh) = str "return (<group><mesh /></group>);".
Proof. vm_compute. repeat split. Qed.

Lemma generation_rejects_invalid_code_witness :
  generateSimulation [] [] (fst (answering bareGeometry)) (snd (answering bareGeometry))
    [] (str "A spinning box")
  = ([ConsoleError (str "Gemini API Error:") (LError missingElements)], inl missingElements).
Proof.
  apply (generation_rejects_invalid_code [] [] (fst (answering bareGeometry))
           (snd (answering bareGeometry)) [] (str "A spinning box")
           (Some (str "{...}")) (str "{...}") bareGeometry
           AppSpec.initialState);
    try reflexivity.
  - discriminate.
  - right. vm_compute. reflexivity.
Defined.

End GeminiFacts.

(** ** The interface of [App] *)

Module InterfaceFacts.
Import App Interface InterfaceSpec TableFacts.

Lemma count_app f l1 l2 : count f (l1 ++ l2) = count f l1 + count f l2.
Proof. unfold count. rewrite List.filter_app, length_app. reflexivity. Qed.

Lemma count_delete f : forall l i h,
  l !! i = Some h -> count f (delete i l) + (if f h then 1 else 0) = count f l.
Proof.
  unfold count. induction l as [|x l IH]; intros [|i] h Hl; simpl in *; try discriminate.
  - injection Hl as ->. destruct (f h); simpl; lia.
  - specialize (IH _ _ Hl). destruct (f x); simpl; lia.
Qed.

Lemma count_le f g l : (forall h, f h = true -> g h = true) -> count f l <= count g l.
Proof.
  intros Hfg. unfold count. induction l as [|x l IH]; simpl; [lia|].
  destruct (f x) eqn:Hf.
  - rewrite (Hfg _ Hf). simpl. lia.
  - destruct (g x); simpl; lia.
Qed.

Lemma count_In f h l : In h l -> f h = true -> 1 <= count f l.
Proof.
  unfold count. induction l as [|x l IH]; intros Hin Hf; [destruct Hin|]. simpl.
  destruct Hin as [->|Hin].
  - rewrite Hf. simpl. lia.
  - specialize (IH Hin Hf). destruct (f x); simpl; lia.
Qed.

Lemma count_zero f l : count f l = 0 -> List.filter f l = [].
Proof. unfold count. destruct (List.filter f l); simpl; [reflexivity | discriminate]. Qed.

Section Facts.

Variable PERFECT_SIMULATIONS : table.

Local Abbreviation uiStep := (uiStep PERFECT_SIMULATIONS).
Local Abbreviation uiSteps := (uiSteps PERFECT_SIMULATIONS).
Local Abbreviation handleReset := (handleReset PERFECT_SIMULATIONS).

Lemma uiSteps_app l1 l2 s : uiSteps (l1 ++ l2) s = uiSteps l2 (uiSteps l1 s).
Proof. unfold Interface.uiSteps. apply fold_left_app. Qed.

Lemma status_handleReset st : status (handleReset st) = status st.
Proof.
  unfold App.handleReset.
  destruct (findByTitle (customSims st) _) as [[? ?]|];
    [| destruct (findByTitle PERFECT_SIMULATIONS _) as [[? ?]|]]; reflexivity.
Qed.

(** However far [handlePresetClick] gets, it leaves a status in which the
    input bar and the library buttons are disabled. *)
Lemma handlePresetClick_start_busy key st :
  match handlePresetClick_start PERFECT_SIMULATIONS key st with
  | Returned st' | Suspended st' _ | PastGuard st' _ =>
      is_ready_or_idle (status st') = false
  end.
Proof.
  unfold handlePresetClick_start. destruct (findSimulation _ _ _); reflexivity.
Qed.

(** The status and the suspended handler a request starts with. *)
Lemma handleSimulationRequest_starts prompt st :
  is_ready_or_idle (status st) = true ->
  let r := handleSimulationRequest prompt st in
  is_ready_or_idle (status (fst r)) = false /\ exclusive (snd r) = true.
Proof.
  intros Hst. unfold handleSimulationRequest.
  repeat match goal with |- context [if ?b then _ else _] => destruct b end;
    simpl; rewrite ?Hst; auto.
Qed.

Lemma exclusive_invariant_step a s :
  exclusive_invariant s -> exclusive_invariant (uiStep a s).
Proof.
  intros [Hle Hidle]. unfold exclusive_invariant.
  destruct a as [value|question|key| |fileName| |msg|i how]; cbn -[App.handleReset].
  - destruct (nonempty (trim value) && negb (negb (is_ready_or_idle (status (core (ui s))))))
      eqn:Hgo; [| auto].
    apply andb_prop in Hgo as [_ Hready]. rewrite negb_involutive in Hready.
    destruct (handleSimulationRequest_starts value (core (ui s)) Hready) as [Hst Hex].
    simpl. rewrite count_app, (Hidle Hready). unfold count at 1 2. simpl. rewrite Hex. simpl.
    rewrite Hst. split; [lia | discriminate].
  - destruct (nonempty (trim question) && _) eqn:Hgo; [| auto].
    simpl. rewrite count_app. unfold count at 2 4. simpl.
    destruct (is_ready_or_idle (status (core (ui s)))) eqn:Hready; simpl.
    + rewrite (Hidle eq_refl). split; [lia | discriminate].
    + split; [lia | discriminate].
  - destruct (is_ready_or_idle (status (core (ui s))) && _) eqn:Hgo; [| auto].
    apply andb_prop in Hgo as [Hready _].
    pose proof (handlePresetClick_start_busy key (core (ui s))) as Hbusy.
    destruct (handlePresetClick_start _ key _) as [st'|st' p|st' member]; simpl in *.
    + rewrite Hbusy. split; [lia | discriminate].
    + rewrite count_app, (Hidle Hready). unfold count. simpl. rewrite Hbusy.
      split; [lia | discriminate].
    + rewrite Hbusy. split; [lia | discriminate].
  - rewrite status_handleReset. auto.
  - destruct fileName as [name|]; simpl; [| auto].
    rewrite count_app. unfold count at 2 4. simpl. split; [lia | intros H; rewrite (Hidle H); lia].
  - auto.
  - auto.
  - destruct (suspendedHandlers s !! i) as [h|] eqn:Hi; [| destruct how; auto].
    pose proof (count_delete exclusive _ _ _ Hi) as Hdel.
    destruct h as [[prompt|sim delay]|c p srcs|c q orig t|name],
             how as [|settled|settled|settled now|contents now];
      simpl; auto; simpl in Hdel.
    + destruct settled; simpl; (split; [lia | intros _; lia]).
    + split; [lia | intros _; lia].
    + destruct settled; simpl; (split; [lia | intros _; lia]).
    + destruct settled as [err|answer]; simpl.
      * destruct (is_ready_or_idle orig) eqn:Ho; simpl; (split; [lia | intros H; lia]).
      * destruct orig; simpl in *; (split; [lia | intros H; try lia; try discriminate]).
    + split; [lia | intros H; specialize (Hidle H); lia].
Qed.

Lemma exclusive_invariant_steps l : forall s,
  exclusive_invariant s -> exclusive_invariant (uiSteps l s).
Proof.
  induction l as [|a l IH]; intros s H; [exact H|].
  apply IH, exclusive_invariant_step, H.
Qed.

(** X1. Whatever the user does and in whatever order the suspended handlers
    are resumed, at most one generation, library load or modification is
    suspended at a time, and none is while the input bar and the library
    buttons are enabled. *)
Theorem operations_never_overlap (s : UISession) (l : list uiAction) :
  suspendedHandlers s = [] ->
  let s' := uiSteps l s in
  count replaces_scene (suspendedHandlers s') <= 1 /\
  (is_ready_or_idle (status (core (ui s'))) = true ->
   List.filter replaces_scene (suspendedHandlers s') = []).
Proof.
  intros Hnone s'.
  assert (Hinv : exclusive_invariant s').
  { apply exclusive_invariant_steps. unfold exclusive_invariant. rewrite Hnone.
    unfold count. simpl. split; [lia | reflexivity]. }
  destruct Hinv as [Hle Hidle].
  assert (Hsub : count replaces_scene (suspendedHandlers s')
                 <= count exclusive (suspendedHandlers s')).
  { apply count_le. intros [p| | |]; simpl; congruence. }
  split; [lia|].
  intros Hready. apply count_zero. specialize (Hidle Hready). lia.
Qed.

(** *** Locked statuses *)

Lemma locked_in_step v a s :
  is_ready_or_idle v = false -> v <> EXPLAINING ->
  locked_in v s -> locked_in v (uiStep a s).
Proof.
  intros Hv Hne [Hst Hall]. unfold locked_in.
  assert (Hbusy : is_ready_or_idle (status (core (ui s))) = false).
  { destruct Hst as [-> | ->]; [exact Hv | reflexivity]. }
  destruct a as [value|question|key| |fileName| |msg|i how]; cbn -[App.handleReset].
  - rewrite Hbusy, andb_false_r. auto.
  - destruct (nonempty (trim question) && _) eqn:Hgo; [| auto].
    simpl. split; [auto|]. apply Forall_app. split; [exact Hall|].
    constructor; [| constructor]. simpl.
    destruct Hst as [-> | He]; [reflexivity|]. rewrite He in Hgo.
    rewrite andb_false_r in Hgo. discriminate.
  - rewrite Hbusy. auto.
  - rewrite status_handleReset. auto.
  - destruct fileName as [name|]; simpl; [| auto].
    split; [auto|]. apply Forall_app. split; [exact Hall|]. constructor; [exact I | constructor].
  - auto.
  - auto.
  - destruct (suspendedHandlers s !! i) as [h|] eqn:Hi; [| destruct how; auto].
    pose proof (Forall_lookup_1 _ _ _ _ Hall Hi) as Hh.
    pose proof (Forall_delete _ _ i Hall) as Hdel.
    destruct h as [[prompt|sim delay]|c p srcs|c q orig t|name],
             how as [|settled|settled|settled now|contents now];
      simpl in Hh; try contradiction; simpl; auto.
    subst orig. destruct settled as [err|answer]; simpl; [auto|].
    split; [| exact Hdel]. left. destruct v; simpl in *; congruence.
Qed.

Lemma locked_in_steps v l : forall s,
  is_ready_or_idle v = false -> v <> EXPLAINING ->
  locked_in v s -> locked_in v (uiSteps l s).
Proof.
  induction l as [|a l IH]; intros s Hv Hne H; [exact H|].
  apply IH; auto using locked_in_step.
Qed.

Lemma locked_in_disables v s :
  is_ready_or_idle v = false ->
  locked_in v s ->
  (forall value, uiStep (InputSubmit value) s = s) /\
  (forall key, uiStep (PresetButton key) s = s).
Proof.
  intros Hv [Hst _].
  assert (Hbusy : is_ready_or_idle (status (core (ui s))) = false).
  { destruct Hst as [-> | ->]; [exact Hv | reflexivity]. }
  split; intros; simpl; rewrite Hbusy, ?andb_false_r; reflexivity.
Qed.

(** X2. After a generation has failed, with no other handler suspended,
    the status stays [ERROR] (or [EXPLAINING] while a question is being
    answered) whatever happens next: the input bar and the library buttons
    never react again. *)
Theorem failed_generation_locks_the_controls (s : UISession) (prompt : text) (err : JsError)
  (l : list uiAction) :
  suspendedHandlers s = [Core (AwaitGeneration prompt)] ->
  let s' := uiSteps (Resume 0 (GenerationSettled (inl err)) :: l) s in
  (status (core (ui s')) = ERROR \/ status (core (ui s')) = EXPLAINING) /\
  (forall value, uiStep (InputSubmit value) s' = s') /\
  (forall key, uiStep (PresetButton key) s' = s').
Proof.
  intros Hs s'.
  assert (Hlocked : locked_in ERROR s').
  { subst s'. cbn [Interface.uiSteps fold_left]. apply locked_in_steps; [reflexivity | discriminate |].
    simpl. rewrite Hs. unfold resumed. simpl. rewrite Hs. simpl.
    split; [left; reflexivity | constructor]. }
  split; [exact (proj1 Hlocked)|].
  apply (locked_in_disables ERROR); [reflexivity | exact Hlocked].
Qed.

(** X3. A question asked from the panel while a generation is running
    captures the status [GENERATING]. When the generation succeeds first and
    the answer arrives afterwards, the answer puts [GENERATING] back with
    nothing left to end it: the new simulation is installed, and the input
    bar and the library buttons never react again. *)
Theorem question_during_generation_restores_stale_status (s : UISession)
  (prompt question : text) (result : SimulationResponse) (answer : JsError + text) (now : N)
  (l : list uiAction) :
  suspendedHandlers s = [Core (AwaitGeneration prompt)] ->
  status (core (ui s)) = GENERATING ->
  nonempty (trim question) = true ->
  let s1 := uiSteps [PanelAsk question;
                     Resume 0 (GenerationSettled (inr result));
                     Resume 0 (ExplanationSettled answer now)] s in
  let s' := uiSteps l s1 in
  code (data (core (ui s1))) = componentCode result /\
  status (core (ui s1)) = GENERATING /\
  suspendedHandlers s1 = [] /\
  (status (core (ui s')) = GENERATING \/ status (core (ui s')) = EXPLAINING) /\
  (forall value, uiStep (InputSubmit value) s' = s') /\
  (forall key, uiStep (PresetButton key) s' = s').
Proof.
  intros Hs Hst Hq s1 s'.
  assert (H1 : code (data (core (ui s1))) = componentCode result /\
               status (core (ui s1)) = GENERATING /\ suspendedHandlers s1 = []).
  { subst s1. destruct s as [[st qa] hs]. simpl in Hs, Hst. subst hs.
    simpl. rewrite Hq, Hst. simpl. destruct answer; simpl; rewrite ?Hst; auto. }
  destruct H1 as (Hcode & Hstatus & Hnone).
  assert (Hlocked : locked_in GENERATING s').
  { apply locked_in_steps; [reflexivity | discriminate |].
    split; [left; exact Hstatus | rewrite Hnone; constructor]. }
  repeat split; auto; try exact (proj1 Hlocked);
    apply (locked_in_disables GENERATING); auto.
Qed.

(** *** A generation that settles after a reset *)

Lemma refreshKey_handleReset st : refreshKey (handleReset st) = refreshKey st + 1.
Proof.
  unfold App.handleReset.
  destruct (findByTitle (customSims st) _) as [[? ?]|];
    [| destruct (findByTitle PERFECT_SIMULATIONS _) as [[? ?]|]]; reflexivity.
Qed.

Lemma generation_route value st :
  snd (handleSimulationRequest value st) = Core (AwaitGeneration value) ->
  handleSimulationRequest value st
  = (setStatus GENERATING (setCurrentPrompt value (setError None st)),
     Core (AwaitGeneration value)).
Proof.
  unfold handleSimulationRequest.
  repeat match goal with |- context [if ?b then _ else _] => destruct b end;
    simpl; intros H; first [discriminate H | reflexivity].
Qed.

Lemma data_handleReset st st' :
  data st' = data st -> customSims st' = customSims st ->
  data (handleReset st') = data (handleReset st).
Proof.
  intros Hd Hc. unfold App.handleReset. rewrite Hd, Hc.
  destruct (findByTitle (customSims st) _) as [[? ?]|];
    [| destruct (findByTitle PERFECT_SIMULATIONS _) as [[? ?]|]]; simpl; congruence.
Qed.


(** X4. The code of the scene never changes without a remount: every
    action leaves the refresh key or adds one to it, and an action that
    changes the code adds one. *)
Theorem code_change_implies_remount (a : uiAction) (s : UISession) :
  let s' := uiStep a s in
  (refreshKey (core (ui s')) = refreshKey (core (ui s)) \/
   refreshKey (core (ui s')) = refreshKey (core (ui s)) + 1) /\
  (code (data (core (ui s'))) <> code (data (core (ui s))) ->
   refreshKey (core (ui s')) = refreshKey (core (ui s)) + 1).
Proof.
  destruct a as [value|question|key| |fileName| |msg|i how]; cbn -[App.handleReset].
  - destruct (nonempty (trim value) && _); [| tauto].
    unfold handleSimulationRequest.
    repeat match goal with |- context [if ?b then _ else _] => destruct b end; simpl; tauto.
  - destruct (nonempty (trim question) && _); simpl; tauto.
  - destruct (is_ready_or_idle _ && _); [| tauto].
    unfold handlePresetClick_start.
    destruct (findSimulation _ _ _); simpl; tauto.
  - unfold App.handleReset.
    destruct (findByTitle (customSims _) _) as [[? ?]|];
      [| destruct (findByTitle PERFECT_SIMULATIONS _) as [[? ?]|]]; simpl; tauto.
  - destruct fileName; simpl; tauto.
  - tauto.
  - tauto.
  - destruct (suspendedHandlers s !! i) as [h|]; [| destruct how; tauto].
    destruct h as [[prompt|sim delay]|c p srcs|c q orig t|name],
             how as [|settled|settled|settled now|contents now];
      simpl; try tauto; destruct settled; simpl; tauto.
Qed.

(** *** File import *)

Lemma str_inj a b : str a = str b -> a = b.
Proof.
  unfold str. intros H.
  rewrite <- (string_of_list_ascii_of_string a), <- (string_of_list_ascii_of_string b), H.
  reflexivity.
Qed.

Lemma importKey_inj now now' : importKey now = importKey now' -> now = now'.
Proof.
  unfold importKey. intros H. apply app_inv_head in H. apply str_inj in H.
  exact (pretty_N_inj _ _ H).
Qed.

(** X5. A file that was read is added to the simulations of the user
    without touching anything else, and selecting it from the library
    installs the text of the file as the code, under the file name without
    its extension, after the short delay of 200 ms. *)
Theorem imported_file_can_be_selected (s : UISession) (name contents : text) (now : N) :
  is_ready_or_idle (status (core (ui s))) = true ->
  let n := length (suspendedHandlers s) in
  let sim := importedSimulation name contents in
  let s1 := uiSteps [FileChosen (Some name); Resume n (FileRead contents now)] s in
  let s2 := uiStep (PresetButton (importKey now)) s1 in
  let s3 := uiStep (Resume n TimerFired) s2 in
  (lookup_key (customSims (core (ui s1))) (importKey now) = Some sim /\
   suspendedHandlers s1 = suspendedHandlers s /\
   status (core (ui s1)) = status (core (ui s)) /\
   data (core (ui s1)) = data (core (ui s)) /\
   refreshKey (core (ui s1)) = refreshKey (core (ui s))) /\
  suspendedHandlers s2 = suspendedHandlers s ++ [Core (AwaitTimer sim 200)] /\
  (data (core (ui s3))
     = {| code := contents;
          data_explanation := explanation sim;
          data_title := importedTitle name;
          data_sources := Some [] |} /\
   currentPrompt (core (ui s3)) = importedTitle name /\
   status (core (ui s3)) = READY /\
   refreshKey (core (ui s3)) = refreshKey (core (ui s)) + 1 /\
   suspendedHandlers s3 = suspendedHandlers s).
Proof.
  intros Hready n sim s1 s2 s3.
  destruct s as [[st qa] hs]. simpl in Hready, n.
  assert (H1 : s1 = {| ui := {| core := fileLoaded name contents now st; qaHistory := qa |};
                       suspendedHandlers := hs |}).
  { subst s1. simpl. rewrite (list_lookup_middle hs [] _ n eq_refl).
    unfold resumed. simpl. subst n. rewrite (delete_middle hs []), app_nil_r. reflexivity. }
  assert (H2 : s2 = {| ui := {| core := setCurrentPrompt (importedTitle name)
                                          (setError None
                                             (setStatus GENERATING
                                                (fileLoaded name contents now st)));
                                qaHistory := qa |};
                       suspendedHandlers := hs ++ [Core (AwaitTimer sim 200)] |}).
  { subst s2. rewrite H1. simpl. rewrite Hready.
    unfold hasButton, handlePresetClick_start, findSimulation, read_key. simpl.
    rewrite !lookup_assign_same. simpl. reflexivity. }
  assert (H3 : suspendedHandlers s3 = hs /\
               core (ui s3) = handlePresetClick_resume sim
                                (setCurrentPrompt (importedTitle name)
                                   (setError None
                                      (setStatus GENERATING
                                         (fileLoaded name contents now st))))).
  { subst s3. rewrite H2. simpl. rewrite (list_lookup_middle hs [] _ n eq_refl).
    unfold resumed. simpl. subst n. rewrite (delete_middle hs []), app_nil_r. auto. }
  destruct H3 as [H3a H3b].
  rewrite H1, H2, H3a, H3b. simpl.
  rewrite lookup_assign_same. repeat split; reflexivity.
Qed.

(** X6. Files imported at different clock readings get different keys:
    both stay in the library, each under its own key. *)
Theorem imports_at_distinct_times_coexist (st : AppState) (name1 contents1 name2 contents2 : text)
  (now1 now2 : N) :
  now1 <> now2 ->
  let st' := fileLoaded name2 contents2 now2 (fileLoaded name1 contents1 now1 st) in
  lookup_key (customSims st') (importKey now1) = Some (importedSimulation name1 contents1) /\
  lookup_key (customSims st') (importKey now2) = Some (importedSimulation name2 contents2).
Proof.
  intros Hne st'. subst st'. simpl. split.
  - rewrite lookup_assign_other by (intros H; apply importKey_inj in H; congruence).
    apply lookup_assign_same.
  - apply lookup_assign_same.
Qed.

(** X7. Two files read within the same millisecond get the same key: the
    second replaces the first, which is lost as if it had never been
    imported. *)
Theorem imports_in_the_same_millisecond_collide (st : AppState)
  (name1 contents1 name2 contents2 : text) (now : N) :
  fileLoaded name2 contents2 now (fileLoaded name1 contents1 now st)
  = fileLoaded name2 contents2 now st.
Proof.
  unfold fileLoaded. simpl. rewrite assign_assign_same. reflexivity.
Qed.

(** *** The title of an imported file *)

Lemma lower_dot x : chr_matches flag_i "." x = true -> lower_char x = "."%char.
Proof. destruct x as [[] [] [] [] [] [] [] []]; vm_compute; congruence. Qed.

Lemma lower_t x : chr_matches flag_i "t" x = true <-> lower_char x = "t"%char.
Proof. destruct x as [[] [] [] [] [] [] [] []]; vm_compute; split; congruence. Qed.

Lemma lower_s x : chr_matches flag_i "s" x = true <-> lower_char x = "s"%char.
Proof. destruct x as [[] [] [] [] [] [] [] []]; vm_compute; split; congruence. Qed.

Lemma lower_x x : chr_matches flag_i "x" x = true <-> lower_char x = "x"%char.
Proof. destruct x as [[] [] [] [] [] [] [] []]; vm_compute; split; congruence. Qed.

Lemma lower_dot_iff x : chr_matches flag_i "." x = true <-> lower_char x = "."%char.
Proof. destruct x as [[] [] [] [] [] [] [] []]; vm_compute; split; congruence. Qed.

Lemma extension_shape b e :
  matches flag_i re_extension b e -> ahead e = [] /\ is_extension (ahead b).
Proof.
  intros (m1 & Hdot & m2 & (m & Hword & ->) & Heol & ->).
  apply matches_chr in Hdot as (x & Hx & [_ Hx1] & _).
  unfold at_eol in Heol. simpl in Heol.
  destruct (ahead m) eqn:Hm; [| discriminate].
  split; [exact Hm|].
  rewrite Hx1. unfold is_extension.
  apply lower_dot_iff in Hx.
  destruct Hword as [Hw | Hw]; apply matches_lit in Hw as (w & Hall & [_ Hw1] & _);
    rewrite Hw1, Hm, app_nil_r; unfold str in Hall; simpl in Hall;
    repeat match goal with
    | H : Forall2 _ (_ :: _) _ |- _ => inversion H; subst; clear H
    | H : Forall2 _ [] _ |- _ => inversion H; subst; clear H
    end;
    repeat match goal with
    | H : chr_matches flag_i "t" _ = true |- _ => apply lower_t in H
    | H : chr_matches flag_i "s" _ = true |- _ => apply lower_s in H
    | H : chr_matches flag_i "x" _ = true |- _ => apply lower_x in H
    end;
    simpl; [left | right]; congruence.
Qed.

Lemma extension_matches sn ext :
  is_extension ext -> exists e, matches flag_i re_extension (MState sn ext []) e.
Proof.
  intros [H | H]; unfold toLowerCase in H.
  - destruct ext as [|a [|b [|c [|d [|? ?]]]]]; try discriminate.
    injection H as Ha Hb Hc Hd.
    apply lower_dot_iff in Ha. apply lower_t in Hb. apply lower_s in Hc. apply lower_x in Hd.
    eexists. exists (MState (a :: sn) [b; c; d] []). split.
    + exists a, [b; c; d]. auto.
    + eexists. split; [| split; [| reflexivity]].
      * eexists. split; [| reflexivity]. left.
        exists (MState (b :: a :: sn) [c; d] []). split; [exists b, [c; d]; auto|].
        exists (MState (c :: b :: a :: sn) [d] []). split; [exists c, [d]; auto|].
        exists d, []. auto.
      * reflexivity.
  - destruct ext as [|a [|b [|c [|? ?]]]]; try discriminate.
    injection H as Ha Hb Hc.
    apply lower_dot_iff in Ha. apply lower_t in Hb. apply lower_s in Hc.
    eexists. exists (MState (a :: sn) [b; c] []). split.
    + exists a, [b; c]. auto.
    + eexists. split; [| split; [| reflexivity]].
      * eexists. split; [| reflexivity]. right.
        exists (MState (b :: a :: sn) [c] []). split; [exists b, [c]; auto|].
        exists c, []. auto.
      * reflexivity.
Qed.

Lemma extension_no_prefix u ext : is_extension (u ++ ext) -> is_extension ext -> u = [].
Proof.
  unfold is_extension, toLowerCase. intros H1 H2.
  destruct u as [|u0 u]; [reflexivity | exfalso].
  assert (Hlen : length (map lower_char ((u0 :: u) ++ ext))
                 = S (length u + length (map lower_char ext)))
    by (rewrite !length_map, length_app; reflexivity).
  destruct H1 as [H1 | H1], H2 as [H2 | H2]; rewrite H1, H2 in Hlen; simpl in Hlen; try lia.
  assert (u = []) as -> by (destruct u; [reflexivity | simpl in Hlen; lia]).
  destruct ext as [|a ext]; [discriminate|]. simpl in H1, H2. congruence.
Qed.

(** X8. The title of an imported file is its name without the final
    [.tsx] or [.ts], whatever the case of the extension. *)
Theorem importedTitle_strips_extension (base ext : text) :
  is_extension ext -> importedTitle (base ++ ext) = base.
Proof.
  intros Hext. unfold importedTitle, replace.
  destruct (extension_matches (rev base) ext Hext) as [e0 He0].
  destruct (scan flag_i re_extension [] (base ++ ext)) as [[b e]|] eqn:Hscan.
  - pose proof (scan_state _ _ _ _ _ Hscan) as (Hm & Htext & _).
    apply extension_shape in Hm as [He Hb].
    assert (Hfirst : length (seen b) <= length base + 0).
    { apply (scan_first flag_i re_extension base [] ext b e Hscan).
      rewrite app_nil_r. apply (run_complete flag_i _ Some _ e0 He0). eexists; reflexivity. }
    destruct (SanitizerFacts.app_suffix_of_length (rev (seen b)) base (ahead b) ext) as [u Hu].
    { symmetry. exact Htext. }
    { rewrite length_rev. lia. }
    rewrite Hu in Hb. pose proof (extension_no_prefix u ext Hb Hext) as ->.
    simpl in Hu. rewrite Hu in Htext. apply app_inv_tail in Htext.
    rewrite He, <- Htext, app_nil_r. reflexivity.
  - pose proof (scan_complete flag_i re_extension base [] ext e0) as Hc.
    rewrite app_nil_r, Hscan in Hc. destruct (Hc He0) as [? ?]. discriminate.
Qed.

Lemma is_extension_endsWith base ext :
  is_extension ext -> endsWithExtension (base ++ ext) = true.
Proof.
  unfold is_extension, endsWithExtension, endsWith, toLowerCase.
  intros [H | H]; rewrite map_app, H, rev_app_distr, SanitizerFacts.startsWith_app;
    [reflexivity | apply orb_true_r].
Qed.

(** X9. A file name that does not end with [.tsx] or [.ts] is taken as the
    title unchanged: an extension elsewhere in the name is not removed. *)
Theorem importedTitle_keeps_other_names (name : text) :
  endsWithExtension name = false -> importedTitle name = name.
Proof.
  intros Hnone. unfold importedTitle, replace.
  destruct (scan flag_i re_extension [] name) as [[b e]|] eqn:Hscan; [| reflexivity].
  pose proof (scan_state _ _ _ _ _ Hscan) as (Hm & Htext & _).
  apply extension_shape in Hm as [_ Hb].
  rewrite Htext, (is_extension_endsWith _ _ Hb) in Hnone. discriminate.
Qed.

(** *** Reset *)

Lemma findByTitle_title t title_ key sim :
  findByTitle t title_ = Some (key, sim) -> title sim = title_.
Proof.
  unfold findByTitle, find_entry. intros H.
  destruct (find _ t) as [[k v]|] eqn:Hf; [| discriminate].
  apply find_some in Hf as [_ Hp]. simpl in Hp.
  destruct (decide (title v = title_)) as [Ht|]; [| discriminate].
  destruct k; [discriminate|]. injection H as _ <-. exact Ht.
Qed.

(** X10. Reset looks the simulation up by its title and never changes the
    title, the status, the error or the library: it adds one to the refresh
    key, and a second reset installs the same data as the first. *)
Theorem handleReset_is_idempotent_on_data (st : AppState) :
  let st1 := handleReset st in
  let st2 := handleReset st1 in
  data_title (data st1) = data_title (data st) /\
  status st1 = status st /\ error st1 = error st /\ customSims st1 = customSims st /\
  currentPrompt st1 = currentPrompt st /\
  refreshKey st1 = refreshKey st + 1 /\
  data st2 = data st1 /\
  refreshKey st2 = refreshKey st + 2.
Proof.
  intros st1 st2.
  assert (H1 : data_title (data st1) = data_title (data st) /\ customSims st1 = customSims st /\
               status st1 = status st /\ error st1 = error st /\
               currentPrompt st1 = currentPrompt st /\ refreshKey st1 = refreshKey st + 1 /\
               (forall sim, (exists k, findByTitle (customSims st) (data_title (data st)) = Some (k, sim)) \/
                            (findByTitle (customSims st) (data_title (data st)) = None /\
                             exists k, findByTitle PERFECT_SIMULATIONS (data_title (data st)) = Some (k, sim)) ->
                  data st1 = {| code := componentCode sim; data_explanation := explanation sim;
                                data_title := title sim; data_sources := Some [] |}) /\
               (findByTitle (customSims st) (data_title (data st)) = None ->
                findByTitle PERFECT_SIMULATIONS (data_title (data st)) = None ->
                data st1 = data st)).
  { subst st1. unfold App.handleReset.
    destruct (findByTitle (customSims st) _) as [[k sim]|] eqn:Hc;
      [| destruct (findByTitle PERFECT_SIMULATIONS _) as [[k sim]|] eqn:Hl]; simpl;
      repeat split;
      try (eapply findByTitle_title; eassumption);
      try (intros sim' [[k' H] | [H [k' H']]]; congruence);
      try congruence. }
  destruct H1 as (Htitle & Hcustom & Hstatus & Herror & Hprompt & Hkey & Hfound & Hmissing).
  repeat split; auto.
  - subst st2. unfold App.handleReset at 1. rewrite Htitle, Hcustom.
    destruct (findByTitle (customSims st) _) as [[k sim]|] eqn:Hc;
      [| destruct (findByTitle PERFECT_SIMULATIONS _) as [[k sim]|] eqn:Hl]; simpl.
    + symmetry. apply Hfound. left. eauto.
    + symmetry. apply Hfound. right. eauto.
    + reflexivity.
  - subst st2. rewrite refreshKey_handleReset, Hkey. lia.
Qed.

(** *** The router *)

Lemma is_space_lower c : is_space (lower_char c) = is_space c.
Proof. destruct c as [[] [] [] [] [] [] [] []]; vm_compute; reflexivity. Qed.

Lemma trimStart_spaces w x : SanitizerSpec.spaces w -> trimStart (w ++ x) = trimStart x.
Proof.
  induction 1 as [|c w Hc _ IH]; [reflexivity|]. simpl. rewrite Hc. exact IH.
Qed.

Lemma trimStart_keeps_tail c t : is_space c = false ->
  forall b, exists b', trimStart (b ++ c :: t) = b' ++ c :: t.
Proof.
  intros Hc. induction b as [|x b IH]; simpl.
  - rewrite Hc. exists []. reflexivity.
  - destruct (is_space x); [exact IH | exists (x :: b); reflexivity].
Qed.

Lemma trimEnd_spaces y c w :
  is_space c = false -> SanitizerSpec.spaces w -> trimEnd (y ++ c :: w) = y ++ [c].
Proof.
  intros Hc Hw. unfold trimEnd.
  rewrite rev_app_distr. simpl. rewrite <- app_assoc. simpl.
  rewrite trimStart_spaces by (apply Forall_rev; exact Hw).
  simpl. rewrite Hc. simpl. rewrite rev_involutive. reflexivity.
Qed.

Lemma endsWith_last y c : endsWith (y ++ [c]) [c] = true.
Proof.
  unfold endsWith. rewrite rev_app_distr. simpl. destruct (decide (c = c)); congruence.
Qed.

(** X11. A request that ends with a question mark, whatever it starts with
    and whatever blanks follow the mark, is answered as a question when a
    simulation is on screen: also [Make it red?] in the status [READY] is
    explained, not applied. *)
Theorem question_mark_routes_to_explanation (body trail : text) (st : AppState) :
  SanitizerSpec.spaces trail ->
  code (data st) <> [] ->
  let prompt := body ++ str "?" ++ trail in
  handleSimulationRequest prompt st
  = (setStatus EXPLAINING (setCurrentPrompt prompt (setError None st)),
     AwaitExplanation (code (data st)) prompt (status st) (data_title (data st))).
Proof.
  intros Htrail Hcode prompt. unfold handleSimulationRequest.
  assert (Hend : endsWith (trim (toLowerCase prompt)) (str "?") = true).
  { subst prompt. unfold toLowerCase, trim. rewrite !map_app. simpl.
    change (lower_char "?") with "?"%char.
    destruct (trimStart_keeps_tail "?"%char (map lower_char trail) eq_refl (map lower_char body))
      as [b' ->].
    rewrite trimEnd_spaces; [apply endsWith_last | reflexivity |].
    apply Forall_map. eapply Forall_impl; [exact Htrail|].
    intros x Hx. simpl. rewrite is_space_lower. exact Hx. }
  assert (Hn : nonempty (code (data st)) = true)
    by (destruct (code (data st)); [contradiction | reflexivity]).
  fold prompt. rewrite Hend, !orb_true_r, Hn. reflexivity.
Qed.

End Facts.



Lemma operations_never_overlap_witness :
  let s' := uiSteps AppSpec.library
              [InputSubmit (str "a rocket"); PanelAsk (str "why?");
               Resume 0 (GenerationSettled (inr AppSpec.rocket));
               PresetButton (str "double pendulum")]
              initialUISession in
  count replaces_scene (suspendedHandlers s') <= 1 /\
  (is_ready_or_idle (status (core (ui s'))) = true ->
   List.filter replaces_scene (suspendedHandlers s') = []).
Proof.
  exact (operations_never_overlap AppSpec.library initialUISession
           [InputSubmit (str "a rocket"); PanelAsk (str "why?");
            Resume 0 (GenerationSettled (inr AppSpec.rocket));
            PresetButton (str "double pendulum")] eq_refl).
Defined.

Lemma failed_generation_locks_the_controls_witness :
  let s' := uiSteps AppSpec.library
              [Resume 0 (GenerationSettled (inl networkError)); DismissError; ResetButton]
              generatingSession in
  (status (core (ui s')) = ERROR \/ status (core (ui s')) = EXPLAINING) /\
  (forall value, uiStep AppSpec.library (InputSubmit value) s' = s') /\
  (forall key, uiStep AppSpec.library (PresetButton key) s' = s').
Proof.
  exact (failed_generation_locks_the_controls AppSpec.library generatingSession
           (str "a rocket") networkError [DismissError; ResetButton] eq_refl).
Defined.

Lemma question_during_generation_restores_stale_status_witness :
  let s1 := uiSteps AppSpec.library
              [PanelAsk (str "why?");
               Resume 0 (GenerationSettled (inr AppSpec.rocket));
               Resume 0 (ExplanationSettled (inr (str "Because.")) 1700000000000%N)]
              generatingSession in
  code (data (core (ui s1))) = componentCode AppSpec.rocket /\
  status (core (ui s1)) = GENERATING /\
  suspendedHandlers s1 = [].
Proof.
  pose proof (question_during_generation_restores_stale_status AppSpec.library
                generatingSession (str "a rocket") (str "why?") AppSpec.rocket
                (inr (str "Because.")) 1700000000000%N [] eq_refl eq_refl eq_refl) as H.
  exact (conj (proj1 H) (conj (proj1 (proj2 H)) (proj1 (proj2 (proj2 H))))).
Defined.

Lemma imported_file_can_be_selected_witness :
  let s1 := uiSteps AppSpec.library
              [FileChosen (Some (str "Orbit.TSX"));
               Resume 0 (FileRead (str "return <group><mesh /></group>;") 1700000000123%N)]
              initialUISession in
  lookup_key (customSims (core (ui s1))) (str "custom-1700000000123")
  = Some (importedSimulation (str "Orbit.TSX") (str "return <group><mesh /></group>;")).
Proof.
  exact (proj1 (proj1 (imported_file_can_be_selected AppSpec.library initialUISession
                         (str "Orbit.TSX") (str "return <group><mesh /></group>;")
                         1700000000123%N eq_refl))).
Defined.

Lemma imports_at_distinct_times_coexist_witness :
  let st' := fileLoaded (str "b.ts") (str "B") 2
               (fileLoaded (str "a.ts") (str "A") 1 (AppSpec.initialState)) in
  lookup_key (customSims st') (importKey 1) = Some (importedSimulation (str "a.ts") (str "A")) /\
  lookup_key (customSims st') (importKey 2) = Some (importedSimulation (str "b.ts") (str "B")).
Proof.
  apply (imports_at_distinct_times_coexist (AppSpec.initialState)
           (str "a.ts") (str "A") (str "b.ts") (str "B") 1 2).
  discriminate.
Defined.

Lemma importedTitle_strips_extension_witness :
  importedTitle (str "Orbit.final" ++ str ".TSX") = str "Orbit.final".
Proof.
  apply (importedTitle_strips_extension (str "Orbit.final") (str ".TSX")).
  left. reflexivity.
Defined.

Lemma importedTitle_keeps_other_names_witness :
  importedTitle (str "notes.tsx.bak") = str "notes.tsx.bak".
Proof. apply (importedTitle_keeps_other_names (str "notes.tsx.bak")). reflexivity. Defined.

Lemma question_mark_routes_to_explanation_witness :
  snd (handleSimulationRequest (str "Make it red" ++ str "?" ++ str " ")
         (AppSpec.initialState))
  = AwaitExplanation (str "return <group />;") (str "Make it red? ") IDLE (str "PhysiGen AI").
Proof.
  rewrite (question_mark_routes_to_explanation (str "Make it red") (str " ")
             (AppSpec.initialState)).
  - reflexivity.
  - repeat constructor.
  - discriminate.
Defined.

End InterfaceFacts.


(** ** The engines of the generation service and its cache *)

Module EnginesFacts.
Import Gemini GeminiEngines App Interface GeminiSpec EnginesSpec.

Section Facts.

Variable generateContent : engineRequest -> JsError + option text.
Variable JSON_parse : text -> JsError + SimulationResponse.

(** X12. [explainPhysics] never rejects and never answers with the empty
    string, whatever the model does, and it logs nothing; so every question
    that is asked ends up in the history with an answer, and the error
    branch of [performExplanation] never runs. *)
Theorem every_question_is_answered (currentCode question : text)
  (originalStatus : SimulationStatus) (titleAtCall : text) (now : N) (u : UIState) :
  let m := explainPhysics generateContent currentCode question in
  let u' := performExplanation_resume question originalStatus titleAtCall (outcome m) now u in
  trace m = [] /\
  exists answer,
    outcome m = inr answer /\ answer <> [] /\
    qaHistory u' = {| qa_question := question; qa_answer := answer; qa_timestamp := now;
                      simulationTitle := titleAtCall |} :: qaHistory u /\
    error (core u') = error (core u).
Proof.
  intros m u'. subst u' m. unfold explainPhysics.
  destruct (generateContent _) as [err|[[|c answer]|]]; simpl;
    (split; [reflexivity|]); eexists; (split; [reflexivity|]); repeat split; discriminate.
Qed.


End Facts.

Section CacheFacts.

Variables (PERFECT_SIMULATIONS INVISIBLE_SIMULATIONS : table).

Local Abbreviation generateSimulation :=
  (generateSimulation PERFECT_SIMULATIONS INVISIBLE_SIMULATIONS).

(** X14. A request that succeeded is answered again from memory: the same
    prompt, up to case and surrounding blanks, returns the same result and
    leaves the cache as it is, without logging and whatever the model would
    answer this time. *)
Theorem repeated_prompt_is_served_from_memory gc jp gc' jp' (cache : table)
  (userPrompt userPrompt' : text) (result : fulfilled) (cache' : table) :
  outcome (generateSimulation gc jp cache userPrompt) = inr (result, cache') ->
  trim (toLowerCase userPrompt') = trim (toLowerCase userPrompt) ->
  generateSimulation gc' jp' cache' userPrompt' = ([], inr (result, cache')).
Proof.
  unfold Gemini.generateSimulation. intros H ->.
  destruct (visibleMatch _ _) as [[k sim]|]; [injection H as <- <-; reflexivity|].
  destruct (shadowKey _ _) as [[k sim]|]; [injection H as <- <-; reflexivity|].
  destruct (read_key cache _) as [cached|member|] eqn:Hc.
  - injection H as <- <-. rewrite Hc. reflexivity.
  - injection H as <- <-. rewrite Hc. reflexivity.
  - apply GeminiFacts.model_returns_valid in H as (r & -> & _ & -> & _).
    rewrite TableFacts.read_assign_same. reflexivity.
Qed.

(** X15. A prompt that mentions a key of the library is answered from the
    library, with the library as its only source: neither the cache nor
    the model is consulted, and nothing is stored. *)
Theorem library_prompt_never_reaches_the_model gc jp (cache : table) (userPrompt key : text)
  (sim : SimulationResponse) :
  Forall (fun e => fst e <> []) PERFECT_SIMULATIONS ->
  In (key, sim) PERFECT_SIMULATIONS ->
  includes (trim (toLowerCase userPrompt)) key = true ->
  exists key' sim',
    In (key', sim') PERFECT_SIMULATIONS /\
    includes (trim (toLowerCase userPrompt)) key' = true /\
    generateSimulation gc jp cache userPrompt
    = ([], inr (Response
                  (withSources sim'
                     [{| source_title := str "PhysiGen Library"; source_uri := str "#" |}]),
                cache)).
Proof.
  intros Hkeys Hin Hinc. unfold Gemini.generateSimulation, visibleMatch, find_entry.
  destruct (find _ PERFECT_SIMULATIONS) as [[k v]|] eqn:Hfind.
  - apply find_some in Hfind as [Hk Hp]. simpl in Hp.
    assert (Hne : k <> []).
    { rewrite Forall_forall in Hkeys. apply (Hkeys (k, v)). apply list_elem_of_In. exact Hk. }
    destruct k as [|c k]; [contradiction|].
    exists (c :: k), v. auto.
  - apply (find_none _ _ Hfind) in Hin. simpl in Hin. congruence.
Qed.

End CacheFacts.

Lemma repeated_prompt_is_served_from_memory_witness :
  generateSimulation [] [] (fun _ => inl InterfaceSpec.networkError)
    (fun _ => inl InterfaceSpec.networkError)
    [(str "a rocket", withSources AppSpec.rocket [])] (str "  A Rocket ")
  = ([], inr (Response (withSources AppSpec.rocket []),
              [(str "a rocket", withSources AppSpec.rocket [])])).
Proof.
  apply (repeated_prompt_is_served_from_memory [] []
           (fst (answering AppSpec.rocket)) (snd (answering AppSpec.rocket))
           (fun _ => inl InterfaceSpec.networkError) (fun _ => inl InterfaceSpec.networkError)
           [] (str "a rocket") (str "  A Rocket "));
    vm_compute; reflexivity.
Defined.

Lemma library_prompt_never_reaches_the_model_witness :
  exists key' sim',
    In (key', sim') AppSpec.library /\
    includes (trim (toLowerCase (str "Show me a Double Pendulum"))) key' = true /\
    generateSimulation AppSpec.library [] (fun _ => inl InterfaceSpec.networkError)
      (fun _ => inl InterfaceSpec.networkError) [] (str "Show me a Double Pendulum")
    = ([], inr (Response
                  (withSources sim'
                     [{| source_title := str "PhysiGen Library"; source_uri := str "#" |}]),
                [])).
Proof.
  apply (library_prompt_never_reaches_the_model AppSpec.library []
           (fun _ => inl InterfaceSpec.networkError) (fun _ => inl InterfaceSpec.networkError)
           [] (str "Show me a Double Pendulum") (str "double pendulum") AppSpec.pendulum).
  - repeat constructor. discriminate.
  - left. reflexivity.
  - vm_compute. reflexivity.
Defined.

End EnginesFacts.


(** ** Bodies without imports and exports *)

Module PlainBodyFacts.

Import Sanitizer SanitizerSpec SanitizerFacts.

Lemma startsWith_split : forall p s, startsWith s p = true -> exists t, s = p ++ t.
Proof.
  induction p as [|c p IH]; intros s H; [exists s; reflexivity|].
  destruct s as [|x s]; simpl in H; [discriminate|].
  destruct (decide (c = x)) as [->|]; [| discriminate].
  destruct (IH _ H) as [t ->]. exists t. reflexivity.
Qed.

Lemma includes_split p : forall s, includes s p = true -> exists a t, s = a ++ p ++ t.
Proof.
  induction s as [|x s IH]; rewrite includes_unfold; intros H.
  - rewrite orb_false_r in H. apply startsWith_split in H as [t ->]. exists [], t. reflexivity.
  - apply orb_prop in H as [H | H].
    + apply startsWith_split in H as [t ->]. exists [], t. reflexivity.
    + destruct (IH H) as (a & t & ->). exists (x :: a), t. reflexivity.
Qed.

Lemma includes_context a x b p : includes x p = true -> includes (a ++ x ++ b) p = true.
Proof.
  intros H. apply includes_split in H as (a' & t & ->).
  replace (a ++ (a' ++ p ++ t) ++ b) with ((a ++ a') ++ p ++ (t ++ b))
    by (rewrite <- !app_assoc; reflexivity).
  apply includes_app.
Qed.

Lemma trimStart_suffix : forall s, exists w, s = w ++ trimStart s.
Proof.
  induction s as [|c s [w IH]]; [exists []; reflexivity|]. simpl.
  destruct (is_space c); [| exists []; reflexivity].
  exists (c :: w). simpl. congruence.
Qed.

Lemma trim_substring s : exists a b, s = a ++ trim s ++ b.
Proof.
  unfold trim, trimEnd.
  destruct (trimStart_suffix s) as [a Ha].
  destruct (trimStart_suffix (rev (trimStart s))) as [w Hw].
  exists a, (rev w). rewrite <- rev_app_distr, <- Hw, rev_involutive. exact Ha.
Qed.

Lemma export_match_includes s :
  test no_flags re_export_default s = true -> includes s (str "export") = true.
Proof.
  unfold test. destruct (scan no_flags re_export_default [] s) as [[b e]|] eqn:Hscan;
    [intros _ | discriminate].
  apply scan_state in Hscan as (Hm & Hs & _).
  destruct Hm as (m1 & H1 & _).
  apply matches_lit_exact in H1 as [[_ Ha] _].
  rewrite Hs, Ha. apply includes_app.
Qed.

(** X16. A body in which neither [import] nor [export] occurs reaches the
    transpiler verbatim, only trimmed, inside the [DynamicComponent]
    wrapper. *)
Theorem sanitize_plain_body (codeBody : text) :
  includes codeBody (str "import") = false ->
  includes codeBody (str "export") = false ->
  sanitize codeBody = (wrapBody (trim codeBody), str "return DynamicComponent;").
Proof.
  intros Himport Hexport. unfold sanitize.
  destruct (trim_substring codeBody) as (a & b & Hsub).
  assert (Hfree : forall p, includes codeBody p = false -> includes (trim codeBody) p = false).
  { intros p Hp. destruct (includes (trim codeBody) p) eqn:Ht; [| reflexivity].
    apply (includes_context a _ b) in Ht. rewrite <- Hsub in Ht. congruence. }
  rewrite removeImports_import_free by (apply Hfree, Himport).
  apply strategy_body_only.
  destruct (test no_flags re_export_default (trim codeBody)) eqn:Ht; [| reflexivity].
  apply export_match_includes in Ht. rewrite (Hfree _ Hexport) in Ht. discriminate.
Qed.

Lemma sanitize_plain_body_witness :
  sanitize (str "  return <mesh />;  ")
  = (wrapBody (str "return <mesh />;"), str "return DynamicComponent;").
Proof. apply (sanitize_plain_body (str "  return <mesh />;  ")); reflexivity. Defined.

End PlainBodyFacts.

(** ** The earliest sanitizer *)

Module LegacyFacts.

Import Sanitizer SanitizerSpec SanitizerFacts LegacySanitizer.

Lemma last_brace_shape b e :
  matches no_flags re_last_brace b e ->
  exists w, spaces w /\ ahead b = "}"%char :: w /\ ahead e = [].
Proof.
  intros (m1 & H1 & m2 & H2 & Heol & ->).
  apply matches_chr in H1 as (x & Hx & [_ Ha] & _).
  apply chr_matches_exact in Hx as <-.
  apply (matches_star_cls no_flags true is_space) in H2 as (w & Hw & [_ Hb] & _).
  unfold at_eol in Heol. simpl in Heol. destruct (ahead m2) eqn:Hm2; [| discriminate].
  exists w. split; [| split; [| reflexivity]].
  - eapply Forall_impl; [exact Hw|]. intros c Hc. exact Hc.
  - rewrite Ha, Hb, app_nil_r. reflexivity.
Qed.

Lemma last_brace_matches sn w :
  spaces w -> exists e, matches no_flags re_last_brace (MState sn ("}"%char :: w) []) e.
Proof.
  intros Hw. exists (MState (rev w ++ "}"%char :: sn) [] []).
  exists (MState ("}"%char :: sn) w []). split.
  - exists "}"%char, w. repeat split.
  - exists (MState (rev w ++ "}"%char :: sn) [] []). split; [| split; reflexivity].
    apply (star_cls_matches no_flags true is_space w).
    + eapply Forall_impl; [exact Hw|]. intros c Hc. exact Hc.
    + split; simpl; [reflexivity | rewrite app_nil_r; reflexivity].
    + reflexivity.
Qed.

(** X17. The earliest sanitizer deletes the last closing brace of a module
    together with the blanks after it, whatever that brace closes and
    whether or not the export header before it was found and removed. *)
Theorem legacy_strip_deletes_last_brace (cleanBody kept w : text) :
  includes cleanBody (str "export default function") = true ->
  replace no_flags re_export_header [] cleanBody = kept ++ str "}" ++ w ->
  spaces w ->
  stripWrapper cleanBody = kept.
Proof.
  intros Hinc Hhead Hw. unfold stripWrapper. rewrite Hinc, Hhead. unfold replace.
  destruct (last_brace_matches (rev kept) w Hw) as [e0 He0].
  destruct (scan no_flags re_last_brace [] (kept ++ str "}" ++ w)) as [[b e]|] eqn:Hscan.
  - apply scan_state in Hscan as (Hm & Htext & _).
    apply last_brace_shape in Hm as (w' & Hw' & Hb & He).
    rewrite Hb in Htext. rewrite He. simpl. rewrite app_nil_r.
    assert (Hrev : rev w ++ "}"%char :: rev kept = rev w' ++ "}"%char :: seen b).
    { apply (f_equal (@rev ascii)) in Htext.
      rewrite !rev_app_distr in Htext. simpl in Htext.
      rewrite rev_involutive, <- !app_assoc in Htext. simpl in Htext. exact Htext. }
    apply (span_unique is_space) in Hrev as [_ Hk];
      [| apply Forall_rev; exact Hw | apply Forall_rev; exact Hw' | reflexivity | reflexivity].
    rewrite <- Hk, rev_involutive. reflexivity.
  - pose proof (scan_complete no_flags re_last_brace kept [] ("}"%char :: w) e0) as Hc.
    rewrite app_nil_r in Hc. simpl in Hscan. rewrite Hscan in Hc.
    destruct (Hc He0) as [? ?]. discriminate.
Qed.

Lemma legacy_strip_deletes_last_brace_witness :
  stripWrapper (trim helper_module)
  = str " return <a/>; }" ++ Sanitizer.LF ++ str "function helper() { return 1; ".
Proof.
  apply (legacy_strip_deletes_last_brace (trim helper_module)
           (str " return <a/>; }" ++ Sanitizer.LF ++ str "function helper() { return 1; ") []).
  - vm_compute. reflexivity.
  - vm_compute. reflexivity.
  - constructor.
Defined.

End LegacyFacts.

(** ** Validation and auto-fix *)

Module ValidationFacts.

Import Gemini GeminiSpec ValidationSpec PlainBodyFacts EnginesSpec.

Lemma captured_embed a b s m :
  length (seen s) <= length (seen m) ->
  captured (embed a b s) (embed a b m) = captured s m.
Proof.
  intros Hle. unfold captured, embed. simpl. rewrite !length_app.
  replace (length (seen m) + length (rev a) - (length (seen s) + length (rev a)))
    with (length (seen m) - length (seen s)) by lia.
  rewrite firstn_app.
  replace (length (seen m) - length (seen s) - length (seen m)) with 0 by lia.
  simpl. rewrite app_nil_r. reflexivity.
Qed.

Lemma matches_seen fl r : forall s e, matches fl r s e -> length (seen s) <= length (seen e).
Proof.
  intros s e H. apply matches_passes in H as (w & Hseen & _).
  rewrite Hseen, length_app. lia.
Qed.

(** A match of a pattern without anchors is a match at the same place of
    every text that contains the text. *)
Lemma matches_embed fl a b r : anchor_free r = true ->
  forall s e, matches fl r s e -> matches fl r (embed a b s) (embed a b e).
Proof.
  induction r as [|c|p|r1 IH1 r2 IH2|r1 IH1 r2 IH2|g r1 IH1| | |r1 IH1];
    simpl; intros Hfree s e H; try discriminate.
  - subst e. reflexivity.
  - destruct H as (x & t & Ha & Hx & ->). exists x, (t ++ b).
    repeat split; [simpl; rewrite Ha; reflexivity | exact Hx].
  - destruct H as (x & t & Ha & Hx & ->). exists x, (t ++ b).
    repeat split; [simpl; rewrite Ha; reflexivity | exact Hx].
  - apply andb_prop in Hfree as [H1 H2]. destruct H as (m & Hm1 & Hm2).
    exists (embed a b m). auto.
  - apply andb_prop in Hfree as [H1 H2]. destruct H as [H | H]; auto.
  - induction H as [s | s m e [Hm Hp] _ IH].
    + apply rtc_refl.
    + eapply rtc_l; [| exact IH]. split; [auto|].
      unfold progress, embed in *. simpl. rewrite !length_app. lia.
  - destruct H as (m & Hm & ->). exists (embed a b m). split; [auto|].
    unfold close_group. unfold embed at 1. simpl.
    rewrite captured_embed by (eapply matches_seen; exact Hm). reflexivity.
Qed.

Lemma test_context fl r a code b :
  anchor_free r = true -> test fl r code = true -> test fl r (a ++ code ++ b) = true.
Proof.
  intros Hfree H. apply test_true_iff in H as (sk & rest & e & -> & Hm).
  apply test_true_iff. exists (a ++ sk), (rest ++ b), (embed a b e).
  split; [rewrite <- !app_assoc; reflexivity|].
  apply (matches_embed fl a b r Hfree) in Hm. unfold embed in Hm at 1. simpl in Hm.
  rewrite rev_app_distr. exact Hm.
Qed.

(** X18. Validation looks for three fragments anywhere in the text: code
    that passes keeps passing whatever is written before and after it. *)
Theorem validation_survives_context (before code after : text) :
  validateSimulationCode code = true ->
  validateSimulationCode (before ++ code ++ after) = true.
Proof.
  unfold validateSimulationCode. intros H.
  apply andb_prop in H as [H Hgroup]. apply andb_prop in H as [Hmesh Hreturn].
  rewrite !test_context; auto.
Qed.

Lemma validation_survives_context_witness :
  validateSimulationCode
    (str "// scene" ++ str "return (<group><mesh /></group>);" ++ str " // end") = true.
Proof.
  apply (validation_survives_context (str "// scene") (str "return (<group><mesh /></group>);")
           (str " // end")).
  vm_compute. reflexivity.
Defined.

(** X19. The auto-fix makes two of the three checks pass by itself: for a
    response without [return (] the validation of the fixed code comes down
    to whether the generated code contains a scene primitive. *)
Theorem autoFix_leaves_only_the_primitive_check (json : SimulationResponse) :
  includes (componentCode json) (str "return (") = false ->
  validateSimulationCode (componentCode (autoFix json))
  = test flag_i re_scene_primitive (componentCode json).
Proof.
  intros Hinc. unfold autoFix. rewrite Hinc.
  set (wrapped := str "return (<group>" ++ componentCode json ++ str "</group>);").
  change (validateSimulationCode wrapped = test flag_i re_scene_primitive (componentCode json)).
  unfold validateSimulationCode.
  assert (Hreturn : test flag_i re_return_paren wrapped = true).
  { apply (test_context flag_i re_return_paren [] (str "return (")
             (str "<group>" ++ componentCode json ++ str "</group>);")); reflexivity. }
  assert (Hgroup : test flag_i re_group_tag wrapped = true).
  { apply (test_context flag_i re_group_tag (str "return (") (str "<group")
             (str ">" ++ componentCode json ++ str "</group>);")); reflexivity. }
  rewrite Hreturn, Hgroup, !andb_true_r.
  destruct (test flag_i re_scene_primitive (componentCode json)) eqn:Hmesh.
  - apply (test_context flag_i re_scene_primitive (str "return (<group>") _ (str "</group>);"));
      [reflexivity | exact Hmesh].
  - destruct (test flag_i re_scene_primitive wrapped) eqn:Hw; [| reflexivity].
    apply GeminiFacts.wrapper_adds_no_primitive in Hw. congruence.
Qed.

Lemma autoFix_leaves_only_the_primitive_check_witness :
  validateSimulationCode (componentCode (autoFix boxOnly))
  = test flag_i re_scene_primitive (componentCode boxOnly).
Proof. apply (autoFix_leaves_only_the_primitive_check boxOnly). reflexivity. Defined.

(** X20. The auto-fix is applied at most once: a fixed response is left
    alone by a second pass. *)
Theorem autoFix_is_idempotent (json : SimulationResponse) :
  autoFix (autoFix json) = autoFix json.
Proof.
  unfold autoFix at 2.
  destruct (includes (componentCode json) (str "return (")) eqn:Hinc; cbn [negb].
  - unfold autoFix. rewrite Hinc. reflexivity.
  - assert (H : includes (str "return (<group>" ++ componentCode json ++ str "</group>);")
                          (str "return (") = true).
    { apply (includes_context [] (str "return (")
               (str "<group>" ++ componentCode json ++ str "</group>);")). reflexivity. }
    unfold autoFix. cbn [componentCode]. rewrite H, Hinc. reflexivity.
Qed.

Lemma lower_char_fixed c : lower_char (lower_char c) = lower_char c.
Proof. destruct c as [[] [] [] [] [] [] [] []]; vm_compute; reflexivity. Qed.

Lemma trimStart_Forall (P : ascii -> Prop) s : Forall P s -> Forall P (trimStart s).
Proof.
  induction 1 as [|c s Hc Hs IH]; simpl; [constructor|].
  destruct (is_space c); [exact IH | by constructor].
Qed.

Lemma trim_Forall (P : ascii -> Prop) s : Forall P s -> Forall P (trim s).
Proof.
  intros H. unfold trim, trimEnd. apply Forall_rev, trimStart_Forall, Forall_rev.
  by apply trimStart_Forall.
Qed.

(** A lower-cased prompt holds no capital letter, so the only inherited
    names it can spell are [constructor] and [__proto__]. *)
Lemma lowered_prototype_key userPrompt :
  In (trim (toLowerCase userPrompt)) objectPrototypeKeys ->
  In (trim (toLowerCase userPrompt)) inheritedKeys.
Proof.
  assert (Hlow : forallb (fun c => if decide (lower_char c = c) then true else false)
                   (trim (toLowerCase userPrompt)) = true).
  { apply forallb_forall. intros c Hc.
    assert (Hall : Forall (fun c => lower_char c = c) (trim (toLowerCase userPrompt))).
    { apply trim_Forall. unfold toLowerCase. apply Forall_map, Forall_true.
      intros x. apply lower_char_fixed. }
    rewrite Forall_forall in Hall. apply list_elem_of_In, Hall in Hc.
    by destruct (decide (lower_char c = c)). }
  unfold objectPrototypeKeys, inheritedKeys. simpl.
  intros H. repeat (destruct H as [H|H]; [first [by left | by (right; left)
    | (rewrite <- H in Hlow; vm_compute in Hlow; discriminate Hlow)] |]).
  destruct H.
Qed.

Section CacheFacts.

Variables (PERFECT_SIMULATIONS INVISIBLE_SIMULATIONS : table).

Lemma generation_keeps_cache_valid gc jp cache userPrompt answer cache' :
  all_valid cache ->
  outcome (generateSimulation PERFECT_SIMULATIONS INVISIBLE_SIMULATIONS gc jp cache userPrompt)
    = inr (answer, cache') ->
  all_valid cache'.
Proof.
  intros Hvalid. unfold generateSimulation.
  destruct (visibleMatch _ _) as [[k sim]|]; [intros [= _ <-]; exact Hvalid|].
  destruct (shadowKey _ _) as [[k sim]|]; [intros [= _ <-]; exact Hvalid|].
  destruct (read_key cache _) as [cached|member|];
    [intros [= _ <-]; exact Hvalid | intros [= _ <-]; exact Hvalid |].
  intros H. apply GeminiFacts.model_returns_valid in H as (r & _ & _ & _ & H). auto.
Qed.

Lemma cacheAfter_valid calls :
  all_valid (cacheAfter PERFECT_SIMULATIONS INVISIBLE_SIMULATIONS calls).
Proof.
  unfold cacheAfter.
  assert (H : forall cache, all_valid cache ->
            all_valid (fold_left
              (fun cache c =>
                 match outcome (generateSimulation PERFECT_SIMULATIONS INVISIBLE_SIMULATIONS
                                  (call_generateContent c) (call_JSON_parse c) cache
                                  (call_prompt c)) with
                 | inr (_, cache') => cache'
                 | inl _ => cache
                 end) calls cache)).
  { induction calls as [|c calls IH]; intros cache Hc; [exact Hc|]. simpl. apply IH.
    destruct (outcome _) as [e|[r cache']] eqn:Ho; [exact Hc|].
    eapply generation_keeps_cache_valid; eauto. }
  apply H. constructor.
Qed.

(** X21. Over the life of the module the cache only ever holds code that
    passed validation; so whatever series of requests came before, what a
    request is answered with, when it is not taken from the two libraries,
    is a response whose code has passed validation, also when it is served
    from the cache. (A prompt that spells an inherited member of the cache
    object is set aside: the read of the cache finds that member.) *)
Theorem served_results_are_validated (calls : list call) gc jp (userPrompt : text)
  (answer : fulfilled) (cache' : table) :
  ~ In (trim (toLowerCase userPrompt)) inheritedKeys ->
  visibleMatch PERFECT_SIMULATIONS (trim (toLowerCase userPrompt)) = None ->
  shadowKey INVISIBLE_SIMULATIONS (trim (toLowerCase userPrompt)) = None ->
  outcome (generateSimulation PERFECT_SIMULATIONS INVISIBLE_SIMULATIONS gc jp
             (cacheAfter PERFECT_SIMULATIONS INVISIBLE_SIMULATIONS calls) userPrompt)
    = inr (answer, cache') ->
  exists result,
    answer = Response result /\
    validateSimulationCode (componentCode result) = true /\
    all_valid (cacheAfter PERFECT_SIMULATIONS INVISIBLE_SIMULATIONS calls) /\
    all_valid cache'.
Proof.
  intros Hproto Hv Hs Ho.
  pose proof (cacheAfter_valid calls) as Hvalid.
  assert (exists result, answer = Response result) as [result ->].
  { revert Ho. unfold generateSimulation. rewrite Hv, Hs. unfold read_key.
    destruct (lookup_key _ _) as [cached|]; [intros [= <- _]; eauto|].
    destruct (decide (_ ∈ objectPrototypeKeys)) as [Hin|].
    - exfalso. apply Hproto, lowered_prototype_key. by apply list_elem_of_In.
    - intros H. apply GeminiFacts.model_returns_valid in H as (r & -> & _). eauto. }
  destruct (GeminiFacts.generated_result_valid _ _ _ _ _ _ _ _ Hv Hs Hvalid Ho) as [H1 H2].
  eauto.
Qed.

End CacheFacts.

Lemma served_results_are_validated_witness :
  exists result,
    Response (withSources AppSpec.rocket []) = Response result /\
    validateSimulationCode (componentCode result) = true /\
    all_valid (cacheAfter [] []
                 [{| call_prompt := str "a rocket";
                     call_generateContent := fst (answering AppSpec.rocket);
                     call_JSON_parse := snd (answering AppSpec.rocket) |}]) /\
    all_valid [(str "a rocket", withSources AppSpec.rocket [])].
Proof.
  exact ((served_results_are_validated [] []
                  [{| call_prompt := str "a rocket";
                      call_generateContent := fst (answering AppSpec.rocket);
                      call_JSON_parse := snd (answering AppSpec.rocket) |}]
                  (fun _ => inl InterfaceSpec.networkError)
                  (fun _ => inl InterfaceSpec.networkError)
                  (str "A ROCKET") (Response (withSources AppSpec.rocket []))
                  [(str "a rocket", withSources AppSpec.rocket [])]
                  ltac:(vm_compute; intuition discriminate) eq_refl eq_refl eq_refl)).
Defined.

End ValidationFacts.

(** ** The mounted scene *)

Module SceneFacts.

Import Compiler Host HostSpec SceneSpec CompilerSpec.

Section Facts.

Variables (Library UseFrame Rendered : Type).
Variable imports : Imports Library UseFrame.
Variable customUseFrame_hook : UseFrame.

(** X22. Once the boundary has caught an error it keeps showing the same
    fallback: further frame updates do not render the component again, log
    nothing and report nothing. *)
Theorem boundary_error_is_permanent (sc : Scene Rendered) (n : nat) :
  hasError (boundary sc) = true ->
  shown sc = Some (ErrorFallback (error (boundary sc))) ->
  exists sc',
    updates n sc = ([], inr sc') /\
    boundary sc' = boundary sc /\
    shown sc' = shown sc /\
    compiled sc' = compiled sc.
Proof.
  revert sc. induction n as [|n IH]; intros sc Herr Hshown; simpl.
  - exists sc. auto.
  - unfold updateScene. destruct (compiled sc) as [c|] eqn:Hc; simpl.
    + rewrite HostFacts.boundary_stays_in_fallback by exact Herr. simpl.
      destruct (IH {| compiled := Some c; boundary := boundary sc; renders := S (renders sc);
                      shown := Some (ErrorFallback (error (boundary sc))) |} Herr eq_refl)
        as (sc' & Hu & Hb & Hs & Hcomp).
      exists sc'. rewrite Hu. simpl in *. rewrite Hshown. auto.
    + destruct (IH sc Herr Hshown) as (sc' & Hu & Hb & Hs & Hcomp).
      exists sc'. rewrite Hu. rewrite Hc in Hcomp. auto.
Qed.

Lemma mount_failed_compile (window : Window Library UseFrame (Component Rendered))
  (code : text) (err : JsError) :
  outcome (compileComponent imports window code {| useFrame := Some customUseFrame_hook |})
    = inl err ->
  let m := mountScene imports customUseFrame_hook window code in
  outcome m = inr {| compiled := None; boundary := initialBoundaryState; renders := 0;
                     shown := None |} /\
  onErrorCalls (trace m) = [or_text (err_message err) (str "Failed to compile code")].
Proof.
  intros Hfail m.
  destruct (HostFacts.compileScene_reports imports customUseFrame_hook window code err Hfail)
    as [Hout Hcalls].
  subst m. unfold mountScene.
  destruct (compileScene imports customUseFrame_hook window code) as [t [e|c]] eqn:Hcs;
    simpl in Hout; [discriminate|]. injection Hout as ->. simpl in Hcalls.
  simpl. rewrite app_nil_r. auto.
Qed.

(** X23. When the code does not compile the scene mounts empty: nothing is
    shown, the error is reported through [onError] exactly once, and frame
    updates change nothing afterwards. *)
Theorem failed_compile_mounts_nothing (window : Window Library UseFrame (Component Rendered))
  (code : text) (err : JsError) (n : nat) :
  outcome (compileComponent imports window code {| useFrame := Some customUseFrame_hook |})
    = inl err ->
  let m := mountScene imports customUseFrame_hook window code in
  exists sc,
    outcome m = inr sc /\
    compiled sc = None /\ shown sc = None /\
    onErrorCalls (trace m) = [or_text (err_message err) (str "Failed to compile code")] /\
    updates n sc = ([], inr sc).
Proof.
  intros Hfail m. destruct (mount_failed_compile window code err Hfail) as [Hout Hcalls].
  eexists. split; [exact Hout|]. repeat split; [exact Hcalls|].
  induction n as [|n IH]; simpl; [reflexivity|]. rewrite IH. reflexivity.
Qed.

(** X24. A compile error of the scene reaches [App] as one runtime
    error: the banner shows [Runtime Error: ] followed by the message of the
    error, while the status, the simulation data and the suspended handlers
    stay as they are. *)
Theorem compile_failure_reaches_the_banner (PERFECT_SIMULATIONS : table)
  (window : Window Library UseFrame (Component Rendered)) (code : text) (err : JsError)
  (s : Interface.UISession) :
  outcome (compileComponent imports window code {| useFrame := Some customUseFrame_hook |})
    = inl err ->
  let m := mountScene imports customUseFrame_hook window code in
  let s' := InterfaceSpec.report PERFECT_SIMULATIONS (onErrorCalls (trace m)) s in
  App.error (Interface.core (Interface.ui s'))
    = Some (str "Runtime Error: " ++ or_text (err_message err) (str "Failed to compile code")) /\
  App.status (Interface.core (Interface.ui s')) = App.status (Interface.core (Interface.ui s)) /\
  App.data (Interface.core (Interface.ui s')) = App.data (Interface.core (Interface.ui s)) /\
  App.refreshKey (Interface.core (Interface.ui s'))
    = App.refreshKey (Interface.core (Interface.ui s)) /\
  Interface.suspendedHandlers s' = Interface.suspendedHandlers s.
Proof.
  intros Hfail m s'. destruct (mount_failed_compile window code err Hfail) as [_ Hcalls].
  subst s' m. rewrite Hcalls. simpl. auto.
Qed.

End Facts.

Lemma boundary_error_is_permanent_witness :
  exists sc',
    updates 3 caughtScene = ([], inr sc') /\
    boundary sc' = boundary caughtScene /\
    shown sc' = shown caughtScene /\
    compiled sc' = compiled caughtScene.
Proof. apply (boundary_error_is_permanent unit caughtScene 3); reflexivity. Defined.

Lemma failed_compile_mounts_nothing_witness :
  exists sc,
    outcome (mountScene stubImports tt windowWithoutTranspiler (str "return <mesh />;")) = inr sc /\
    compiled sc = None /\ shown sc = None /\
    onErrorCalls (trace (mountScene stubImports tt windowWithoutTranspiler (str "return <mesh />;")))
      = [or_text (err_message babelNotLoaded) (str "Failed to compile code")] /\
    updates 2 sc = ([], inr sc).
Proof.
  apply (failed_compile_mounts_nothing unit unit unit stubImports tt windowWithoutTranspiler
           (str "return <mesh />;") babelNotLoaded 2).
  vm_compute. reflexivity.
Defined.

Lemma compile_failure_reaches_the_banner_witness :
  App.error
    (Interface.core
       (Interface.ui
          (InterfaceSpec.report AppSpec.library
             (onErrorCalls
                (trace (mountScene stubImports tt windowWithoutTranspiler
                          (str "return <mesh />;"))))
             InterfaceSpec.initialUISession)))
  = Some (str "Runtime Error: Babel not loaded. Please ensure Babel is included in index.html").
Proof.
  exact (proj1 (compile_failure_reaches_the_banner unit unit unit stubImports tt AppSpec.library
                  windowWithoutTranspiler (str "return <mesh />;") babelNotLoaded
                  InterfaceSpec.initialUISession eq_refl)).
Defined.

End SceneFacts.
